(** * The security service of the health-records application

    A shallow embedding of [lib/security.ts] (class [SecurityService]):
    access permissions with expiry, the audit trail, the security score, the
    placeholder encryption, the data hashes and the copies kept in the
    browser's storage, and of the helpers of
    [components/security/security-dashboard.tsx] that show them.  The
    properties the specification states about them come first, further
    properties of the code after them.

    Conventions of the embedding.
    - A JavaScript string is the list of its UTF-16 code units.
    - A JavaScript number is an integer [Z], added and multiplied exactly:
      every number the service handles is a millisecond time stamp, a count
      or a whole number of hours.  Doubles give the same as long as the
      operands and the results are integers of at most 53 bits; a property
      that states the value of [expiresAt], the one sum the service computes
      from an argument, asks for that ([exact_in_doubles]).
    - The instance fields [auditLogs] and [permissions] live in a [World]
      together with what the methods read from their environment: the clock
      behind [Date.now()], the generator behind [Math.random()] and the
      browser's [window].  A method is a function from worlds to a result and
      a world; a thrown exception (a rejected promise for the [async]
      methods) is the result [Throw].
    - The clock and the generator are given as the sequences of values their
      successive calls return, so two calls of [Date.now()] inside one
      method may differ.
    - The store accepts every write and holds the two arrays as the service
      saved them, which stand for their JSON text.  The module [Refusing]
      translates the methods that only log once more, over a store whose
      [setItem] may throw; the text of the arrays and its reading by
      [JSON.parse] are given with the properties of saving and loading.
    - Left out: [console.warn], which nothing reads back; a stored text
      that [JSON.parse] cannot read, or that is not an array of the declared
      type, on which [loadStoredData] throws or leaves a collection that is
      none; hours that are no whole numbers; other code running between the
      [await] of the key and the rest of [encryptData] and [decryptData]. *)

From Stdlib Require Import ZArith NArith List Bool Lia String Ascii DecimalString Sorted
  Permutation.
From Stdlib Require DecimalFacts DecimalZ.
Import ListNotations.
Local Open Scope Z_scope.

(** ** Strings and numbers *)

Definition jsstring : Type := list N.

Definition js (s : string) : jsstring :=
  map N_of_ascii (list_ascii_of_string s).

(** [a === b] on strings. *)
Fixpoint str_eqb (a b : jsstring) : bool :=
  match a, b with
  | [], [] => true
  | x :: a', y :: b' => N.eqb x y && str_eqb a' b'
  | _, _ => false
  end.

(** [String(n)] for an integer [n]. *)
Definition Number_toString (n : Z) : jsstring :=
  js (NilZero.string_of_int (Z.to_int n)).

(** [parts.join(sep)]. *)
Fixpoint join (sep : jsstring) (parts : list jsstring) : jsstring :=
  match parts with
  | [] => []
  | [p] => p
  | p :: rest => p ++ sep ++ join sep rest
  end.

(** [xs.length] as a number. *)
Definition len {A : Type} (xs : list A) : Z := Z.of_nat (List.length xs).

(** [xs.slice(0, end)] for an integer [end]: a negative [end] counts from
    the end of the array. *)
Definition slice0 {A : Type} (xs : list A) (end_ : Z) : list A :=
  let final := if end_ <? 0 then Z.max (len xs + end_) 0 else Z.min end_ (len xs) in
  firstn (Z.to_nat final) xs.

(** ** The data model *)

Inductive RiskLevel : Type := low | medium | high.

Definition RiskLevel_eqb (a b : RiskLevel) : bool :=
  match a, b with
  | low, low | medium, medium | high, high => true
  | _, _ => false
  end.

Inductive ResourceType : Type := record | profile | full_access.

Inductive Permission : Type := read | write | share | delete.

Definition Permission_eqb (a b : Permission) : bool :=
  match a, b with
  | read, read | write, write | share, share | delete, delete => true
  | _, _ => false
  end.

Definition Permission_name (p : Permission) : jsstring :=
  match p with
  | read => js "read"
  | write => js "write"
  | share => js "share"
  | delete => js "delete"
  end.

(** [xs.includes(x)] *)
Definition includes (xs : list Permission) (x : Permission) : bool :=
  existsb (Permission_eqb x) xs.

Module SecurityAudit.
Record t : Type := mk {
  id : jsstring;
  timestamp : Z;
  action : jsstring;
  userAddress : jsstring;
  resourceId : option jsstring;
  ipAddress : jsstring;
  userAgent : jsstring;
  success : bool;
  riskLevel : RiskLevel;
  details : option jsstring
}.
End SecurityAudit.

Module AccessPermission.
Record t : Type := mk {
  id : jsstring;
  granterAddress : jsstring;
  granteeAddress : jsstring;
  resourceId : jsstring;
  resourceType : ResourceType;
  permissions : list Permission;
  expiresAt : Z;
  createdAt : Z;
  isActive : bool
}.

(** The assignment [permission.isActive = b]. *)
Definition set_isActive (b : bool) (p : t) : t :=
  mk (id p) (granterAddress p) (granteeAddress p) (resourceId p)
     (resourceType p) (permissions p) (expiresAt p) (createdAt p) b.
End AccessPermission.

(** The argument of [logSecurityEvent]:
    [Omit<SecurityAudit, "id" | "timestamp" | "ipAddress" | "userAgent">]. *)
Module SecurityEvent.
Record t : Type := mk {
  action : jsstring;
  userAddress : jsstring;
  resourceId : option jsstring;
  success : bool;
  riskLevel : RiskLevel;
  details : option jsstring
}.
End SecurityEvent.

(** ** The world *)

(** [localStorage], reduced to the two keys the service writes.  The value
    kept under a key stands for its JSON text. *)
Record Storage : Type := mkStorage {
  security_audit_logs : option (list SecurityAudit.t);
  access_permissions : option (list AccessPermission.t)
}.

Record Window : Type := mkWindow {
  navigator_userAgent : jsstring;
  localStorage : Storage
}.

(** [clock] lists the values the successive calls of [Date.now()] return and
    [ticks] counts the calls made so far; [random] and [draws] do the same
    for [Math.random().toString(36).substr(2, 9)].  [window] is [None] where
    [typeof window === "undefined"]. *)
Record World : Type := mkWorld {
  auditLogs : list SecurityAudit.t;
  permissions : list AccessPermission.t;
  window : option Window;
  clock : nat -> Z;
  ticks : nat;
  random : nat -> jsstring;
  draws : nat
}.

(** ** Exceptions and the monad of methods *)

Record exn : Type := mkExn {
  name : jsstring;
  message : jsstring
}.

(** [new Error(msg)] *)
Definition Error (msg : jsstring) : exn := mkExn (js "Error") msg.

Inductive result (A : Type) : Type :=
| Ok (a : A)
| Throw (e : exn).
Arguments Ok {A} a.
Arguments Throw {A} e.

Definition M (A : Type) : Type := World -> result A * World.

Definition ret {A : Type} (a : A) : M A := fun w => (Ok a, w).

Definition bind {A B : Type} (c : M A) (k : A -> M B) : M B :=
  fun w =>
    match c w with
    | (Ok a, w') => k a w'
    | (Throw e, w') => (Throw e, w')
    end.

Definition throw {A : Type} (e : exn) : M A := fun w => (Throw e, w).

(** [try { body } catch (error) { handler }] *)
Definition try_catch {A : Type} (body : M A) (handler : exn -> M A) : M A :=
  fun w =>
    match body w with
    | (Ok a, w') => (Ok a, w')
    | (Throw e, w') => handler e w'
    end.

Declare Scope js_scope.
Delimit Scope js_scope with js.
Notation "x <- c ;; k" := (bind c (fun x => k))
  (at level 100, c at next level, right associativity) : js_scope.
Notation "c ;; k" := (bind c (fun _ => k))
  (at level 100, right associativity) : js_scope.
Local Open Scope js_scope.

(** [Date.now()] *)
Definition Date_now : M Z :=
  fun w =>
    (Ok (clock w (ticks w)),
     mkWorld (auditLogs w) (permissions w) (window w)
             (clock w) (S (ticks w)) (random w) (draws w)).

(** [Math.random().toString(36).substr(2, 9)] *)
Definition Math_random_toString36_substr : M jsstring :=
  fun w =>
    (Ok (random w (draws w)),
     mkWorld (auditLogs w) (permissions w) (window w)
             (clock w) (ticks w) (random w) (S (draws w))).

Definition get_auditLogs : M (list SecurityAudit.t) := fun w => (Ok (auditLogs w), w).

Definition get_permissions : M (list AccessPermission.t) := fun w => (Ok (permissions w), w).

Definition get_window : M (option Window) := fun w => (Ok (window w), w).

Definition put_auditLogs (l : list SecurityAudit.t) : M unit :=
  fun w =>
    (Ok tt, mkWorld l (permissions w) (window w)
                    (clock w) (ticks w) (random w) (draws w)).

Definition put_permissions (l : list AccessPermission.t) : M unit :=
  fun w =>
    (Ok tt, mkWorld (auditLogs w) l (window w)
                    (clock w) (ticks w) (random w) (draws w)).

Definition put_localStorage (f : Storage -> Storage) : M unit :=
  fun w =>
    (Ok tt,
     mkWorld (auditLogs w) (permissions w)
             (match window w with
              | Some win => Some (mkWindow (navigator_userAgent win) (f (localStorage win)))
              | None => None
              end)
             (clock w) (ticks w) (random w) (draws w)).

(** [xs.filter(f)] where the callback itself runs in the world. *)
Fixpoint filterM {A : Type} (f : A -> M bool) (xs : list A) : M (list A) :=
  match xs with
  | [] => ret []
  | x :: xs' =>
      keep <- f x ;;
      rest <- filterM f xs' ;;
      ret (if keep then x :: rest else rest)
  end.

(** [xs.sort((a, b) => b.timestamp - a.timestamp)]: the sort of an array is
    stable, so the result is the one stable arrangement by decreasing time
    stamp, whichever algorithm the engine runs.  Insertion from the right
    computes it. *)
Fixpoint insert_desc (x : SecurityAudit.t) (l : list SecurityAudit.t)
  : list SecurityAudit.t :=
  match l with
  | [] => [x]
  | y :: l' =>
      if SecurityAudit.timestamp y <=? SecurityAudit.timestamp x
      then x :: y :: l'
      else y :: insert_desc x l'
  end.

Fixpoint sort_desc (l : list SecurityAudit.t) : list SecurityAudit.t :=
  match l with
  | [] => []
  | x :: l' => insert_desc x (sort_desc l')
  end.

(** The object [xs.find(f)] returns is the one stored in the array, so an
    assignment to one of its fields changes the first element that
    satisfies [f]. *)
Fixpoint update_first {A : Type} (f : A -> bool) (g : A -> A) (xs : list A) : list A :=
  match xs with
  | [] => []
  | x :: xs' => if f x then g x :: xs' else x :: update_first f g xs'
  end.

(** ** Base64: [btoa] and [atob] *)

Definition InvalidCharacterError (msg : jsstring) : exn :=
  mkExn (js "InvalidCharacterError") msg.

Definition b64_char (n : N) : N :=
  (if n <? 26 then 65 + n
   else if n <? 52 then 97 + (n - 26)
   else if n <? 62 then 48 + (n - 52)
   else if n =? 62 then 43
   else 47)%N.

Definition b64_value (c : N) : option N :=
  (if (65 <=? c) && (c <=? 90) then Some (c - 65)
   else if (97 <=? c) && (c <=? 122) then Some (c - 71)
   else if (48 <=? c) && (c <=? 57) then Some (c + 4)
   else if c =? 43 then Some 62
   else if c =? 47 then Some 63
   else None)%N.

Fixpoint b64_encode (bytes : list N) : jsstring :=
  match bytes with
  | [] => []
  | [a] =>
      [b64_char (a / 4); b64_char ((a mod 4) * 16); 61; 61]%N
  | [a; b] =>
      [b64_char (a / 4); b64_char ((a mod 4) * 16 + b / 16);
       b64_char ((b mod 16) * 4); 61]%N
  | a :: b :: c :: rest =>
      ([b64_char (a / 4); b64_char ((a mod 4) * 16 + b / 16);
        b64_char ((b mod 16) * 4 + c / 64); b64_char (c mod 64)]%N)
      ++ b64_encode rest
  end.

(** [btoa(s)]: a code unit above U+00FF makes it throw. *)
Definition btoa (msg : jsstring) (s : jsstring) : result jsstring :=
  if existsb (fun c => (255 <? c)%N) s
  then Throw (InvalidCharacterError msg)
  else Ok (b64_encode s).

Definition is_ascii_whitespace (c : N) : bool :=
  ((c =? 9) || (c =? 10) || (c =? 12) || (c =? 13) || (c =? 32))%N.

(** One or two [=] at the end are removed. *)
Definition strip_padding (s : jsstring) : jsstring :=
  match rev s with
  | c1 :: r =>
      if (c1 =? 61)%N then
        match r with
        | c2 :: r' => if (c2 =? 61)%N then rev r' else rev r
        | [] => []
        end
      else s
  | [] => s
  end.

Fixpoint b64_values (s : jsstring) : option (list N) :=
  match s with
  | [] => Some []
  | c :: s' =>
      match b64_value c, b64_values s' with
      | Some v, Some vs => Some (v :: vs)
      | _, _ => None
      end
  end.

Fixpoint b64_decode (vs : list N) : list N :=
  match vs with
  | a :: b :: c :: d :: rest =>
      ([a * 4 + b / 16; (b mod 16) * 16 + c / 4; (c mod 4) * 64 + d]%N)
      ++ b64_decode rest
  | [a; b; c] => [a * 4 + b / 16; (b mod 16) * 16 + c / 4]%N
  | [a; b] => [a * 4 + b / 16]%N
  | _ => []
  end.

(** [atob(s)], the forgiving decoder: white space is dropped, padding is
    optional, anything else outside the alphabet makes it throw. *)
Definition atob (msg : jsstring) (s : jsstring) : result jsstring :=
  let data := filter (fun c => negb (is_ascii_whitespace c)) s in
  let data :=
    if (List.length data mod 4 =? 0)%nat then strip_padding data else data in
  if (List.length data mod 4 =? 1)%nat then Throw (InvalidCharacterError msg)
  else
    match b64_values data with
    | Some vs => Ok (b64_decode vs)
    | None => Throw (InvalidCharacterError msg)
    end.

(** ** JSON *)

#[local] Set Warnings "-register-all".
Inductive json : Type :=
| JNull
| JBool (b : bool)
| JNumber (lexeme : jsstring)
| JString (s : jsstring)
| JArray (elements : list json)
| JObject (members : list (jsstring * json)).

Definition SyntaxError (msg : jsstring) : exn := mkExn (js "SyntaxError") msg.

Definition TypeError (msg : jsstring) : exn := mkExn (js "TypeError") msg.

Definition hex_digit (n : N) : N :=
  (if n <? 10 then 48 + n else 87 + n)%N.

Definition hex_value (c : N) : option N :=
  (if (48 <=? c) && (c <=? 57) then Some (c - 48)
   else if (97 <=? c) && (c <=? 102) then Some (c - 87)
   else if (65 <=? c) && (c <=? 70) then Some (c - 55)
   else None)%N.

(** [\uXXXX] with lower-case digits, as [JSON.stringify] writes it. *)
Definition unicode_escape (c : N) : jsstring :=
  [92; 117; hex_digit (c / 4096); hex_digit ((c / 256) mod 16);
   hex_digit ((c / 16) mod 16); hex_digit (c mod 16)]%N.

Definition is_leading_surrogate (c : N) : bool := ((55296 <=? c) && (c <=? 56319))%N.

Definition is_trailing_surrogate (c : N) : bool := ((56320 <=? c) && (c <=? 57343))%N.

Definition quote_unit (c : N) : jsstring :=
  (if c =? 8 then [92; 98]
   else if c =? 9 then [92; 116]
   else if c =? 10 then [92; 110]
   else if c =? 12 then [92; 102]
   else if c =? 13 then [92; 114]
   else if c =? 34 then [92; 34]
   else if c =? 92 then [92; 92]
   else if c <? 32 then unicode_escape c
   else [c])%N.

(** The characters between the quotes of [JSON.stringify(s)]: a surrogate
    pair is copied, a surrogate on its own is escaped. *)
Fixpoint quote_units (s : jsstring) : jsstring :=
  match s with
  | [] => []
  | c :: rest =>
      if is_leading_surrogate c then
        match rest with
        | d :: rest' =>
            if is_trailing_surrogate d then c :: d :: quote_units rest'
            else unicode_escape c ++ quote_units rest
        | [] => unicode_escape c
        end
      else if is_trailing_surrogate c then unicode_escape c ++ quote_units rest
      else quote_unit c ++ quote_units rest
  end.

Definition QuoteJSONString (s : jsstring) : jsstring :=
  [34%N] ++ quote_units s ++ [34%N].

(** [JSON.stringify({ data, key, timestamp })] *)
Definition JSON_stringify_payload (data key : jsstring) (timestamp : Z) : jsstring :=
  js "{" ++ QuoteJSONString (js "data") ++ js ":" ++ QuoteJSONString data
  ++ js "," ++ QuoteJSONString (js "key") ++ js ":" ++ QuoteJSONString key
  ++ js "," ++ QuoteJSONString (js "timestamp") ++ js ":" ++ Number_toString timestamp
  ++ js "}".

(** [JSON.parse]: a recursive-descent reader of the JSON grammar.  A number
    is kept as its lexeme. *)
Definition is_json_whitespace (c : N) : bool :=
  ((c =? 9) || (c =? 10) || (c =? 13) || (c =? 32))%N.

Fixpoint skip_ws (s : jsstring) : jsstring :=
  match s with
  | c :: rest => if is_json_whitespace c then skip_ws rest else s
  | [] => []
  end.

Definition is_digit (c : N) : bool := ((48 <=? c) && (c <=? 57))%N.

Fixpoint take_digits (s : jsstring) : jsstring * jsstring :=
  match s with
  | c :: rest =>
      if is_digit c
      then let (ds, rest') := take_digits rest in (c :: ds, rest')
      else ([], s)
  | [] => ([], [])
  end.

Definition parse_sign (s : jsstring) : jsstring * jsstring :=
  match s with
  | c :: rest => if (c =? 45)%N then ([c], rest) else ([], s)
  | [] => ([], [])
  end.

Definition parse_int (s : jsstring) : option (jsstring * jsstring) :=
  match s with
  | c :: rest =>
      if (c =? 48)%N then Some ([c], rest)
      else if is_digit c then Some (take_digits s)
      else None
  | [] => None
  end.

Definition parse_frac (s : jsstring) : option (jsstring * jsstring) :=
  match s with
  | c :: rest =>
      if (c =? 46)%N then
        match take_digits rest with
        | ([], _) => None
        | (ds, rest') => Some (c :: ds, rest')
        end
      else Some ([], s)
  | [] => Some ([], [])
  end.

Definition parse_exp (s : jsstring) : option (jsstring * jsstring) :=
  match s with
  | c :: rest =>
      if ((c =? 101) || (c =? 69))%N then
        let (sign, rest1) :=
          match rest with
          | d :: rest' => if ((d =? 43) || (d =? 45))%N then ([d], rest') else ([], rest)
          | [] => ([], [])
          end in
        match take_digits rest1 with
        | ([], _) => None
        | (ds, rest2) => Some (c :: sign ++ ds, rest2)
        end
      else Some ([], s)
  | [] => Some ([], [])
  end.

Definition parse_number (s : jsstring) : option (jsstring * jsstring) :=
  let (sign, s1) := parse_sign s in
  match parse_int s1 with
  | None => None
  | Some (int, s2) =>
      match parse_frac s2 with
      | None => None
      | Some (frac, s3) =>
          match parse_exp s3 with
          | None => None
          | Some (exp, s4) => Some (sign ++ int ++ frac ++ exp, s4)
          end
      end
  end.

(** The characters of a string literal after its opening quote. *)
Fixpoint parse_string_body (s : jsstring) : option (jsstring * jsstring) :=
  let cons_to c r :=
    match r with
    | Some (body, rest) => Some (c :: body, rest)
    | None => None
    end in
  match s with
  | [] => None
  | c :: rest =>
      if (c =? 34)%N then Some ([], rest)
      else if (c =? 92)%N then
        match rest with
        | [] => None
        | e :: rest1 =>
            if (e =? 34)%N then cons_to 34%N (parse_string_body rest1)
            else if (e =? 92)%N then cons_to 92%N (parse_string_body rest1)
            else if (e =? 47)%N then cons_to 47%N (parse_string_body rest1)
            else if (e =? 98)%N then cons_to 8%N (parse_string_body rest1)
            else if (e =? 102)%N then cons_to 12%N (parse_string_body rest1)
            else if (e =? 110)%N then cons_to 10%N (parse_string_body rest1)
            else if (e =? 114)%N then cons_to 13%N (parse_string_body rest1)
            else if (e =? 116)%N then cons_to 9%N (parse_string_body rest1)
            else if (e =? 117)%N then
              match rest1 with
              | h1 :: h2 :: h3 :: h4 :: rest2 =>
                  match hex_value h1, hex_value h2, hex_value h3, hex_value h4 with
                  | Some a, Some b, Some c', Some d =>
                      cons_to (a * 4096 + b * 256 + c' * 16 + d)%N (parse_string_body rest2)
                  | _, _, _, _ => None
                  end
              | _ => None
              end
            else None
        end
      else if (c <? 32)%N then None
      else cons_to c (parse_string_body rest)
  end.

Fixpoint strip_prefix (p s : jsstring) : option jsstring :=
  match p, s with
  | [], _ => Some s
  | a :: p', b :: s' => if (a =? b)%N then strip_prefix p' s' else None
  | _ :: _, [] => None
  end.

Fixpoint parse_value (fuel : nat) (s : jsstring) : option (json * jsstring) :=
  match fuel with
  | O => None
  | S fuel' =>
      match skip_ws s with
      | [] => None
      | c :: rest =>
          if (c =? 34)%N then
            match parse_string_body rest with
            | Some (body, rest') => Some (JString body, rest')
            | None => None
            end
          else if (c =? 91)%N then
            match skip_ws rest with
            | d :: rest' =>
                if (d =? 93)%N then Some (JArray [], rest')
                else
                  match parse_elements fuel' rest with
                  | Some (vs, rest'') => Some (JArray vs, rest'')
                  | None => None
                  end
            | [] => None
            end
          else if (c =? 123)%N then
            match skip_ws rest with
            | d :: rest' =>
                if (d =? 125)%N then Some (JObject [], rest')
                else
                  match parse_members fuel' rest with
                  | Some (ms, rest'') => Some (JObject ms, rest'')
                  | None => None
                  end
            | [] => None
            end
          else if (c =? 116)%N then
            match strip_prefix (js "true") (c :: rest) with
            | Some rest' => Some (JBool true, rest')
            | None => None
            end
          else if (c =? 102)%N then
            match strip_prefix (js "false") (c :: rest) with
            | Some rest' => Some (JBool false, rest')
            | None => None
            end
          else if (c =? 110)%N then
            match strip_prefix (js "null") (c :: rest) with
            | Some rest' => Some (JNull, rest')
            | None => None
            end
          else
            match parse_number (c :: rest) with
            | Some (lexeme, rest') => Some (JNumber lexeme, rest')
            | None => None
            end
      end
  end

with parse_elements (fuel : nat) (s : jsstring) : option (list json * jsstring) :=
  match fuel with
  | O => None
  | S fuel' =>
      match parse_value fuel' s with
      | None => None
      | Some (v, rest) =>
          match skip_ws rest with
          | c :: rest' =>
              if (c =? 44)%N then
                match parse_elements fuel' rest' with
                | Some (vs, rest'') => Some (v :: vs, rest'')
                | None => None
                end
              else if (c =? 93)%N then Some ([v], rest')
              else None
          | [] => None
          end
      end
  end

with parse_members (fuel : nat) (s : jsstring)
  : option (list (jsstring * json) * jsstring) :=
  match fuel with
  | O => None
  | S fuel' =>
      match skip_ws s with
      | q :: rest =>
          if (q =? 34)%N then
            match parse_string_body rest with
            | None => None
            | Some (k, rest1) =>
                match skip_ws rest1 with
                | colon :: rest2 =>
                    if (colon =? 58)%N then
                      match parse_value fuel' rest2 with
                      | None => None
                      | Some (v, rest3) =>
                          match skip_ws rest3 with
                          | c :: rest4 =>
                              if (c =? 44)%N then
                                match parse_members fuel' rest4 with
                                | Some (ms, rest5) => Some ((k, v) :: ms, rest5)
                                | None => None
                                end
                              else if (c =? 125)%N then Some ([(k, v)], rest4)
                              else None
                          | [] => None
                          end
                      end
                    else None
                | [] => None
                end
            end
          else None
      | [] => None
      end
  end.

Definition JSON_parse (msg : jsstring) (text : jsstring) : result json :=
  match parse_value (2 * List.length text + 2) text with
  | Some (v, rest) =>
      match skip_ws rest with
      | [] => Ok v
      | _ :: _ => Throw (SyntaxError msg)
      end
  | None => Throw (SyntaxError msg)
  end.

(** The value of the property [k] of an object read by [JSON.parse]: of two
    members with one key the later one stays. *)
Fixpoint lookup (k : jsstring) (members : list (jsstring * json)) : option json :=
  match members with
  | [] => None
  | (k', v) :: rest =>
      match lookup k rest with
      | Some v' => Some v'
      | None => if str_eqb k' k then Some v else None
      end
  end.

(** [v.k] for a value [v] that [JSON.parse] returned; [None] is
    [undefined].  Only [null] has no properties to read. *)
Definition get_property (msg : jsstring) (v : json) (k : jsstring) : result (option json) :=
  match v with
  | JNull => Throw (TypeError msg)
  | JObject members => Ok (lookup k members)
  | _ => Ok None
  end.

(** [v !== s] for a string [s]. *)
Definition strict_neq_string (v : option json) (s : jsstring) : bool :=
  match v with
  | Some (JString s') => negb (str_eqb s' s)
  | _ => true
  end.

(** ** The service *)

Module SecurityService.
Section Methods.

(** [s.toLowerCase()].  The service only ever compares two lowered
    strings, so the embedding takes the function as it is. *)
Variable toLowerCase : jsstring -> jsstring.

(** [ethers.toUtf8Bytes] and [ethers.keccak256], library functions: the
    first throws on a string that is not well-formed UTF-16, the second
    returns the digest as a hexadecimal string. *)
Variable toUtf8Bytes : jsstring -> result (list N).
Variable keccak256 : list N -> jsstring.

(** The message the engine puts into the exceptions of its own built-ins
    ([btoa], [atob], [JSON.parse], a property read on [null]). *)
Variable engine_message : jsstring -> jsstring.

Definition lift {A : Type} (r : result A) : M A := fun w => (r, w).

Definition getClientIP : M jsstring := ret (js "192.168.1.100").

Definition getUserAgent : M jsstring :=
  win <- get_window ;;
  ret (match win with
       | Some win => navigator_userAgent win
       | None => js "Unknown"
       end).

Definition saveAuditLogs : M unit :=
  logs <- get_auditLogs ;;
  put_localStorage (fun s => mkStorage (Some logs) (access_permissions s)).

Definition savePermissions : M unit :=
  perms <- get_permissions ;;
  put_localStorage (fun s => mkStorage (security_audit_logs s) (Some perms)).

(** The [console.warn] for a high-risk event writes nothing the service
    reads back and is left out. *)
Definition logSecurityEvent (event : SecurityEvent.t) : M unit :=
  t_id <- Date_now ;;
  r <- Math_random_toString36_substr ;;
  t <- Date_now ;;
  ip <- getClientIP ;;
  ua <- getUserAgent ;;
  let audit :=
    SecurityAudit.mk
      (js "audit_" ++ Number_toString t_id ++ js "_" ++ r)
      t
      (SecurityEvent.action event)
      (SecurityEvent.userAddress event)
      (SecurityEvent.resourceId event)
      ip
      ua
      (SecurityEvent.success event)
      (SecurityEvent.riskLevel event)
      (SecurityEvent.details event) in
  logs <- get_auditLogs ;;
  put_auditLogs (logs ++ [audit]) ;;
  saveAuditLogs.

Definition deriveEncryptionKey (userAddress : jsstring) : M jsstring :=
  bytes <- lift (toUtf8Bytes (userAddress ++ js "healthchain_key")) ;;
  ret (keccak256 bytes).

Definition encryptData (data userAddress : jsstring) : M jsstring :=
  try_catch
    (key <- deriveEncryptionKey userAddress ;;
     t <- Date_now ;;
     encrypted <-
       lift (btoa (engine_message (js "btoa"))
                  (JSON_stringify_payload data (firstn 16 key) t)) ;;
     logSecurityEvent
       (SecurityEvent.mk (js "Data Encrypted") userAddress None true low None) ;;
     ret encrypted)
    (fun error =>
       logSecurityEvent
         (SecurityEvent.mk (js "Encryption Failed") userAddress None false high
                           (Some (message error))) ;;
       throw error).

(** The value returned is [decoded.data], whatever [JSON.parse] made of
    it; [None] is [undefined]. *)
Definition decryptData (encryptedData userAddress : jsstring) : M (option json) :=
  try_catch
    (text <- lift (atob (engine_message (js "atob")) encryptedData) ;;
     decoded <- lift (JSON_parse (engine_message (js "JSON.parse")) text) ;;
     key <- deriveEncryptionKey userAddress ;;
     decoded_key <- lift (get_property (engine_message (js "null")) decoded (js "key")) ;;
     if strict_neq_string decoded_key (firstn 16 key)
     then throw (Error (js "Invalid decryption key"))
     else
       logSecurityEvent
         (SecurityEvent.mk (js "Data Decrypted") userAddress None true low None) ;;
       lift (get_property (engine_message (js "null")) decoded (js "data")))
    (fun error =>
       logSecurityEvent
         (SecurityEvent.mk (js "Decryption Failed") userAddress None false high
                           (Some (message error))) ;;
       throw (Error (js "Failed to decrypt data"))).

(** [expiresInHours] is a whole number of hours, [None] for an argument
    left out.  The sum for [expiresAt] is the exact one; it is the double
    the code computes wherever [exact_in_doubles] holds, see below. *)
Definition grantAccess
    (granterAddress granteeAddress resourceId : jsstring)
    (resourceType : ResourceType)
    (permissions : list Permission)
    (expiresInHours : option Z) : M jsstring :=
  let expiresInHours := match expiresInHours with Some h => h | None => 24 end in
  t_id <- Date_now ;;
  r <- Math_random_toString36_substr ;;
  t_exp <- Date_now ;;
  t_created <- Date_now ;;
  let permission :=
    AccessPermission.mk
      (js "perm_" ++ Number_toString t_id ++ js "_" ++ r)
      granterAddress
      granteeAddress
      resourceId
      resourceType
      permissions
      (t_exp + expiresInHours * 60 * 60 * 1000)
      t_created
      true in
  perms <- get_permissions ;;
  put_permissions (perms ++ [permission]) ;;
  savePermissions ;;
  logSecurityEvent
    (SecurityEvent.mk
       (js "Access Granted")
       granterAddress
       (Some resourceId)
       true
       medium
       (Some (js "Granted " ++ join (js ", ") (map Permission_name permissions)
              ++ js " to " ++ granteeAddress))) ;;
  ret (AccessPermission.id permission).

(** The callback of the [find] in [revokeAccess]. *)
Definition isOwned (granterAddress permissionId : jsstring) (p : AccessPermission.t) : bool :=
  str_eqb (AccessPermission.id p) permissionId
  && str_eqb (AccessPermission.granterAddress p) granterAddress.

Definition revokeAccess (granterAddress permissionId : jsstring) : M unit :=
  perms <- get_permissions ;;
  match find (isOwned granterAddress permissionId) perms with
  | None => throw (Error (js "Permission not found or unauthorized"))
  | Some permission =>
      put_permissions
        (update_first (isOwned granterAddress permissionId)
                      (AccessPermission.set_isActive false) perms) ;;
      savePermissions ;;
      logSecurityEvent
        (SecurityEvent.mk
           (js "Access Revoked")
           granterAddress
           (Some (AccessPermission.resourceId permission))
           true
           medium
           (Some (js "Revoked access from " ++ AccessPermission.granteeAddress permission)))
  end.

(** The callback of the filter in [checkAccess]. *)
Definition isValidPermission
    (userAddress resourceId : jsstring) (requiredPermission : Permission) (now : Z)
    (p : AccessPermission.t) : bool :=
  str_eqb (toLowerCase (AccessPermission.granteeAddress p)) (toLowerCase userAddress)
  && str_eqb (AccessPermission.resourceId p) resourceId
  && AccessPermission.isActive p
  && (now <? AccessPermission.expiresAt p)
  && includes (AccessPermission.permissions p) requiredPermission.

Definition checkAccess
    (userAddress resourceId : jsstring) (requiredPermission : Permission) : M bool :=
  now <- Date_now ;;
  perms <- get_permissions ;;
  let validPermissions :=
    filter (isValidPermission userAddress resourceId requiredPermission now) perms in
  let hasAccess := 0 <? len validPermissions in
  logSecurityEvent
    (SecurityEvent.mk
       (js "Access Check")
       userAddress
       (Some resourceId)
       hasAccess
       (if hasAccess then low else medium)
       (Some (js "Checked " ++ Permission_name requiredPermission ++ js " permission"))) ;;
  ret hasAccess.

(** The callback of the filter in [getSecurityAuditLogs]. *)
Definition isLogOf (userAddress : jsstring) (log : SecurityAudit.t) : bool :=
  str_eqb (toLowerCase (SecurityAudit.userAddress log)) (toLowerCase userAddress).

(** [userAddress] is [None] for an argument left out; [if (userAddress)]
    also fails for the empty string.  [limit] is [None] for an argument
    left out, which takes the default 50. *)
Definition getSecurityAuditLogs
    (userAddress : option jsstring) (limit : option Z) : M (list SecurityAudit.t) :=
  let limit := match limit with Some n => n | None => 50 end in
  all <- get_auditLogs ;;
  let logs := sort_desc all in
  let logs :=
    match userAddress with
    | Some (c :: u) => filter (isLogOf (c :: u)) logs
    | _ => logs
    end in
  ret (slice0 logs limit).

(** The callback of the filter in [getUserPermissions]. *)
Definition isPermissionOf (userAddress : jsstring) (now : Z) (p : AccessPermission.t) : bool :=
  (str_eqb (toLowerCase (AccessPermission.granterAddress p)) (toLowerCase userAddress)
   || str_eqb (toLowerCase (AccessPermission.granteeAddress p)) (toLowerCase userAddress))
  && AccessPermission.isActive p
  && (now <? AccessPermission.expiresAt p).

Definition getUserPermissions (userAddress : jsstring) : M (list AccessPermission.t) :=
  now <- Date_now ;;
  perms <- get_permissions ;;
  ret (filter (isPermissionOf userAddress now) perms).

(** The callback of the last filter in [calculateSecurityScore]; it reads
    the clock for every element. *)
Definition isRecent (log : SecurityAudit.t) : M bool :=
  now <- Date_now ;;
  ret (now - SecurityAudit.timestamp log <? 7 * 24 * 60 * 60 * 1000).

Definition calculateSecurityScore (userAddress : jsstring) : M Z :=
  recentLogs <- getSecurityAuditLogs (Some userAddress) (Some 100) ;;
  permissions <- getUserPermissions userAddress ;;
  let score := 100 in
  let failedEvents := filter (fun log => negb (SecurityAudit.success log)) recentLogs in
  let score := score - len failedEvents * 2 in
  let highRiskEvents :=
    filter (fun log => RiskLevel_eqb (SecurityAudit.riskLevel log) high) recentLogs in
  let score := score - len highRiskEvents * 5 in
  let score :=
    if 10 <? len permissions then score - (len permissions - 10) * 3 else score in
  recentActivity <- filterM isRecent recentLogs ;;
  let score := if 0 <? len recentActivity then score + 5 else score in
  ret (Z.max 0 (Z.min 100 score)).

(** [verifyDataIntegrity] and [generateDataHash]: neither logs. *)
Definition verifyDataIntegrity (data expectedHash : jsstring) : M bool :=
  bytes <- lift (toUtf8Bytes data) ;;
  let computedHash := keccak256 bytes in
  ret (str_eqb computedHash expectedHash).

Definition generateDataHash (data : jsstring) : M jsstring :=
  bytes <- lift (toUtf8Bytes data) ;;
  ret (keccak256 bytes).

(** [loadStoredData]: a key that holds something replaces the collection
    in memory, a key that holds nothing leaves it.  The storage of the
    embedding holds what the service saved there, and [JSON.parse] gives
    that back; on any other text the method of the source throws, or loads
    a value of another type, and neither is in the embedding. *)
Definition loadStoredData : M unit :=
  win <- get_window ;;
  match win with
  | Some win =>
      (match security_audit_logs (localStorage win) with
       | Some storedLogs => put_auditLogs storedLogs
       | None => ret tt
       end) ;;
      match access_permissions (localStorage win) with
      | Some storedPermissions => put_permissions storedPermissions
      | None => ret tt
      end
  | None => ret tt
  end.

End Methods.
End SecurityService.

(** ** The security dashboard

    The helpers of [components/security/security-dashboard.tsx] that turn
    what the service returns into text. *)

Module SecurityDashboard.

(** The calls [loadSecurityData] makes for [authData.address = address],
    with what it hands to [setSecurityScore], [setAuditLogs] and
    [setPermissions].  It returns at once for an address that is missing or
    empty; a run that throws is one that takes its catch branch, which the
    [loadStoredData] of the source can bring about and the one of the
    embedding cannot.  The state of the component is not part of the
    embedding. *)
Definition loadSecurityData (toLowerCase : jsstring -> jsstring) (address : jsstring)
  : M (Z * list SecurityAudit.t * list AccessPermission.t) :=
  SecurityService.loadStoredData ;;
  score <- SecurityService.calculateSecurityScore toLowerCase address ;;
  logs <- SecurityService.getSecurityAuditLogs toLowerCase (Some address) (Some 20) ;;
  userPermissions <- SecurityService.getUserPermissions toLowerCase address ;;
  ret (score, logs, userPermissions).

(** [getTimeAgo]; [Math.floor] of a quotient of integers is [Z.div]. *)
Definition getTimeAgo (timestamp : Z) : M jsstring :=
  t <- Date_now ;;
  let diff := t - timestamp in
  let days := diff / (1000 * 60 * 60 * 24) in
  let hours := diff / (1000 * 60 * 60) in
  let minutes := diff / (1000 * 60) in
  ret (if 0 <? days
       then Number_toString days ++ js " day" ++ (if 1 <? days then js "s" else js "")
            ++ js " ago"
       else if 0 <? hours
       then Number_toString hours ++ js " hour" ++ (if 1 <? hours then js "s" else js "")
            ++ js " ago"
       else if 0 <? minutes
       then Number_toString minutes ++ js " minute"
            ++ (if 1 <? minutes then js "s" else js "") ++ js " ago"
       else js "Just now").

Definition getRiskBadgeVariant (riskLevel : RiskLevel) : jsstring :=
  match riskLevel with
  | high => js "destructive"
  | medium => js "default"
  | low => js "secondary"
  end.

Definition getSecurityScoreColor (score : Z) : jsstring :=
  if 90 <=? score then js "text-green-600"
  else if 70 <=? score then js "text-yellow-600"
  else js "text-red-600".

Definition getSecurityScoreDescription (score : Z) : jsstring :=
  if 90 <=? score then js "Excellent security posture"
  else if 70 <=? score then js "Good security with room for improvement"
  else if 50 <=? score then js "Moderate security - action recommended"
  else js "Poor security - immediate action required".

(** The label beside the score,
    [securityScore >= 90 ? "Secure" : securityScore >= 70 ? "Moderate" : "At Risk"]. *)
Definition statusLabel (securityScore : Z) : jsstring :=
  if 90 <=? securityScore then js "Secure"
  else if 70 <=? securityScore then js "Moderate"
  else js "At Risk".

(** The condition of the alert, [securityScore < 70]. *)
Definition showsAlert (securityScore : Z) : bool := securityScore <? 70.

End SecurityDashboard.

(** ** Observations on a world *)

(** The value the [k]-th next call of [Date.now()] returns, counted from 0. *)
Definition later (k : nat) (w : World) : Z := clock w (k + ticks w).

Definition now (w : World) : Z := later 0 w.

(** [h] hours in milliseconds. *)
Definition hours (h : Z) : Z := h * 60 * 60 * 1000.

(** The entry [logSecurityEvent(event)] builds in the world [w]. *)
Definition audit_entry (event : SecurityEvent.t) (w : World) : SecurityAudit.t :=
  SecurityAudit.mk
    (js "audit_" ++ Number_toString (now w) ++ js "_" ++ random w (draws w))
    (later 1 w)
    (SecurityEvent.action event)
    (SecurityEvent.userAddress event)
    (SecurityEvent.resourceId event)
    (js "192.168.1.100")
    (match window w with
     | Some win => navigator_userAgent win
     | None => js "Unknown"
     end)
    (SecurityEvent.success event)
    (SecurityEvent.riskLevel event)
    (SecurityEvent.details event).

(** The world [logSecurityEvent(event)] leaves. *)
Definition logged (event : SecurityEvent.t) (w : World) : World :=
  let logs := auditLogs w ++ [audit_entry event w] in
  mkWorld logs (permissions w)
          (match window w with
           | Some win =>
               Some (mkWindow (navigator_userAgent win)
                              (mkStorage (Some logs) (access_permissions (localStorage win))))
           | None => None
           end)
          (clock w) (S (S (ticks w))) (random w) (S (draws w)).

(** The world after [this.permissions] became [perms] and was saved, [k]
    readings of the clock and [d] draws later. *)
Definition stored (perms : list AccessPermission.t) (k d : nat) (w : World) : World :=
  mkWorld (auditLogs w) perms
          (match window w with
           | Some win =>
               Some (mkWindow (navigator_userAgent win)
                              (mkStorage (security_audit_logs (localStorage win)) (Some perms)))
           | None => None
           end)
          (clock w) (k + ticks w) (random w) (d + draws w).

(** The world [k] readings of the clock later. *)
Definition elapsed (k : nat) (w : World) : World :=
  mkWorld (auditLogs w) (permissions w) (window w)
          (clock w) (k + ticks w) (random w) (draws w).

(** The permission [grantAccess] builds in the world [w]. *)
Definition new_permission
    (granterAddress granteeAddress resourceId : jsstring) (resourceType : ResourceType)
    (permissions : list Permission) (expiresInHours : Z) (w : World) : AccessPermission.t :=
  AccessPermission.mk
    (js "perm_" ++ Number_toString (now w) ++ js "_" ++ random w (draws w))
    granterAddress granteeAddress resourceId resourceType permissions
    (later 1 w + hours expiresInHours)
    (later 2 w)
    true.

(** The events the access-control methods log. *)
Definition granted_event (g b r : jsstring) (ps : list Permission) : SecurityEvent.t :=
  SecurityEvent.mk
    (js "Access Granted") g (Some r) true medium
    (Some (js "Granted " ++ join (js ", ") (map Permission_name ps) ++ js " to " ++ b)).

Definition checked_event (u r : jsstring) (p : Permission) (ok : bool) : SecurityEvent.t :=
  SecurityEvent.mk
    (js "Access Check") u (Some r) ok (if ok then low else medium)
    (Some (js "Checked " ++ Permission_name p ++ js " permission")).

Definition revoked_event (g : jsstring) (q : AccessPermission.t) : SecurityEvent.t :=
  SecurityEvent.mk
    (js "Access Revoked") g (Some (AccessPermission.resourceId q)) true medium
    (Some (js "Revoked access from " ++ AccessPermission.granteeAddress q)).

(** The id [grantAccess] gives the permission it creates in the world [w]. *)
Definition next_permission_id (w : World) : jsstring :=
  js "perm_" ++ Number_toString (now w) ++ js "_" ++ random w (draws w).

(** The value a run returned, [d] if it threw. *)
Definition value {A : Type} (d : A) (run : result A * World) : A :=
  match fst run with
  | Ok a => a
  | Throw _ => d
  end.

(** ** The specification's vocabulary *)

Module Spec.
Section Words.

Variable toLowerCase : jsstring -> jsstring.

(** Principals are compared without regard to case. *)
Definition same_principal (a b : jsstring) : bool :=
  str_eqb (toLowerCase a) (toLowerCase b).

(** A permission is effective iff [active && expiresAt > now]. *)
Definition effective (t : Z) (p : AccessPermission.t) : bool :=
  AccessPermission.isActive p && (t <? AccessPermission.expiresAt p).

(** The permission [q] grants [p] on the resource [r] to the principal [b]. *)
Definition grants (b r : jsstring) (p : Permission) (q : AccessPermission.t) : Prop :=
  same_principal (AccessPermission.granteeAddress q) b = true
  /\ AccessPermission.resourceId q = r
  /\ In p (AccessPermission.permissions q).


(** The events of a principal. *)
Definition events_of (u : jsstring) (logs : list SecurityAudit.t) : list SecurityAudit.t :=
  filter (fun e => same_principal (SecurityAudit.userAddress e) u) logs.

(** The up-to-[n] most recent events. *)
Definition most_recent (n : nat) (events : list SecurityAudit.t) : list SecurityAudit.t :=
  firstn n (sort_desc events).

(** The currently effective permissions in which [u] is granter or grantee. *)
Definition effective_permissions_of
    (u : jsstring) (t : Z) (perms : list AccessPermission.t) : list AccessPermission.t :=
  filter
    (fun p =>
       (same_principal (AccessPermission.granterAddress p) u
        || same_principal (AccessPermission.granteeAddress p) u)
       && effective t p)
    perms.

Fixpoint count {A : Type} (f : A -> bool) (l : list A) : Z :=
  match l with
  | [] => 0
  | x :: l' => (if f x then 1 else 0) + count f l'
  end.

Definition failed (e : SecurityAudit.t) : bool := negb (SecurityAudit.success e).

Definition high_risk (e : SecurityAudit.t) : bool :=
  match SecurityAudit.riskLevel e with
  | high => true
  | _ => false
  end.

Definition week : Z := 7 * 24 * 60 * 60 * 1000.

(** Some event is less than seven days old when it is looked at: the
    events are looked at in order, the [i]-th at the time [times i]. *)
Fixpoint any_recent (times : nat -> Z) (i : nat) (events : list SecurityAudit.t) : bool :=
  match events with
  | [] => false
  | e :: events' =>
      (times i - SecurityAudit.timestamp e <? week) || any_recent times (S i) events'
  end.

Definition clamp (lo hi x : Z) : Z := Z.max lo (Z.min hi x).

(** The score as the specification computes it from the events fetched,
    the number of effective permissions and the recency of the events. *)
Definition score_of (fetched : list SecurityAudit.t) (n : Z) (recent : bool) : Z :=
  clamp 0 100
    (100 - 2 * count failed fetched - 5 * count high_risk fetched
     - (if 10 <? n then 3 * (n - 10) else 0)
     + (if recent then 5 else 0)).

(** The score of the principal [u] in the world [w]: the permissions are
    counted at the first reading of the clock, the events are looked at
    from the second on. *)
Definition score (u : jsstring) (w : World) : Z :=
  let fetched := most_recent 100 (events_of u (auditLogs w)) in
  score_of fetched
           (len (effective_permissions_of u (now w) (permissions w)))
           (any_recent (fun i => later i w) 1 fetched).

(** The answer of [query(principal, limit)] for a limit that is not
    negative. *)
Definition query (u : option jsstring) (limit : nat) (logs : list SecurityAudit.t)
  : list SecurityAudit.t :=
  most_recent limit
    (match u with
     | Some u => events_of u logs
     | None => logs
     end).

End Words.
End Spec.

(** Sorted by time stamp, descending: no entry is older than one after it. *)
Definition newest_first (l : list SecurityAudit.t) : Prop :=
  StronglySorted
    (fun a b => SecurityAudit.timestamp b <= SecurityAudit.timestamp a) l.

(** The errors of the specification, as the service throws them. *)
Definition NotFoundOrUnauthorized : exn := Error (js "Permission not found or unauthorized").

Definition DecryptionFailed : exn := Error (js "Failed to decrypt data").

(** ** Worlds for the examples *)

Module Examples.

(** Lower case for the letters A to Z: what [toLowerCase] does on the
    addresses of the examples. *)
Definition toLowerCase (s : jsstring) : jsstring :=
  map (fun c => if ((65 <=? c) && (c <=? 90))%N then (c + 32)%N else c) s.

(** What the generator returns at its [n]-th draw in the examples: nine
    characters of base 36, [r] and the number of the draw. *)
Definition draw (n : nat) : jsstring :=
  let d := Number_toString (Z.of_nat n) in
  js "r" ++ repeat 48%N (8 - List.length d) ++ d.

(** A service just constructed, outside a browser; the clock stands at
    [t]. *)
Definition fresh_world (t : Z) : World :=
  mkWorld [] [] None (fun _ => t) 0 draw 0.

(** The same with a clock that reads [t] for the first [k] readings and
    [t'] from then on. *)
Definition jumping_world (t : Z) (k : nat) (t' : Z) : World :=
  mkWorld [] [] None (fun n => if (n <? k)%nat then t else t') 0 draw 0.

(** The world [w] once the run [c] is over. *)
Definition after {A : Type} (c : M A) (w : World) : World := snd (c w).

Definition entry (user : string) (t : Z) (ok : bool) (risk : RiskLevel) : SecurityAudit.t :=
  SecurityAudit.mk (js "audit") t (js "Access Check") (js user) None
                   (js "192.168.1.100") (js "Unknown") ok risk None.

(** Three failed events, one failed high-risk event and two clean ones of
    the principal X, all of them old; no permissions. *)
Definition history_of_X : World :=
  mkWorld
    [entry "X" 10 false low; entry "X" 20 true low; entry "X" 30 false medium;
     entry "X" 40 false high; entry "X" 50 true medium; entry "X" 60 false low]
    [] None (fun _ => 1000000000) 0 draw 0.

(** One old failed event of the principal 0xabc. *)
Definition one_failure : World :=
  mkWorld [entry "0xabc" 10 false low]
          [] None (fun _ => 1000000000) 0 draw 0.

(** Two events of one principal. *)
Definition two_events : World :=
  mkWorld [entry "0xabc" 10 true low; entry "0xabc" 20 true low]
          [] None (fun _ => 1000000000) 0 draw 0.

(** Stand-ins for the two library functions in the examples.  The UTF-8
    bytes of a string of ASCII are its code units.  [digest] is not
    keccak256, only some function from bytes to a hexadecimal string. *)
Definition toUtf8Bytes (s : jsstring) : result (list N) := Ok s.

Definition digest (bytes : list N) : jsstring :=
  js "0x" ++ flat_map (fun b => [hex_digit (b / 16); hex_digit (b mod 16)]%N) bytes.

Definition engine_message (_ : jsstring) : jsstring := js "invalid".

End Examples.

(** A run from [w] that returns a value and leaves the audit log, the
    permissions and the window with its storage as they were. *)
Definition pure_read {A : Type} (w : World) (run : result A * World) : Prop :=
  (exists a, fst run = Ok a)
  /\ auditLogs (snd run) = auditLogs w
  /\ permissions (snd run) = permissions w
  /\ window (snd run) = window w.

(** A world with a history: A granted C two permissions on rec2 for an
    hour; the clock read 0 then and reads 3600001, an hour and a
    millisecond, from its tenth reading on. *)
Definition busy_world : World :=
  Examples.after
    (SecurityService.grantAccess (js "A") (js "C") (js "rec2") record [read; write] (Some 1))
    (Examples.jumping_world 0 10 3600001).

(** The events the encryption methods log. *)
Definition encrypted_event (u : jsstring) : SecurityEvent.t :=
  SecurityEvent.mk (js "Data Encrypted") u None true low None.

Definition encryption_failed_event (u : jsstring) (e : exn) : SecurityEvent.t :=
  SecurityEvent.mk (js "Encryption Failed") u None false high (Some (message e)).

Definition decrypted_event (u : jsstring) : SecurityEvent.t :=
  SecurityEvent.mk (js "Data Decrypted") u None true low None.

Definition decryption_failed_event (u : jsstring) (e : exn) : SecurityEvent.t :=
  SecurityEvent.mk (js "Decryption Failed") u None false high (Some (message e)).

(** The euro sign, U+20AC, a string of one code unit. *)
Definition euro : jsstring := [8364%N].

(** ** Vocabulary for the encryption placeholder *)

(** Every code unit is at most U+00FF. *)
Definition latin1 (s : jsstring) : Prop := Forall (fun c => (c <= 255)%N) s.

(** The six-bit groups of a byte string, without the padding. *)
Fixpoint sextets (bytes : list N) : list N :=
  match bytes with
  | [] => []
  | [a] => [a / 4; (a mod 4) * 16]%N
  | [a; b] => [a / 4; (a mod 4) * 16 + b / 16; (b mod 16) * 4]%N
  | a :: b :: c :: rest =>
      ([a / 4; (a mod 4) * 16 + b / 16; (b mod 16) * 4 + c / 64; c mod 64]%N)
      ++ sextets rest
  end.

(** The padding of the Base64 text of a byte string. *)
Fixpoint padding (bytes : list N) : jsstring :=
  match bytes with
  | [] => []
  | [_] => [61; 61]%N
  | [_; _] => [61%N]
  | _ :: _ :: _ :: rest => padding rest
  end.

(** A lexeme ends where the text ends or goes on with something that is
    neither a digit nor a point nor an exponent mark. *)
Definition ends_number (rest : jsstring) : Prop :=
  match rest with
  | [] => True
  | c :: _ => is_digit c = false /\ c <> 46%N /\ c <> 101%N /\ c <> 69%N
  end.

(** The digits of a decimal numeral. *)
Definition digits_of (d : Decimal.uint) : jsstring := js (NilEmpty.string_of_uint d).

(** The object [JSON.stringify] wrote the payload from. *)
Definition payload (data key : jsstring) (t : Z) : json :=
  JObject [(js "data", JString data); (js "key", JString key);
           (js "timestamp", JNumber (Number_toString t))].

(** ** Calls of the service, one after another *)

(** A call of a public method with its arguments. *)
Inductive call : Type :=
| EncryptData (data userAddress : jsstring)
| DecryptData (encryptedData userAddress : jsstring)
| GrantAccess (granterAddress granteeAddress resourceId : jsstring)
              (resourceType : ResourceType) (permissions : list Permission)
              (expiresInHours : option Z)
| RevokeAccess (granterAddress permissionId : jsstring)
| CheckAccess (userAddress resourceId : jsstring) (requiredPermission : Permission)
| GetSecurityAuditLogs (userAddress : option jsstring) (limit : option Z)
| GetUserPermissions (userAddress : jsstring)
| VerifyDataIntegrity (data expectedHash : jsstring)
| GenerateDataHash (data : jsstring)
| CalculateSecurityScore (userAddress : jsstring)
| LoadStoredData.

Module Calls.
Section Platform.

Variable toLowerCase : jsstring -> jsstring.
Variable toUtf8Bytes : jsstring -> result (list N).
Variable keccak256 : list N -> jsstring.
Variable engine_message : jsstring -> jsstring.

(** The world a call leaves, whether it returned or threw. *)
Definition perform (c : call) (w : World) : World :=
  match c with
  | EncryptData data u =>
      snd (SecurityService.encryptData toUtf8Bytes keccak256 engine_message data u w)
  | DecryptData encrypted u =>
      snd (SecurityService.decryptData toUtf8Bytes keccak256 engine_message encrypted u w)
  | GrantAccess g b r rt ps ttl => snd (SecurityService.grantAccess g b r rt ps ttl w)
  | RevokeAccess g pid => snd (SecurityService.revokeAccess g pid w)
  | CheckAccess u r p => snd (SecurityService.checkAccess toLowerCase u r p w)
  | GetSecurityAuditLogs u limit =>
      snd (SecurityService.getSecurityAuditLogs toLowerCase u limit w)
  | GetUserPermissions u => snd (SecurityService.getUserPermissions toLowerCase u w)
  | VerifyDataIntegrity data h =>
      snd (SecurityService.verifyDataIntegrity toUtf8Bytes keccak256 data h w)
  | GenerateDataHash data =>
      snd (SecurityService.generateDataHash toUtf8Bytes keccak256 data w)
  | CalculateSecurityScore u =>
      snd (SecurityService.calculateSecurityScore toLowerCase u w)
  | LoadStoredData => snd (SecurityService.loadStoredData w)
  end.

Definition perform_all (calls : list call) (w : World) : World :=
  fold_left (fun w c => perform c w) calls w.

End Platform.
End Calls.

(** Each key of the storage holds nothing or the collection in memory. *)
Definition in_sync (w : World) : Prop :=
  match window w with
  | None => True
  | Some win =>
      (security_audit_logs (localStorage win) = None
       \/ security_audit_logs (localStorage win) = Some (auditLogs w))
      /\ (access_permissions (localStorage win) = None
          \/ access_permissions (localStorage win) = Some (permissions w))
  end.

(** A permission later on: itself, or itself revoked. *)
Definition aged (p p' : AccessPermission.t) : Prop :=
  p' = p \/ p' = AccessPermission.set_isActive false p.

(** The permissions later on: the old ones in their places, each aged, and
    new ones after them. *)
Definition grown (old new : list AccessPermission.t) : Prop :=
  exists kept added, new = kept ++ added /\ Forall2 aged old kept.

(** The log later on: the old entries and at most [n] more after them. *)
Definition extended (n : nat) (old new : list SecurityAudit.t) : Prop :=
  exists added, new = old ++ added /\ (List.length added <= n)%nat.

(** A browser whose storage holds two audit entries of an earlier session,
    and a service just constructed in it. *)
Definition returning_visitor : World :=
  mkWorld [] []
          (Some (mkWindow (js "Mozilla/5.0")
                          (mkStorage (Some [Examples.entry "0xabc" 10 false high;
                                            Examples.entry "0xabc" 20 true low])
                                     None)))
          (fun _ => 1000000000) 0 Examples.draw 0.

(** The service as its constructor leaves it ([auditLogs = []] and
    [permissions = []]), in the environment of [w]: a new page in the same
    browser. *)
Definition constructed (w : World) : World :=
  mkWorld [] [] (window w) (clock w) (ticks w) (random w) (draws w).

(** What a call may do to the world: nothing, read the clock, log an event,
    append a new permission and log, or revoke a permission and log. *)
Inductive left_as (w : World) : World -> Prop :=
| left_alone : left_as w w
| left_later (k : nat) : left_as w (elapsed k w)
| left_logged (event : SecurityEvent.t) (k : nat) : left_as w (logged event (elapsed k w))
| left_granted (event : SecurityEvent.t) (g b r : jsstring) (rt : ResourceType)
               (ps : list Permission) (h : Z) :
    left_as w (logged event
                      (stored (permissions w ++ [new_permission g b r rt ps h w]) 3 1 w))
| left_revoked (event : SecurityEvent.t) (f : AccessPermission.t -> bool) :
    left_as w (logged event
                      (stored (update_first f (AccessPermission.set_isActive false)
                                            (permissions w)) 0 0 w)).

(** Every id is one that [grantAccess] made from a draw made so far, and no
    two are the same. *)
Definition numbered (w : World) : Prop :=
  NoDup (map AccessPermission.id (permissions w))
  /\ forall q, In q (permissions w) ->
               exists t k, (k < draws w)%nat
                           /\ AccessPermission.id q
                              = js "perm_" ++ Number_toString t ++ js "_" ++ random w k.

(** ** The numbers of the embedding

    The embedding takes the numbers of the service for integers and adds
    and multiplies them exactly.  The code computes in doubles, which gives
    the same wherever the operands and the results are integers a double
    holds exactly. *)
Definition safe_integer (z : Z) : Prop := - 2 ^ 53 <= z <= 2 ^ 53.

(** [t + h * 60 * 60 * 1000], for a reading [t] of the clock and a whole
    number [h] of hours, comes out in doubles as it does in the integers:
    the reading, the product and the sum are safe integers, and with the
    product so are [h], [h * 60] and [h * 60 * 60]. *)
Definition exact_in_doubles (t h : Z) : Prop :=
  safe_integer t /\ safe_integer (hours h) /\ safe_integer (t + hours h).

(** A hundred events of 0xabc, all of them recent when the clock reads
    1000: the oldest failed and of high risk, three failed ones next, the
    others clean. *)
Definition hundred_events : World :=
  mkWorld
    (Examples.entry "0xabc" 1 false high :: Examples.entry "0xabc" 2 false low
     :: Examples.entry "0xabc" 3 false low :: Examples.entry "0xabc" 4 false low
     :: map (fun t => Examples.entry "0xabc" (Z.of_nat t) true low) (seq 5 96))
    [] None (fun _ => 1000) 0 Examples.draw 0.

(** ** The logging methods over a store that may refuse

    [localStorage.setItem] throws where the store is full or switched off,
    and neither [saveAuditLogs] nor [logSecurityEvent] catches that.  The
    service above takes the store to accept every write.  Here the methods
    that log and change no permission are translated once more, over a
    store that may refuse: [refuses w] is the exception that [setItem]
    throws when it is called in the world [w], [None] where it accepts. *)
Module Refusing.
Section Methods.

Variable toLowerCase : jsstring -> jsstring.
Variable toUtf8Bytes : jsstring -> result (list N).
Variable keccak256 : list N -> jsstring.
Variable engine_message : jsstring -> jsstring.
Variable refuses : World -> option exn.

Definition localStorage_setItem (f : Storage -> Storage) : M unit :=
  fun w =>
    match refuses w with
    | Some e => (Throw e, w)
    | None => put_localStorage f w
    end.

Definition saveAuditLogs : M unit :=
  win <- get_window ;;
  match win with
  | Some _ =>
      logs <- get_auditLogs ;;
      localStorage_setItem (fun s => mkStorage (Some logs) (access_permissions s))
  | None => ret tt
  end.

Definition logSecurityEvent (event : SecurityEvent.t) : M unit :=
  t_id <- Date_now ;;
  r <- Math_random_toString36_substr ;;
  t <- Date_now ;;
  ip <- SecurityService.getClientIP ;;
  ua <- SecurityService.getUserAgent ;;
  let audit :=
    SecurityAudit.mk
      (js "audit_" ++ Number_toString t_id ++ js "_" ++ r)
      t
      (SecurityEvent.action event)
      (SecurityEvent.userAddress event)
      (SecurityEvent.resourceId event)
      ip
      ua
      (SecurityEvent.success event)
      (SecurityEvent.riskLevel event)
      (SecurityEvent.details event) in
  logs <- get_auditLogs ;;
  put_auditLogs (logs ++ [audit]) ;;
  saveAuditLogs.

Definition encryptData (data userAddress : jsstring) : M jsstring :=
  try_catch
    (key <- SecurityService.deriveEncryptionKey toUtf8Bytes keccak256 userAddress ;;
     t <- Date_now ;;
     encrypted <-
       SecurityService.lift
         (btoa (engine_message (js "btoa"))
               (JSON_stringify_payload data (firstn 16 key) t)) ;;
     logSecurityEvent
       (SecurityEvent.mk (js "Data Encrypted") userAddress None true low None) ;;
     ret encrypted)
    (fun error =>
       logSecurityEvent
         (SecurityEvent.mk (js "Encryption Failed") userAddress None false high
                           (Some (message error))) ;;
       throw error).

Definition decryptData (encryptedData userAddress : jsstring) : M (option json) :=
  try_catch
    (text <- SecurityService.lift (atob (engine_message (js "atob")) encryptedData) ;;
     decoded <- SecurityService.lift (JSON_parse (engine_message (js "JSON.parse")) text) ;;
     key <- SecurityService.deriveEncryptionKey toUtf8Bytes keccak256 userAddress ;;
     decoded_key <-
       SecurityService.lift (get_property (engine_message (js "null")) decoded (js "key")) ;;
     if strict_neq_string decoded_key (firstn 16 key)
     then throw (Error (js "Invalid decryption key"))
     else
       logSecurityEvent
         (SecurityEvent.mk (js "Data Decrypted") userAddress None true low None) ;;
       SecurityService.lift
         (get_property (engine_message (js "null")) decoded (js "data")))
    (fun error =>
       logSecurityEvent
         (SecurityEvent.mk (js "Decryption Failed") userAddress None false high
                           (Some (message error))) ;;
       throw (Error (js "Failed to decrypt data"))).

Definition checkAccess
    (userAddress resourceId : jsstring) (requiredPermission : Permission) : M bool :=
  now <- Date_now ;;
  perms <- get_permissions ;;
  let validPermissions :=
    filter (SecurityService.isValidPermission
              toLowerCase userAddress resourceId requiredPermission now) perms in
  let hasAccess := 0 <? len validPermissions in
  logSecurityEvent
    (SecurityEvent.mk
       (js "Access Check")
       userAddress
       (Some resourceId)
       hasAccess
       (if hasAccess then low else medium)
       (Some (js "Checked " ++ Permission_name requiredPermission ++ js " permission"))) ;;
  ret hasAccess.

End Methods.
End Refusing.



(** ** The text of the two collections

    [saveAuditLogs] and [savePermissions] write [JSON.stringify] of the
    arrays, [loadStoredData] reads them with [JSON.parse].  The store of
    the embedding keeps the arrays themselves; what follows is the text
    they stand for. *)

(** [JSON.stringify(v)] for a value [v] that [JSON.parse] can return. *)
Fixpoint JSON_stringify (v : json) : jsstring :=
  match v with
  | JNull => js "null"
  | JBool b => if b then js "true" else js "false"
  | JNumber lexeme => lexeme
  | JString s => QuoteJSONString s
  | JArray elements => js "[" ++ join (js ",") (map JSON_stringify elements) ++ js "]"
  | JObject members =>
      js "{"
      ++ join (js ",")
              (map (fun member : jsstring * json =>
                      let (k, x) := member in
                      QuoteJSONString k ++ js ":" ++ JSON_stringify x)
                   members)
      ++ js "}"
  end.

(** The numbers of a value are integers, written as [String] writes them. *)
Fixpoint whole (v : json) : Prop :=
  match v with
  | JNumber lexeme => exists z, lexeme = Number_toString z
  | JArray elements =>
      (fix all (l : list json) : Prop :=
         match l with
         | [] => True
         | x :: l' => whole x /\ all l'
         end) elements
  | JObject members =>
      (fix all (l : list (jsstring * json)) : Prop :=
         match l with
         | [] => True
         | (_, x) :: l' => whole x /\ all l'
         end) members
  | _ => True
  end.

(** The depth of recursion [JSON.parse] needs for a value. *)
Fixpoint weight (v : json) : nat :=
  match v with
  | JArray elements =>
      S ((fix sum (l : list json) : nat :=
            match l with
            | [] => O
            | x :: l' => S (weight x + sum l')
            end) elements)
  | JObject members =>
      S ((fix sum (l : list (jsstring * json)) : nat :=
            match l with
            | [] => O
            | (_, x) :: l' => S (weight x + sum l')
            end) members)
  | _ => 1%nat
  end.

Definition weights (l : list json) : nat :=
  fold_right (fun x n => S (weight x + n)) O l.

Definition member_weights (l : list (jsstring * json)) : nat :=
  fold_right (fun m n => S (weight (snd m) + n)) O l.

(** The property of a value that the proof goes through: it is read back
    from its text with enough fuel, whatever follows. *)
Definition read_back (v : json) : Prop :=
  whole v ->
  forall (fuel : nat) (rest : jsstring),
    (weight v <= fuel)%nat -> ends_number rest ->
    parse_value fuel (JSON_stringify v ++ rest) = Some (v, rest).

(** An entry of the audit log as the object the service builds,
    [{ id, timestamp, ipAddress, userAgent, ...event }], with the
    properties of the event in the order every caller writes them; a
    property that is [undefined] is not there.  A permission likewise. *)
Definition RiskLevel_name (r : RiskLevel) : jsstring :=
  match r with
  | low => js "low"
  | medium => js "medium"
  | high => js "high"
  end.

Definition ResourceType_name (t : ResourceType) : jsstring :=
  match t with
  | record => js "record"
  | profile => js "profile"
  | full_access => js "full_access"
  end.

Definition optional (k : string) (v : option jsstring) : list (jsstring * json) :=
  match v with
  | Some s => [(js k, JString s)]
  | None => []
  end.

Definition JSON_of_audit (a : SecurityAudit.t) : json :=
  JObject
    ([(js "id", JString (SecurityAudit.id a));
      (js "timestamp", JNumber (Number_toString (SecurityAudit.timestamp a)));
      (js "ipAddress", JString (SecurityAudit.ipAddress a));
      (js "userAgent", JString (SecurityAudit.userAgent a));
      (js "action", JString (SecurityAudit.action a));
      (js "userAddress", JString (SecurityAudit.userAddress a))]
     ++ optional "resourceId" (SecurityAudit.resourceId a)
     ++ [(js "success", JBool (SecurityAudit.success a));
         (js "riskLevel", JString (RiskLevel_name (SecurityAudit.riskLevel a)))]
     ++ optional "details" (SecurityAudit.details a)).

Definition JSON_of_permission (p : AccessPermission.t) : json :=
  JObject
    [(js "id", JString (AccessPermission.id p));
     (js "granterAddress", JString (AccessPermission.granterAddress p));
     (js "granteeAddress", JString (AccessPermission.granteeAddress p));
     (js "resourceId", JString (AccessPermission.resourceId p));
     (js "resourceType", JString (ResourceType_name (AccessPermission.resourceType p)));
     (js "permissions",
      JArray (map (fun x => JString (Permission_name x)) (AccessPermission.permissions p)));
     (js "expiresAt", JNumber (Number_toString (AccessPermission.expiresAt p)));
     (js "createdAt", JNumber (Number_toString (AccessPermission.createdAt p)));
     (js "isActive", JBool (AccessPermission.isActive p))].

(** A store that is full: it refuses every write. *)
Definition full_store (_ : World) : option exn :=
  Some (mkExn (js "QuotaExceededError") (js "The quota has been exceeded.")).

(** * Properties *)

(** ** Strings and lists *)

Lemma str_eqb_refl (a : jsstring) : str_eqb a a = true.
Proof.
  induction a as [|x a IH]; simpl; [reflexivity|].
  now rewrite N.eqb_refl, IH.
Qed.

Lemma str_eqb_eq (a b : jsstring) : str_eqb a b = true <-> a = b.
Proof.
  split.
  - revert b; induction a as [|x a IH]; intros [|y b] H; simpl in H;
      try discriminate; [reflexivity|].
    apply andb_true_iff in H as [Hx Hab].
    apply N.eqb_eq in Hx. subst. f_equal. now apply IH.
  - intros ->. apply str_eqb_refl.
Qed.

Lemma str_eqb_neq (a b : jsstring) : a <> b -> str_eqb a b = false.
Proof.
  intros H. destruct (str_eqb a b) eqn:E; [|reflexivity].
  apply str_eqb_eq in E. contradiction.
Qed.

Lemma includes_In (ps : list Permission) (p : Permission) :
  includes ps p = true <-> In p ps.
Proof.
  unfold includes. rewrite existsb_exists. split.
  - intros [x [Hin Hx]]. destruct p, x; simpl in Hx; try discriminate; exact Hin.
  - intros Hin. exists p. split; [exact Hin|]. now destruct p.
Qed.

Lemma nonempty_filter_existsb {A : Type} (f : A -> bool) (l : list A) :
  (0 <? len (filter f l)) = existsb f l.
Proof.
  unfold len. induction l as [|x l IH]; simpl; [reflexivity|].
  destruct (f x); simpl; [|exact IH].
  apply Z.ltb_lt. lia.
Qed.

Lemma len_filter_count {A : Type} (f : A -> bool) (l : list A) :
  len (filter f l) = Spec.count f l.
Proof.
  unfold len. induction l as [|x l IH]; simpl; [reflexivity|].
  destruct (f x); simpl List.length; lia.
Qed.

(** ** What each method does to the world *)

Lemma bind_run {A B : Type} (c : M A) (k : A -> M B) (w w' : World) (a : A) :
  c w = (Ok a, w') -> bind c k w = k a w'.
Proof. unfold bind. now intros ->. Qed.

Lemma bind_throw {A B : Type} (c : M A) (k : A -> M B) (w w' : World) (e : exn) :
  c w = (Throw e, w') -> bind c k w = (Throw e, w').
Proof. unfold bind. now intros ->. Qed.

Lemma logSecurityEvent_run (event : SecurityEvent.t) (w : World) :
  SecurityService.logSecurityEvent event w = (Ok tt, logged event w).
Proof. reflexivity. Qed.

Lemma grantAccess_run g b r rt ps (ttl : option Z) (w : World) :
  let perm := new_permission g b r rt ps (match ttl with Some h => h | None => 24 end) w in
  SecurityService.grantAccess g b r rt ps ttl w =
  (Ok (AccessPermission.id perm),
   logged (granted_event g b r ps) (stored (permissions w ++ [perm]) 3 1 w)).
Proof. reflexivity. Qed.

Lemma checkAccess_run toLowerCase u r p (w : World) :
  let ok := existsb (SecurityService.isValidPermission toLowerCase u r p (now w))
                    (permissions w) in
  SecurityService.checkAccess toLowerCase u r p w =
  (Ok ok, logged (checked_event u r p ok) (elapsed 1 w)).
Proof.
  intros ok. unfold SecurityService.checkAccess, bind, Date_now, get_permissions.
  cbv beta iota. rewrite nonempty_filter_existsb. reflexivity.
Qed.

Lemma revokeAccess_found g pid (w : World) (q : AccessPermission.t) :
  find (SecurityService.isOwned g pid) (permissions w) = Some q ->
  SecurityService.revokeAccess g pid w =
  (Ok tt,
   logged (revoked_event g q)
          (stored (update_first (SecurityService.isOwned g pid) (AccessPermission.set_isActive false)
                                (permissions w)) 0 0 w)).
Proof.
  intros H. unfold SecurityService.revokeAccess, bind, get_permissions.
  rewrite H. reflexivity.
Qed.

Lemma revokeAccess_missing g pid (w : World) :
  find (SecurityService.isOwned g pid) (permissions w) = None ->
  SecurityService.revokeAccess g pid w = (Throw NotFoundOrUnauthorized, w).
Proof.
  intros H. unfold SecurityService.revokeAccess, bind, get_permissions.
  rewrite H. reflexivity.
Qed.





Lemma existsb_false_forall {A : Type} (f : A -> bool) (l : list A) :
  existsb f l = false <-> (forall x, In x l -> f x = false).
Proof.
  induction l as [|y l IH]; simpl.
  - split; [intros _ x []|reflexivity].
  - rewrite orb_false_iff, IH. split.
    + intros [Hy Hl] x [<-|Hx]; auto.
    + intros H. split; [apply H; now left|]. intros x Hx. apply H. now right.
Qed.

(** ** The sort *)

Lemma insert_desc_newest (x : SecurityAudit.t) (l : list SecurityAudit.t) :
  (forall y, In y l -> SecurityAudit.timestamp y <= SecurityAudit.timestamp x) ->
  insert_desc x l = x :: l.
Proof.
  destruct l as [|y l]; simpl; [reflexivity|].
  intros H. assert (Hy : SecurityAudit.timestamp y <= SecurityAudit.timestamp x)
    by (apply H; now left).
  apply Z.leb_le in Hy. now rewrite Hy.
Qed.

Lemma In_insert_desc (x y : SecurityAudit.t) (l : list SecurityAudit.t) :
  In y (insert_desc x l) <-> y = x \/ In y l.
Proof.
  induction l as [|z l IH]; simpl.
  - intuition.
  - destruct (SecurityAudit.timestamp z <=? SecurityAudit.timestamp x); simpl.
    + intuition.
    + rewrite IH. intuition.
Qed.

Lemma newest_first_insert (x : SecurityAudit.t) (l : list SecurityAudit.t) :
  newest_first l -> newest_first (insert_desc x l).
Proof.
  unfold newest_first. induction 1 as [|y l Hl IH Hy]; simpl.
  - repeat constructor.
  - destruct (SecurityAudit.timestamp y <=? SecurityAudit.timestamp x) eqn:E.
    + apply Z.leb_le in E. constructor.
      * now constructor.
      * constructor; [exact E|].
        rewrite Forall_forall in *. intros z Hz. specialize (Hy z Hz). lia.
    + apply Z.leb_gt in E. constructor; [exact IH|].
      rewrite Forall_forall in *. intros z Hz.
      apply In_insert_desc in Hz as [->|Hz]; [lia|now apply Hy].
Qed.

Lemma newest_first_sort (l : list SecurityAudit.t) : newest_first (sort_desc l).
Proof.
  induction l as [|x l IH]; simpl.
  - constructor.
  - now apply newest_first_insert.
Qed.

Lemma In_firstn {A : Type} (n : nat) (l : list A) (x : A) :
  In x (firstn n l) -> In x l.
Proof.
  revert n. induction l as [|y l IH]; intros [|n]; simpl; try tauto.
  intros [->|H]; [now left|right; now apply (IH n)].
Qed.

Lemma newest_first_firstn (n : nat) (l : list SecurityAudit.t) :
  newest_first l -> newest_first (firstn n l).
Proof.
  unfold newest_first. intros H. revert n.
  induction H as [|y l Hl IH Hy]; intros [|n]; simpl; try constructor.
  - apply IH.
  - rewrite Forall_forall in *. intros z Hz. apply Hy.
    now apply (In_firstn n l z).
Qed.

(** The filter and the stable sort may be done in either order. *)
Lemma filter_insert_desc (f : SecurityAudit.t -> bool) (x : SecurityAudit.t)
      (l : list SecurityAudit.t) :
  newest_first l ->
  filter f (insert_desc x l) =
  if f x then insert_desc x (filter f l) else filter f l.
Proof.
  unfold newest_first. induction 1 as [|y l Hl IH Hy]; simpl.
  - now destruct (f x).
  - destruct (SecurityAudit.timestamp y <=? SecurityAudit.timestamp x) eqn:E; simpl.
    + destruct (f x) eqn:Fx; [|reflexivity].
      apply Z.leb_le in E. symmetry. apply insert_desc_newest.
      intros z Hz.
      assert (Hz' : In z (y :: l)).
      { destruct (f y); [destruct Hz as [<-|Hz]; [now left|right]|right];
          now apply filter_In in Hz as [Hz _]. }
      destruct Hz' as [<-|Hz']; [exact E|].
      rewrite Forall_forall in Hy. specialize (Hy z Hz'). lia.
    + rewrite IH. destruct (f y) eqn:Fy, (f x) eqn:Fx; simpl; try reflexivity.
      now rewrite E.
Qed.

Lemma filter_sort_desc (f : SecurityAudit.t -> bool) (l : list SecurityAudit.t) :
  filter f (sort_desc l) = sort_desc (filter f l).
Proof.
  induction l as [|x l IH]; simpl; [reflexivity|].
  rewrite filter_insert_desc by apply newest_first_sort.
  rewrite IH. now destruct (f x).
Qed.

(** ** The reading methods *)

Lemma getSecurityAuditLogs_run toLowerCase (u : option jsstring) (limit : option Z) (w : World) :
  SecurityService.getSecurityAuditLogs toLowerCase u limit w =
  (Ok (slice0
         (match u with
          | Some (c :: u') =>
              filter (SecurityService.isLogOf toLowerCase (c :: u')) (sort_desc (auditLogs w))
          | _ => sort_desc (auditLogs w)
          end)
         (match limit with Some n => n | None => 50 end)),
   w).
Proof. reflexivity. Qed.

Lemma getUserPermissions_run toLowerCase (u : jsstring) (w : World) :
  SecurityService.getUserPermissions toLowerCase u w =
  (Ok (filter (SecurityService.isPermissionOf toLowerCase u (now w)) (permissions w)),
   elapsed 1 w).
Proof. reflexivity. Qed.

Lemma elapsed_elapsed (j k : nat) (w : World) : elapsed j (elapsed k w) = elapsed (j + k) w.
Proof. unfold elapsed. simpl. f_equal. lia. Qed.

Lemma any_recent_shift (times : nat -> Z) (k i : nat) (l : list SecurityAudit.t) :
  Spec.any_recent (fun n => times (n + k)%nat) i l = Spec.any_recent times (i + k) l.
Proof.
  revert i. induction l as [|e l IH]; intros i; simpl; [reflexivity|].
  now rewrite (IH (S i)).
Qed.

(** The last filter of the score reads the clock once per element and keeps
    some element exactly when one of them is recent at its reading. *)
Lemma filterM_isRecent_run (l : list SecurityAudit.t) (w : World) :
  exists kept,
    filterM SecurityService.isRecent l w = (Ok kept, elapsed (List.length l) w)
    /\ (0 <? len kept) = Spec.any_recent (clock w) (ticks w) l.
Proof.
  revert w. induction l as [|e l IH]; intros w.
  - exists []. split; [|reflexivity].
    unfold elapsed. destruct w; reflexivity.
  - destruct (IH (elapsed 1 w)) as [kept [Hrun Hkept]].
    exists (if clock w (ticks w) - SecurityAudit.timestamp e <? Spec.week
            then e :: kept else kept).
    split.
    + cbn [filterM]. unfold bind at 1. unfold SecurityService.isRecent at 1.
      unfold bind at 1. unfold Date_now at 1. cbv beta iota.
      unfold ret at 1. cbv beta iota.
      match goal with
      | |- bind _ _ ?w0 = _ => change w0 with (elapsed 1 w)
      end.
      rewrite (bind_run _ _ _ _ _ Hrun), elapsed_elapsed. unfold ret.
      replace (List.length l + 1)%nat with (S (List.length l)) by lia.
      reflexivity.
    + cbn [Spec.any_recent]. simpl in Hkept. rewrite <- Hkept.
      destruct (clock w (ticks w) - SecurityAudit.timestamp e <? Spec.week); [|reflexivity].
      unfold len. simpl. apply Z.ltb_lt. lia.
Qed.

Lemma slice0_nonneg {A : Type} (l : list A) (n : Z) :
  0 <= n -> slice0 l n = firstn (Z.to_nat n) l.
Proof.
  intros Hn. unfold slice0, len.
  assert (E : (n <? 0) = false) by (apply Z.ltb_ge; lia). rewrite E.
  destruct (Z.le_gt_cases n (Z.of_nat (List.length l))) as [H|H].
  - now rewrite Z.min_l by lia.
  - rewrite Z.min_r by lia. rewrite Nat2Z.id.
    rewrite firstn_all. symmetry. apply firstn_all2. lia.
Qed.

Lemma slice0_negative {A : Type} (l : list A) (n : Z) :
  n < 0 -> slice0 l n = firstn (List.length l - Z.to_nat (- n)) l.
Proof.
  intros Hn. unfold slice0, len.
  assert (E : (n <? 0) = true) by (apply Z.ltb_lt; lia). rewrite E.
  f_equal. lia.
Qed.

Lemma isPermissionOf_effective toLowerCase (u : jsstring) (t : Z) (l : list AccessPermission.t) :
  filter (SecurityService.isPermissionOf toLowerCase u t) l
  = Spec.effective_permissions_of toLowerCase u t l.
Proof.
  unfold Spec.effective_permissions_of. apply filter_ext. intros p.
  unfold SecurityService.isPermissionOf, Spec.effective, Spec.same_principal.
  now rewrite andb_assoc.
Qed.

Lemma isValidPermission_grants toLowerCase (b r : jsstring) (p : Permission) (t : Z)
      (q : AccessPermission.t) :
  SecurityService.isValidPermission toLowerCase b r p t q = true
  <-> Spec.effective t q = true /\ Spec.grants toLowerCase b r p q.
Proof.
  unfold SecurityService.isValidPermission, Spec.effective, Spec.grants, Spec.same_principal.
  rewrite !andb_true_iff, includes_In, (str_eqb_eq (AccessPermission.resourceId q) r).
  tauto.
Qed.

(** The score the method returns, in terms of what its two reads return. *)
Lemma calculateSecurityScore_run toLowerCase (u : jsstring) (w : World) :
  let fetched :=
    value [] (SecurityService.getSecurityAuditLogs toLowerCase (Some u) (Some 100) w) in
  let held := value [] (SecurityService.getUserPermissions toLowerCase u w) in
  SecurityService.calculateSecurityScore toLowerCase u w =
  (Ok (Spec.score_of fetched (len held) (Spec.any_recent (fun i => later i w) 1 fetched)),
   elapsed (S (List.length fetched)) w).
Proof.
  intros fetched held. subst fetched held.
  unfold SecurityService.calculateSecurityScore, value.
  rewrite (bind_run _ _ _ _ _ (getSecurityAuditLogs_run toLowerCase (Some u) (Some 100) w)).
  rewrite (bind_run _ _ _ _ _ (getUserPermissions_run toLowerCase u w)).
  rewrite getSecurityAuditLogs_run, getUserPermissions_run. cbn [fst].
  match goal with
  | |- context [filterM _ ?l] => set (fetched := l)
  end.
  match goal with
  | |- context [len (filter ?f ?l)] =>
      match f with
      | SecurityService.isPermissionOf _ _ _ => set (held := filter f l)
      end
  end.
  destruct (filterM_isRecent_run fetched (elapsed 1 w)) as [kept [Hrun Hkept]].
  rewrite (bind_run _ _ _ _ _ Hrun), elapsed_elapsed. unfold ret.
  replace (List.length fetched + 1)%nat with (S (List.length fetched)) by lia.
  f_equal. f_equal.
  rewrite Hkept. cbn [clock ticks elapsed].
  rewrite <- (any_recent_shift (clock w) (ticks w) 1 fetched).
  change (fun n : nat => clock w (n + ticks w)%nat) with (fun i : nat => later i w).
  unfold Spec.score_of, Spec.clamp.
  rewrite (filter_ext (fun log => RiskLevel_eqb (SecurityAudit.riskLevel log) high)
                      Spec.high_risk)
    by (intros e; unfold Spec.high_risk; now destruct (SecurityAudit.riskLevel e)).
  change (fun log => negb (SecurityAudit.success log)) with Spec.failed.
  rewrite !len_filter_count.
  destruct (10 <? len held), (Spec.any_recent (fun i => later i w) 1 fetched);
    f_equal; f_equal; lia.
Qed.

(** ** Reads are pure *)

(** C10.  The reading operations query ([getSecurityAuditLogs]),
    listForPrincipal ([getUserPermissions]) and score
    ([calculateSecurityScore]) return a value, append no audit event and
    leave the audit log, the permissions and the persisted copies exactly as
    they were, in every world.  A check, by contrast, appends one event. *)
Theorem reads_leave_the_collections_unchanged :
  forall toLowerCase (u : option jsstring) (limit : option Z)
         (principal resource : jsstring) (p : Permission) (w : World),
    pure_read w (SecurityService.getSecurityAuditLogs toLowerCase u limit w)
    /\ pure_read w (SecurityService.getUserPermissions toLowerCase principal w)
    /\ pure_read w (SecurityService.calculateSecurityScore toLowerCase principal w)
    /\ exists e,
         auditLogs (snd (SecurityService.checkAccess toLowerCase principal resource p w))
         = auditLogs w ++ [e].
Proof.
  intros toLowerCase u limit principal resource p w. unfold pure_read.
  rewrite getSecurityAuditLogs_run, getUserPermissions_run,
    calculateSecurityScore_run, checkAccess_run.
  cbn [fst snd auditLogs permissions window elapsed logged].
  repeat split; eauto.
Qed.

(** ** Revocation *)


Lemma find_owned_none g pid (l : list AccessPermission.t) :
  (forall q, In q l -> AccessPermission.id q = pid -> AccessPermission.granterAddress q <> g) ->
  find (SecurityService.isOwned g pid) l = None.
Proof.
  intros H. destruct (find (SecurityService.isOwned g pid) l) as [q|] eqn:E; [|reflexivity].
  apply find_some in E as [Hin Hq]. unfold SecurityService.isOwned in Hq.
  apply andb_true_iff in Hq as [Hid Hg].
  apply str_eqb_eq in Hid, Hg. exfalso. exact (H q Hin Hid Hg).
Qed.

(** C6.  When the caller is not the granter of the permission the id
    names (no stored permission with that id has the caller as its granter,
    compared exactly), [revoke(caller, permissionId)] fails with
    NotFoundOrUnauthorized and the world is left as it was: no flag is
    flipped, nothing is logged, nothing is persisted, so a permission that
    was active still is. *)
Theorem revoke_by_another_principal_fails :
  forall (caller permissionId : jsstring) (w : World),
    (forall q, In q (permissions w) ->
               AccessPermission.id q = permissionId ->
               AccessPermission.granterAddress q <> caller) ->
    SecurityService.revokeAccess caller permissionId w = (Throw NotFoundOrUnauthorized, w).
Proof.
  intros caller pid w H. apply revokeAccess_missing. now apply find_owned_none.
Qed.

Lemma revoke_by_another_principal_fails_witness :
  SecurityService.revokeAccess (js "C") (js "perm_0_r00000000") busy_world
  = (Throw NotFoundOrUnauthorized, busy_world).
Proof.
  apply (revoke_by_another_principal_fails (js "C") (js "perm_0_r00000000") busy_world).
  intros q Hq _. vm_compute in Hq. destruct Hq as [<-|[]].
  vm_compute. discriminate.
Defined.




(** ** Granting *)

(** C7, as the code has it.  [grantAccess] checks none of its arguments and
    never fails: whatever the permission set (the empty one too) and
    whatever the whole number of hours (zero or negative too, 24 when left
    out), it returns the id of a new permission, appends that permission
    with the arguments given, [isActive = true] and [createdAt] the clock,
    and records one "Access Granted" event of medium risk for the granter.
    The permission's [expiresAt] is the clock plus the hours given wherever
    that sum is exact in doubles. *)
Theorem grant_accepts_every_argument :
  forall (granter grantee resource : jsstring) (rt : ResourceType)
         (ps : list Permission) (ttl : option Z) (w : World),
    let run := SecurityService.grantAccess granter grantee resource rt ps ttl w in
    let h := match ttl with Some h => h | None => 24 end in
    exists perm e,
      fst run = Ok (AccessPermission.id perm)
      /\ permissions (snd run) = permissions w ++ [perm]
      /\ auditLogs (snd run) = auditLogs w ++ [e]
      /\ AccessPermission.id perm = next_permission_id w
      /\ AccessPermission.granterAddress perm = granter
      /\ AccessPermission.granteeAddress perm = grantee
      /\ AccessPermission.resourceId perm = resource
      /\ AccessPermission.resourceType perm = rt
      /\ AccessPermission.permissions perm = ps
      /\ AccessPermission.createdAt perm = later 2 w
      /\ AccessPermission.isActive perm = true
      /\ (exact_in_doubles (later 1 w) h ->
          AccessPermission.expiresAt perm = later 1 w + hours h)
      /\ SecurityAudit.action e = js "Access Granted"
      /\ SecurityAudit.userAddress e = granter
      /\ SecurityAudit.success e = true
      /\ SecurityAudit.riskLevel e = medium.
Proof.
  intros g b r rt ps ttl w run h. subst run h. rewrite grantAccess_run.
  eexists. eexists. cbn [fst snd permissions auditLogs logged stored].
  repeat (split; [reflexivity|]). reflexivity.
Qed.

(** C7, the claim refuted: a grant of the empty permission set for zero
    hours, and one for minus five hours, fail with nothing; each returns an
    id, stores a permission and records an event. *)
Lemma grant_of_nothing_for_no_time_succeeds :
  let w := Examples.fresh_world 1000 in
  let run1 := SecurityService.grantAccess (js "A") (js "B") (js "rec1") record [] (Some 0) w in
  let run2 :=
    SecurityService.grantAccess (js "A") (js "B") (js "rec1") record [read] (Some (-5)) w in
  (fst run1 = Ok (js "perm_1000_r00000000")
   /\ List.length (permissions (snd run1)) = 1%nat
   /\ List.length (auditLogs (snd run1)) = 1%nat)
  /\ (fst run2 = Ok (js "perm_1000_r00000000")
      /\ List.length (permissions (snd run2)) = 1%nat
      /\ List.length (auditLogs (snd run2)) = 1%nat).
Proof. vm_compute. repeat split. Qed.

(** ** The audit query *)

(** C8, as the code has it.  [getSecurityAuditLogs] checks no argument and
    never fails.  Its answer is sorted by time stamp, descending.  For a
    limit that is not negative (50 when left out) it is the up-to-limit
    most recent events, of the principal when a non-empty one is given and
    of everybody otherwise, so it has at most limit entries.  For a negative
    limit [-k] it is the whole sorted list without its last [k] entries. *)
Theorem query_never_fails :
  forall toLowerCase (u : option jsstring) (limit : option Z) (w : World),
    let n := match limit with Some n => n | None => 50 end in
    let principal := match u with Some (c :: u') => Some (c :: u') | _ => None end in
    let all :=
      sort_desc (match principal with
                 | Some a => Spec.events_of toLowerCase a (auditLogs w)
                 | None => auditLogs w
                 end) in
    exists l,
      SecurityService.getSecurityAuditLogs toLowerCase u limit w = (Ok l, w)
      /\ newest_first l
      /\ (0 <= n ->
          l = Spec.query toLowerCase principal (Z.to_nat n) (auditLogs w) /\ len l <= n)
      /\ (n < 0 -> l = firstn (List.length all - Z.to_nat (- n)) all).
Proof.
  intros toLowerCase u limit w n principal all.
  rewrite getSecurityAuditLogs_run. fold n.
  assert (E : match u with
              | Some (c :: u') =>
                  filter (SecurityService.isLogOf toLowerCase (c :: u')) (sort_desc (auditLogs w))
              | _ => sort_desc (auditLogs w)
              end = all).
  { subst all principal. destruct u as [[|c u']|]; try reflexivity.
    now rewrite filter_sort_desc. }
  rewrite E. eexists. split; [reflexivity|]. split; [|split].
  - unfold slice0. apply newest_first_firstn. subst all. apply newest_first_sort.
  - intros Hn. rewrite slice0_nonneg by exact Hn. split.
    + subst all. unfold Spec.query, Spec.most_recent. now destruct principal.
    + unfold len. pose proof (firstn_le_length (Z.to_nat n) all). lia.
  - intros Hn. now apply slice0_negative.
Qed.

(** C8, the claim refuted: with the limit 0 the query returns the empty
    list, with the limit -1 all events but the oldest; neither fails. *)
Lemma query_with_limit_zero_or_negative_returns :
  fst (SecurityService.getSecurityAuditLogs
         Examples.toLowerCase (Some (js "0xabc")) (Some 0) Examples.two_events)
  = Ok []
  /\ fst (SecurityService.getSecurityAuditLogs
            Examples.toLowerCase (Some (js "0xabc")) (Some (-1)) Examples.two_events)
     = Ok [Examples.entry "0xabc" 20 true low].
Proof. vm_compute. split; reflexivity. Qed.

(** ** Grant, check, revoke, check *)






(** ** Expiry *)

(** C2, as the code has it.  [grantAccess] with [h] hours stores one new
    permission for the grantee, active, with [createdAt] the third reading
    of the clock and [expiresAt] the second reading plus [h] hours (where
    that sum is exact in doubles).  In every later world, whatever was
    granted or revoked since, a check that reads the clock at [expiresAt]
    or later returns false, provided every other stored permission that
    grants [p] on [r] to the grantee is revoked or expired then; nothing
    has to be called for the permission to expire.  Where the clock did not
    step back between the second and the third reading, every time strictly
    after [createdAt] plus [h] hours is such a time. *)
Theorem check_after_expiry :
  forall toLowerCase (g b r : jsstring) (rt : ResourceType) (ps : list Permission)
         (h : Z) (p : Permission) (w w' : World),
    let run := SecurityService.grantAccess g b r rt ps (Some h) w in
    exists perm,
      fst run = Ok (AccessPermission.id perm)
      /\ permissions (snd run) = permissions w ++ [perm]
      /\ AccessPermission.granteeAddress perm = b
      /\ AccessPermission.resourceId perm = r
      /\ AccessPermission.permissions perm = ps
      /\ AccessPermission.isActive perm = true
      /\ AccessPermission.createdAt perm = later 2 w
      /\ (exact_in_doubles (later 1 w) h ->
          AccessPermission.expiresAt perm = later 1 w + hours h)
      /\ (AccessPermission.expiresAt perm <= now w' ->
          (forall q, In q (permissions w') -> q <> perm ->
                     Spec.effective (now w') q = true ->
                     ~ Spec.grants toLowerCase b r p q) ->
          fst (SecurityService.checkAccess toLowerCase b r p w') = Ok false)
      /\ (exact_in_doubles (later 1 w) h -> later 1 w <= later 2 w ->
          AccessPermission.createdAt perm + hours h < now w' ->
          AccessPermission.expiresAt perm <= now w').
Proof.
  intros toLowerCase g b r rt ps h p w w' run. subst run. rewrite grantAccess_run.
  cbn [fst snd permissions logged stored].
  exists (new_permission g b r rt ps h w).
  cbn [AccessPermission.granteeAddress AccessPermission.resourceId
       AccessPermission.permissions AccessPermission.isActive
       AccessPermission.createdAt AccessPermission.expiresAt new_permission].
  do 7 (split; [reflexivity|]). split; [intros _; reflexivity|]. split.
  - intros Hexpired Hother. rewrite checkAccess_run. cbn [fst]. f_equal.
    apply existsb_false_forall. intros q Hq.
    destruct (SecurityService.isValidPermission toLowerCase b r p (now w') q) eqn:E;
      [|reflexivity].
    exfalso. apply isValidPermission_grants in E as [Heff Hgrants].
    apply (Hother q Hq); [|exact Heff|exact Hgrants].
    intros ->. unfold Spec.effective in Heff.
    cbn [AccessPermission.isActive AccessPermission.expiresAt new_permission andb] in Heff.
    apply Z.ltb_lt in Heff. lia.
  - intros _ Hclock Hlate. lia.
Qed.

Lemma busy_world_grant_expired (perm : AccessPermission.t) :
  let w := busy_world in
  let w' :=
    Examples.after
      (SecurityService.grantAccess (js "A") (js "B") (js "rec1") record [read] (Some 1)) w in
  (exact_in_doubles (later 1 w) 1 -> AccessPermission.expiresAt perm = later 1 w + hours 1) ->
  AccessPermission.expiresAt perm <= now w'.
Proof.
  intros w w' Hexact. rewrite Hexact.
  - vm_compute. discriminate.
  - vm_compute. repeat split; discriminate.
Qed.

Lemma busy_world_grant_alone (perm : AccessPermission.t) :
  let w := busy_world in
  let run :=
    SecurityService.grantAccess (js "A") (js "B") (js "rec1") record [read] (Some 1) w in
  permissions (snd run) = permissions w ++ [perm] ->
  forall q, In q (permissions (snd run)) -> q <> perm ->
            Spec.effective (now (snd run)) q = true ->
            ~ Spec.grants Examples.toLowerCase (js "B") (js "rec1") read q.
Proof.
  intros w run Hperms q Hq Hneq _ [Hgrantee _].
  rewrite Hperms in Hq. apply in_app_or in Hq as [Hq|[Hq|[]]].
  - vm_compute in Hq. destruct Hq as [<-|[]]. vm_compute in Hgrantee. discriminate.
  - now apply Hneq.
Qed.

Lemma check_after_expiry_witness :
  let w := busy_world in
  let w' :=
    Examples.after
      (SecurityService.grantAccess (js "A") (js "B") (js "rec1") record [read] (Some 1)) w in
  fst (SecurityService.checkAccess Examples.toLowerCase (js "B") (js "rec1") read w')
  = Ok false.
Proof.
  intros w w'.
  destruct (check_after_expiry
              Examples.toLowerCase (js "A") (js "B") (js "rec1") record [read] 1 read w w')
    as [perm [_ [Hperms [_ [_ [_ [_ [_ [Hexact [Hcheck _]]]]]]]]]].
  apply Hcheck.
  - exact (busy_world_grant_expired perm Hexact).
  - exact (busy_world_grant_alone perm Hperms).
Defined.

(** C2, the claim refuted: A grants B read on rec1 for 48 hours and then
    for 1 hour, both at time 0; nothing is revoked.  Two hours and a
    millisecond later, strictly after [createdAt] plus one hour of the
    second grant, the check still returns true. *)
Lemma longer_grant_outlives_shorter_one :
  let w2 :=
    Examples.after
      (SecurityService.grantAccess (js "A") (js "B") (js "rec1") record [read] (Some 48) ;;
       SecurityService.grantAccess (js "A") (js "B") (js "rec1") record [read] (Some 1))
      (Examples.jumping_world 0 10 7200001) in
  map AccessPermission.createdAt (permissions w2) = [0; 0]
  /\ map AccessPermission.expiresAt (permissions w2) = [hours 48; hours 1]
  /\ map AccessPermission.isActive (permissions w2) = [true; true]
  /\ 0 + hours 1 < now w2
  /\ fst (SecurityService.checkAccess Examples.toLowerCase (js "B") (js "rec1") read w2)
     = Ok true.
Proof. vm_compute. repeat split. Qed.

(** ** The security score *)

Lemma fetched_of_a_principal toLowerCase (c : N) (u : jsstring) (w : World) :
  value [] (SecurityService.getSecurityAuditLogs toLowerCase (Some (c :: u)) (Some 100) w)
  = Spec.most_recent 100 (Spec.events_of toLowerCase (c :: u) (auditLogs w)).
Proof.
  rewrite getSecurityAuditLogs_run. unfold value. cbn [fst].
  rewrite slice0_nonneg by lia. rewrite filter_sort_desc. reflexivity.
Qed.

Lemma held_by_a_principal toLowerCase (u : jsstring) (w : World) :
  value [] (SecurityService.getUserPermissions toLowerCase u w)
  = Spec.effective_permissions_of toLowerCase u (now w) (permissions w).
Proof.
  rewrite getUserPermissions_run. unfold value. cbn [fst].
  apply isPermissionOf_effective.
Qed.

Lemma score_of_range (l : list SecurityAudit.t) (n : Z) (b : bool) :
  0 <= Spec.score_of l n b <= 100.
Proof. unfold Spec.score_of, Spec.clamp. lia. Qed.

(** C3, as the code has it.  For every principal that is not the empty
    string and every world, [calculateSecurityScore] returns the score of
    the specification: 100, minus 2 for each failed event and 5 for each
    high-risk event among the up-to-100 most recent events of the principal
    (a failed high-risk event pays both), minus 3 for each effective
    permission of the principal beyond the tenth, plus 5 when one of the
    fetched events is less than seven days old, clamped to 0..100.  Three
    failed events and one failed high-risk event in an old and otherwise
    clean history of X, with no permissions, give 87.  For the empty
    string the method fetches the up-to-100 most recent events of all
    principals and computes the same formula from them. *)
Theorem score_of_a_principal :
  forall toLowerCase,
    (forall (u : jsstring) (w : World),
        u <> [] ->
        fst (SecurityService.calculateSecurityScore toLowerCase u w)
        = Ok (Spec.score toLowerCase u w)
        /\ 0 <= Spec.score toLowerCase u w <= 100)
    /\ fst (SecurityService.calculateSecurityScore toLowerCase (js "X") Examples.history_of_X)
       = Ok 87
    /\ (forall w : World,
          let fetched := Spec.most_recent 100 (auditLogs w) in
          fst (SecurityService.calculateSecurityScore toLowerCase [] w)
          = Ok (Spec.score_of
                  fetched
                  (len (Spec.effective_permissions_of toLowerCase [] (now w) (permissions w)))
                  (Spec.any_recent (fun i => later i w) 1 fetched))).
Proof.
  intros toLowerCase.
  assert (General : forall (u : jsstring) (w : World),
        u <> [] ->
        fst (SecurityService.calculateSecurityScore toLowerCase u w)
        = Ok (Spec.score toLowerCase u w)
        /\ 0 <= Spec.score toLowerCase u w <= 100).
  { intros u w Hu. split; [|apply score_of_range].
    rewrite calculateSecurityScore_run. cbn [fst].
    destruct u as [|c u]; [contradiction|].
    rewrite fetched_of_a_principal, held_by_a_principal. reflexivity. }
  split; [exact General|]. split.
  - destruct (General (js "X") Examples.history_of_X) as [-> _]; [discriminate|].
    f_equal. unfold Spec.score, Spec.events_of, Examples.history_of_X.
    cbn [auditLogs permissions filter Examples.entry SecurityAudit.userAddress].
    unfold Spec.same_principal. rewrite !str_eqb_refl.
    vm_compute. reflexivity.
  - intros w fetched. subst fetched.
    rewrite calculateSecurityScore_run. cbn [fst].
    rewrite held_by_a_principal, getSecurityAuditLogs_run. unfold value. cbn [fst].
    rewrite slice0_nonneg by lia. reflexivity.
Qed.

Lemma score_of_a_principal_witness :
  js "0xABC" <> []
  /\ fst (SecurityService.calculateSecurityScore
            Examples.toLowerCase (js "0xABC") Examples.one_failure)
     = Ok 98.
Proof.
  split; [discriminate|].
  destruct (score_of_a_principal Examples.toLowerCase) as [General _].
  destruct (General (js "0xABC") Examples.one_failure) as [E _]; [discriminate|].
  rewrite E. vm_compute. reflexivity.
Defined.

(** C3, the claim refuted: the empty principal has no event in a log that
    holds one failed event of 0xabc, so its score by the claim is 100; the
    method takes the empty string for "no principal given", fetches the
    events of everybody and returns 98. *)
Lemma score_of_the_empty_principal :
  Spec.score Examples.toLowerCase [] Examples.one_failure = 100
  /\ fst (SecurityService.calculateSecurityScore Examples.toLowerCase [] Examples.one_failure)
     = Ok 98.
Proof. vm_compute. split; reflexivity. Qed.

Lemma count_app {A : Type} (f : A -> bool) (l l' : list A) :
  Spec.count f (l ++ l') = Spec.count f l + Spec.count f l'.
Proof. induction l as [|x l IH]; simpl; [reflexivity|]. rewrite IH. lia. Qed.

Lemma count_nonneg {A : Type} (f : A -> bool) (l : list A) : 0 <= Spec.count f l.
Proof. induction l as [|x l IH]; simpl; [lia|]. destruct (f x); lia. Qed.

Lemma count_insert_desc (f : SecurityAudit.t -> bool) (x : SecurityAudit.t)
      (l : list SecurityAudit.t) :
  Spec.count f (insert_desc x l) = Spec.count f (x :: l).
Proof.
  induction l as [|y l IH]; simpl; [reflexivity|].
  destruct (SecurityAudit.timestamp y <=? SecurityAudit.timestamp x); simpl; [reflexivity|].
  rewrite IH. simpl. lia.
Qed.

Lemma count_sort_desc (f : SecurityAudit.t -> bool) (l : list SecurityAudit.t) :
  Spec.count f (sort_desc l) = Spec.count f l.
Proof.
  induction l as [|x l IH]; simpl; [reflexivity|].
  rewrite count_insert_desc. simpl. now rewrite IH.
Qed.

Lemma length_insert_desc (x : SecurityAudit.t) (l : list SecurityAudit.t) :
  List.length (insert_desc x l) = S (List.length l).
Proof.
  induction l as [|y l IH]; simpl; [reflexivity|].
  destruct (SecurityAudit.timestamp y <=? SecurityAudit.timestamp x); simpl; [reflexivity|].
  now rewrite IH.
Qed.

Lemma length_sort_desc (l : list SecurityAudit.t) : List.length (sort_desc l) = List.length l.
Proof.
  induction l as [|x l IH]; simpl; [reflexivity|]. now rewrite length_insert_desc, IH.
Qed.

(** Up to a hundred events are all fetched. *)
Lemma most_recent_all (l : list SecurityAudit.t) :
  (List.length l <= 100)%nat -> Spec.most_recent 100 l = sort_desc l.
Proof.
  intros H. unfold Spec.most_recent. apply firstn_all2. now rewrite length_sort_desc.
Qed.

(** The score does not go up with the two counts and the number of
    permissions, unless the recency bonus is gained. *)
Lemma score_of_antitone (l l' : list SecurityAudit.t) (n n' : Z) (b b' : bool) :
  Spec.count Spec.failed l <= Spec.count Spec.failed l' ->
  Spec.count Spec.high_risk l <= Spec.count Spec.high_risk l' ->
  n <= n' ->
  (b' = true -> b = true) ->
  Spec.score_of l' n' b' <= Spec.score_of l n b.
Proof.
  intros Hf Hh Hn Hb. unfold Spec.score_of, Spec.clamp.
  destruct b'; [rewrite (Hb eq_refl)|destruct b];
    destruct (Z.ltb_spec 10 n), (Z.ltb_spec 10 n'); lia.
Qed.

(** C9, as the code has it.  Let a principal, other than the empty string,
    have fewer than a hundred events, so that all of them are fetched, and
    let one more event be logged, of anyone and of any kind.  If the number
    of the principal's effective permissions has not gone down and the
    recency bonus is not gained by it (it was there before, or is not there
    after), the score afterwards is not above the score before. *)
Theorem score_is_monotone :
  forall toLowerCase (u : jsstring) (e : SecurityAudit.t) (w w' : World),
    let held x := value [] (SecurityService.getUserPermissions toLowerCase u x) in
    let recent x :=
      Spec.any_recent
        (fun i => later i x) 1
        (value [] (SecurityService.getSecurityAuditLogs toLowerCase (Some u) (Some 100) x)) in
    u <> [] ->
    len (Spec.events_of toLowerCase u (auditLogs w)) < 100 ->
    auditLogs w' = auditLogs w ++ [e] ->
    len (held w) <= len (held w') ->
    (recent w' = true -> recent w = true) ->
    exists s s',
      fst (SecurityService.calculateSecurityScore toLowerCase u w) = Ok s
      /\ fst (SecurityService.calculateSecurityScore toLowerCase u w') = Ok s'
      /\ s' <= s.
Proof.
  intros toLowerCase u e w w' held recent Hu Hfew Hlog Hheld Hrecent.
  rewrite !calculateSecurityScore_run. cbn [fst].
  eexists. eexists. split; [reflexivity|]. split; [reflexivity|].
  fold (held w) (held w').
  apply score_of_antitone; [| |exact Hheld|exact Hrecent];
    destruct u as [|c u]; try contradiction;
    rewrite !fetched_of_a_principal, Hlog;
    unfold Spec.events_of in *; rewrite filter_app;
    unfold len in Hfew;
    (rewrite !most_recent_all, !count_sort_desc, count_app;
     [match goal with
      | |- _ <= _ + Spec.count ?f ?l => pose proof (count_nonneg f l)
      end; lia
     | rewrite length_app; simpl;
       destruct (Spec.same_principal toLowerCase (SecurityAudit.userAddress e) (c :: u));
       simpl; lia
     | lia]).
Qed.

Lemma busy_world_checked :
  let w := busy_world in
  let w' :=
    snd (SecurityService.checkAccess Examples.toLowerCase (js "A") (js "rec9") read w) in
  len (Spec.events_of Examples.toLowerCase (js "A") (auditLogs w)) < 100
  /\ auditLogs w'
     = auditLogs w
       ++ [audit_entry (checked_event (js "A") (js "rec9") read false) (elapsed 1 w)]
  /\ len (value [] (SecurityService.getUserPermissions Examples.toLowerCase (js "A") w))
     <= len (value [] (SecurityService.getUserPermissions Examples.toLowerCase (js "A") w'))
  /\ Spec.any_recent
       (fun i => later i w) 1
       (value [] (SecurityService.getSecurityAuditLogs
                    Examples.toLowerCase (Some (js "A")) (Some 100) w))
     = true.
Proof. vm_compute. repeat split; discriminate. Qed.

Lemma score_is_monotone_witness :
  let w := busy_world in
  let w' :=
    snd (SecurityService.checkAccess Examples.toLowerCase (js "A") (js "rec9") read w) in
  exists s s',
    fst (SecurityService.calculateSecurityScore Examples.toLowerCase (js "A") w) = Ok s
    /\ fst (SecurityService.calculateSecurityScore Examples.toLowerCase (js "A") w') = Ok s'
    /\ s' <= s.
Proof.
  intros w w'.
  destruct busy_world_checked as [Hfew [Hlog [Hheld Hrecent]]].
  apply (score_is_monotone
           Examples.toLowerCase (js "A")
           (audit_entry (checked_event (js "A") (js "rec9") read false) (elapsed 1 w))
           w w');
    [discriminate|exact Hfew|exact Hlog|exact Hheld|intros _; exact Hrecent].
Defined.

(** C9, the claim refuted.  The principal 0xabc has a hundred events, all
    recent, and no permissions; the score is 92.  A check of 0xabc fails and
    adds one failed event of medium risk: the principal has five failed
    events where it had four, and one of high risk as before.  Nothing else
    changes, the recency bonus is there before and after, and the score is
    97: among the hundred most recent events the new one has taken the
    place of the oldest, which was failed and of high risk. *)
Lemma a_failed_event_can_raise_the_score :
  let u := js "0xabc" in
  let w := hundred_events in
  let w' := snd (SecurityService.checkAccess Examples.toLowerCase u (js "rec1") read w) in
  (exists e,
      auditLogs w' = auditLogs w ++ [e]
      /\ SecurityAudit.userAddress e = u
      /\ SecurityAudit.success e = false)
  /\ permissions w' = permissions w
  /\ Spec.count Spec.failed (Spec.events_of Examples.toLowerCase u (auditLogs w)) = 4
  /\ Spec.count Spec.failed (Spec.events_of Examples.toLowerCase u (auditLogs w')) = 5
  /\ Spec.count Spec.high_risk (Spec.events_of Examples.toLowerCase u (auditLogs w)) = 1
  /\ Spec.count Spec.high_risk (Spec.events_of Examples.toLowerCase u (auditLogs w')) = 1
  /\ fst (SecurityService.calculateSecurityScore Examples.toLowerCase u w) = Ok 92
  /\ fst (SecurityService.calculateSecurityScore Examples.toLowerCase u w') = Ok 97.
Proof.
  intros u w w'. split; [|vm_compute; repeat split].
  eexists. subst w'. rewrite checkAccess_run. cbn [snd auditLogs logged elapsed].
  split; [reflexivity|]. split; reflexivity.
Qed.

(** ** Base64 *)

Lemma list_ind3 {A : Type} (P : list A -> Prop) :
  P [] -> (forall a, P [a]) -> (forall a b, P [a; b]) ->
  (forall a b c l, P l -> P (a :: b :: c :: l)) ->
  forall l, P l.
Proof.
  intros H0 H1 H2 H3.
  assert (H : forall l, P l /\ (forall a, P (a :: l)) /\ (forall a b, P (a :: b :: l))).
  { induction l as [|x l [IH0 [IH1 IH2]]]; repeat split; auto. }
  intros l. apply H.
Qed.

Lemma b64_value_char (n : N) : (n < 64)%N -> b64_value (b64_char n) = Some n.
Proof.
  intros Hn. unfold b64_char.
  destruct (N.ltb_spec n 26); [|destruct (N.ltb_spec n 52); [|destruct (N.ltb_spec n 62);
    [|destruct (N.eqb_spec n 62)]]]; unfold b64_value.
  - replace ((65 <=? 65 + n) && (65 + n <=? 90))%N with true; [f_equal; lia|].
    symmetry. apply andb_true_iff. split; apply N.leb_le; lia.
  - replace ((65 <=? 97 + (n - 26)) && (97 + (n - 26) <=? 90))%N with false.
    2:{ symmetry. apply andb_false_iff. right. apply N.leb_gt. lia. }
    replace ((97 <=? 97 + (n - 26)) && (97 + (n - 26) <=? 122))%N with true; [f_equal; lia|].
    symmetry. apply andb_true_iff. split; apply N.leb_le; lia.
  - replace ((65 <=? 48 + (n - 52)) && (48 + (n - 52) <=? 90))%N with false.
    2:{ symmetry. apply andb_false_iff. left. apply N.leb_gt. lia. }
    replace ((97 <=? 48 + (n - 52)) && (48 + (n - 52) <=? 122))%N with false.
    2:{ symmetry. apply andb_false_iff. left. apply N.leb_gt. lia. }
    replace ((48 <=? 48 + (n - 52)) && (48 + (n - 52) <=? 57))%N with true; [f_equal; lia|].
    symmetry. apply andb_true_iff. split; apply N.leb_le; lia.
  - subst n. reflexivity.
  - assert (n = 63%N) by lia. subst n. reflexivity.
Qed.

Lemma b64_char_plain (n : N) :
  is_ascii_whitespace (b64_char n) = false /\ (b64_char n =? 61)%N = false.
Proof.
  unfold b64_char, is_ascii_whitespace.
  destruct (N.ltb_spec n 26); [|destruct (N.ltb_spec n 52); [|destruct (N.ltb_spec n 62);
    [|destruct (N.eqb_spec n 62)]]];
    (split; [rewrite !orb_false_iff; repeat split|]; try (apply N.eqb_neq; lia);
     try reflexivity).
Qed.

Lemma sextets_bound (s : jsstring) : latin1 s -> Forall (fun v => (v < 64)%N) (sextets s).
Proof.
  unfold latin1. induction s as [|a|a b|a b c s IH] using list_ind3; intros H; cbn [sextets].
  - constructor.
  - inversion_clear H. repeat constructor.
    + apply N.Div0.div_lt_upper_bound. lia.
    + pose proof (N.mod_upper_bound a 4). lia.
  - inversion_clear H as [|? ? Ha H']. inversion_clear H' as [|? ? Hb _].
    repeat constructor.
    + apply N.Div0.div_lt_upper_bound. lia.
    + pose proof (N.mod_upper_bound a 4).
      assert (b / 16 < 16)%N by (apply N.Div0.div_lt_upper_bound; lia). lia.
    + pose proof (N.mod_upper_bound b 16). lia.
  - inversion_clear H as [|? ? Ha H']. inversion_clear H' as [|? ? Hb H''].
    inversion_clear H'' as [|? ? Hc Hs].
    repeat (apply Forall_cons); [| | | |now apply IH].
    + apply N.Div0.div_lt_upper_bound. lia.
    + pose proof (N.mod_upper_bound a 4).
      assert (b / 16 < 16)%N by (apply N.Div0.div_lt_upper_bound; lia). lia.
    + pose proof (N.mod_upper_bound b 16).
      assert (c / 64 < 4)%N by (apply N.Div0.div_lt_upper_bound; lia). lia.
    + apply N.mod_upper_bound. lia.
Qed.

Lemma b64_encode_split (s : jsstring) :
  b64_encode s = map b64_char (sextets s) ++ padding s.
Proof.
  induction s as [|a|a b|a b c s IH] using list_ind3; try reflexivity.
  cbn [b64_encode sextets padding]. rewrite IH, map_app. reflexivity.
Qed.

Lemma b64_values_chars (vs : list N) :
  Forall (fun v => (v < 64)%N) vs -> b64_values (map b64_char vs) = Some vs.
Proof.
  induction 1 as [|v vs Hv _ IH]; cbn [map b64_values]; [reflexivity|].
  now rewrite (b64_value_char v Hv), IH.
Qed.

Lemma b64_decode_sextets (s : jsstring) : latin1 s -> b64_decode (sextets s) = s.
Proof.
  unfold latin1. induction s as [|a|a b|a b c s IH] using list_ind3; intros H.
  - reflexivity.
  - cbn [sextets b64_decode]. f_equal.
    rewrite N.div_mul by lia. pose proof (N.div_mod a 4). lia.
  - inversion_clear H as [|? ? Ha H']. inversion_clear H' as [|? ? Hb _].
    cbn [sextets b64_decode].
    assert (E1 : (((a mod 4) * 16 + b / 16) / 16 = a mod 4)%N).
    { rewrite N.div_add_l by lia. rewrite (N.div_small (b / 16) 16); [lia|].
      apply N.Div0.div_lt_upper_bound. lia. }
    assert (E2 : (((a mod 4) * 16 + b / 16) mod 16 = b / 16)%N).
    { rewrite N.add_comm, N.Div0.mod_add. apply N.mod_small.
      apply N.Div0.div_lt_upper_bound. lia. }
    rewrite E1, E2, N.div_mul by lia.
    pose proof (N.div_mod a 4). pose proof (N.div_mod b 16).
    f_equal; [lia|]. f_equal. lia.
  - inversion_clear H as [|? ? Ha H']. inversion_clear H' as [|? ? Hb H''].
    inversion_clear H'' as [|? ? Hc Hs].
    cbn [sextets app b64_decode].
    assert (E1 : (((a mod 4) * 16 + b / 16) / 16 = a mod 4)%N).
    { rewrite N.div_add_l by lia. rewrite (N.div_small (b / 16) 16); [lia|].
      apply N.Div0.div_lt_upper_bound. lia. }
    assert (E2 : (((a mod 4) * 16 + b / 16) mod 16 = b / 16)%N).
    { rewrite N.add_comm, N.Div0.mod_add. apply N.mod_small.
      apply N.Div0.div_lt_upper_bound. lia. }
    assert (E3 : (((b mod 16) * 4 + c / 64) / 4 = b mod 16)%N).
    { rewrite N.div_add_l by lia. rewrite (N.div_small (c / 64) 4); [lia|].
      apply N.Div0.div_lt_upper_bound. lia. }
    assert (E4 : (((b mod 16) * 4 + c / 64) mod 4 = c / 64)%N).
    { rewrite N.add_comm, N.Div0.mod_add. apply N.mod_small.
      apply N.Div0.div_lt_upper_bound. lia. }
    rewrite E1, E2, E3, E4, (IH Hs).
    pose proof (N.div_mod a 4). pose proof (N.div_mod b 16). pose proof (N.div_mod c 64).
    f_equal; [lia|]. f_equal; [lia|]. f_equal. lia.
Qed.

Lemma filter_whitespace_chars (vs : list N) (pad : jsstring) :
  Forall (fun c => c = 61%N) pad ->
  filter (fun c => negb (is_ascii_whitespace c)) (map b64_char vs ++ pad)
  = map b64_char vs ++ pad.
Proof.
  intros Hpad. induction vs as [|v vs IH]; cbn [map app filter].
  - induction Hpad as [|c pad -> _ IH]; [reflexivity|].
    cbn [filter]. change (is_ascii_whitespace 61) with false. cbn [negb]. now rewrite IH.
  - destruct (b64_char_plain v) as [-> _]. cbn [negb]. now rewrite IH.
Qed.

Lemma padding_is_padding (s : jsstring) : Forall (fun c => c = 61%N) (padding s).
Proof.
  induction s as [|a|a b|a b c s IH] using list_ind3; cbn [padding];
    repeat constructor; exact IH.
Qed.

Lemma length_b64_encode (s : jsstring) : (List.length (b64_encode s) mod 4 = 0)%nat.
Proof.
  induction s as [|a|a b|a b c s IH] using list_ind3; try reflexivity.
  cbn [b64_encode]. rewrite length_app. cbn [List.length].
  change (4 + List.length (b64_encode s))%nat with (1 * 4 + List.length (b64_encode s))%nat.
  rewrite Nat.add_comm, Nat.Div0.mod_add. exact IH.
Qed.

Lemma length_sextets (s : jsstring) : (List.length (sextets s) mod 4 <> 1)%nat.
Proof.
  induction s as [|a|a b|a b c s IH] using list_ind3; try (cbn; discriminate).
  cbn [sextets]. rewrite length_app. cbn [List.length].
  change (4 + List.length (sextets s))%nat with (1 * 4 + List.length (sextets s))%nat.
  rewrite Nat.add_comm, Nat.Div0.mod_add. exact IH.
Qed.

Lemma strip_padding_chars (vs : list N) (s : jsstring) :
  strip_padding (map b64_char vs ++ padding s) = map b64_char vs.
Proof.
  assert (Hrev : forall pad, rev (map b64_char vs ++ pad) = rev pad ++ map b64_char (rev vs)).
  { intros pad. now rewrite rev_app_distr, map_rev. }
  assert (Hback : rev (map b64_char (rev vs)) = map b64_char vs).
  { now rewrite <- map_rev, rev_involutive. }
  assert (Hpad : padding s = [] \/ padding s = [61%N] \/ padding s = [61; 61]%N).
  { induction s as [|a|a b|a b c s IH] using list_ind3; cbn [padding]; auto. }
  unfold strip_padding. rewrite Hrev.
  destruct Hpad as [->|[->| ->]]; cbn [rev app].
  - destruct (rev vs) as [|v r] eqn:E; cbn [map].
    + apply app_nil_r.
    + destruct (b64_char_plain v) as [_ ->]. apply app_nil_r.
  - change (61 =? 61)%N with true. cbv iota.
    destruct (rev vs) as [|v r] eqn:E; cbn [map].
    + apply (f_equal (@rev N)) in E. rewrite rev_involutive in E. now subst vs.
    + destruct (b64_char_plain v) as [_ ->]. exact Hback.
  - change (61 =? 61)%N with true. cbv iota. exact Hback.
Qed.

(** [atob] undoes [btoa], which accepts exactly the strings of Latin-1. *)
Lemma atob_btoa (msg msg' : jsstring) (s : jsstring) :
  latin1 s ->
  btoa msg s = Ok (b64_encode s) /\ atob msg' (b64_encode s) = Ok s.
Proof.
  intros Hs. split.
  - unfold btoa.
    replace (existsb (fun c => (255 <? c)%N) s) with false; [reflexivity|].
    symmetry. apply existsb_false_forall. intros c Hc.
    unfold latin1 in Hs. rewrite Forall_forall in Hs. apply N.ltb_ge. now apply Hs.
  - assert (F : filter (fun c => negb (is_ascii_whitespace c)) (b64_encode s)
                = b64_encode s).
    { rewrite b64_encode_split. apply filter_whitespace_chars, padding_is_padding. }
    assert (P : strip_padding (b64_encode s) = map b64_char (sextets s)).
    { rewrite b64_encode_split. apply strip_padding_chars. }
    unfold atob. rewrite !F, length_b64_encode. cbn [Nat.eqb]. rewrite !P, length_map.
    pose proof (length_sextets s) as Hlen. apply Nat.eqb_neq in Hlen. rewrite Hlen.
    rewrite b64_values_chars by (now apply sextets_bound).
    now rewrite b64_decode_sextets.
Qed.
(** ** JSON strings *)

Lemma parse_raw_unit (c : N) (rest body r : jsstring) :
  c <> 34%N -> c <> 92%N -> (32 <= c)%N ->
  parse_string_body rest = Some (body, r) ->
  parse_string_body (c :: rest) = Some (c :: body, r).
Proof.
  intros H34 H92 H32 Hrest. cbn [parse_string_body].
  apply N.eqb_neq in H34, H92. rewrite H34, H92.
  assert (E : (c <? 32)%N = false) by (apply N.ltb_ge; exact H32).
  now rewrite E, Hrest.
Qed.

Lemma hex_value_digit (n : N) : (n < 16)%N -> hex_value (hex_digit n) = Some n.
Proof.
  intros Hn.
  assert (H : forallb (fun n => match hex_value (hex_digit n) with
                                | Some m => (m =? n)%N
                                | None => false
                                end)
                      (map N.of_nat (seq 0 16)) = true) by reflexivity.
  rewrite forallb_forall in H.
  specialize (H n). 
  assert (Hin : In n (map N.of_nat (seq 0 16))).
  { apply in_map_iff. exists (N.to_nat n). split; [lia|]. apply in_seq. lia. }
  specialize (H Hin). destruct (hex_value (hex_digit n)) as [m|]; [|discriminate].
  apply N.eqb_eq in H. now subst.
Qed.

Lemma parse_unicode_escape (c : N) (rest body r : jsstring) :
  (c < 65536)%N ->
  parse_string_body rest = Some (body, r) ->
  parse_string_body (unicode_escape c ++ rest) = Some (c :: body, r).
Proof.
  intros Hc Hrest. unfold unicode_escape. cbn [app parse_string_body].
  change (92 =? 34)%N with false. change (92 =? 92)%N with true.
  change (117 =? 34)%N with false. change (117 =? 92)%N with false.
  change (117 =? 47)%N with false. change (117 =? 98)%N with false.
  change (117 =? 102)%N with false. change (117 =? 110)%N with false.
  change (117 =? 114)%N with false. change (117 =? 116)%N with false.
  change (117 =? 117)%N with true. cbv iota.
  rewrite !hex_value_digit.
  - rewrite Hrest. repeat f_equal.
    pose proof (N.div_mod c 16 ltac:(lia)) as H1.
    pose proof (N.div_mod (c / 16) 16 ltac:(lia)) as H2.
    pose proof (N.div_mod (c / 256) 16 ltac:(lia)) as H3.
    assert (H4 : (c / 16 / 16 = c / 256)%N) by (rewrite N.Div0.div_div; reflexivity).
    assert (H5 : (c / 256 / 16 = c / 4096)%N) by (rewrite N.Div0.div_div; reflexivity).
    rewrite H4 in H2. rewrite H5 in H3. lia.
  - apply N.mod_upper_bound. lia.
  - apply N.mod_upper_bound. lia.
  - apply N.mod_upper_bound. lia.
  - apply N.Div0.div_lt_upper_bound. lia.
Qed.

Lemma parse_quote_unit (c : N) (rest body r : jsstring) :
  parse_string_body rest = Some (body, r) ->
  parse_string_body (quote_unit c ++ rest) = Some (c :: body, r).
Proof.
  intros Hrest. unfold quote_unit.
  destruct (N.eqb_spec c 8); [subst; cbn; now rewrite Hrest|].
  destruct (N.eqb_spec c 9); [subst; cbn; now rewrite Hrest|].
  destruct (N.eqb_spec c 10); [subst; cbn; now rewrite Hrest|].
  destruct (N.eqb_spec c 12); [subst; cbn; now rewrite Hrest|].
  destruct (N.eqb_spec c 13); [subst; cbn; now rewrite Hrest|].
  destruct (N.eqb_spec c 34); [subst; cbn; now rewrite Hrest|].
  destruct (N.eqb_spec c 92); [subst; cbn; now rewrite Hrest|].
  destruct (N.ltb_spec c 32).
  - apply parse_unicode_escape; [lia|exact Hrest].
  - now apply parse_raw_unit.
Qed.

Lemma surrogate_is_raw (c : N) :
  is_leading_surrogate c = true \/ is_trailing_surrogate c = true ->
  c <> 34%N /\ c <> 92%N /\ (32 <= c)%N /\ (c < 65536)%N.
Proof.
  unfold is_leading_surrogate, is_trailing_surrogate.
  rewrite !andb_true_iff, !N.leb_le. lia.
Qed.

Lemma parse_quote_units_step (rest : jsstring) (a : N) (s : jsstring) :
  (forall s', (List.length s' <= List.length s)%nat ->
              parse_string_body (quote_units s' ++ 34%N :: rest) = Some (s', rest)) ->
  parse_string_body (quote_units (a :: s) ++ 34%N :: rest) = Some (a :: s, rest).
Proof.
  intros IH. cbn [quote_units].
  destruct (is_leading_surrogate a) eqn:L.
  - destruct (surrogate_is_raw a (or_introl L)) as [A1 [A2 [A3 A4]]].
    destruct s as [|x s].
    + apply parse_unicode_escape; [exact A4|reflexivity].
    + destruct (is_trailing_surrogate x) eqn:T.
      * destruct (surrogate_is_raw x (or_intror T)) as [X1 [X2 [X3 _]]].
        cbn [app]. apply parse_raw_unit; try assumption.
        apply parse_raw_unit; try assumption. apply IH. cbn. lia.
      * rewrite <- app_assoc. apply parse_unicode_escape; [exact A4|].
        apply IH. lia.
  - destruct (is_trailing_surrogate a) eqn:T.
    + destruct (surrogate_is_raw a (or_intror T)) as [_ [_ [_ A4]]].
      rewrite <- app_assoc. apply parse_unicode_escape; [exact A4|]. apply IH. lia.
    + rewrite <- app_assoc. apply parse_quote_unit. apply IH. lia.
Qed.

(** Reading back what [JSON.stringify] wrote for a string gives the
    string. *)
Lemma parse_quote_units (s rest : jsstring) :
  parse_string_body (quote_units s ++ 34%N :: rest) = Some (s, rest).
Proof.
  assert (H : forall n s', (List.length s' <= n)%nat ->
              parse_string_body (quote_units s' ++ 34%N :: rest) = Some (s', rest)).
  { induction n as [|n IH]; intros [|a s'] Hlen; try reflexivity.
    - cbn in Hlen. lia.
    - apply parse_quote_units_step. intros s'' Hs''. apply IH. cbn in Hlen. lia. }
  apply (H (List.length s)). lia.
Qed.
(** ** JSON numbers *)

Lemma js_String (a : ascii) (s : string) : js (String a s) = N_of_ascii a :: js s.
Proof. reflexivity. Qed.

Lemma take_digits_of (d : Decimal.uint) (rest : jsstring) :
  ends_number rest ->
  take_digits (digits_of d ++ rest) = (digits_of d, rest).
Proof.
  intros Hrest. unfold digits_of.
  induction d as [|d IH|d IH|d IH|d IH|d IH|d IH|d IH|d IH|d IH|d IH];
    cbn [NilEmpty.string_of_uint];
    try (rewrite js_String; cbn [app take_digits]; rewrite IH; reflexivity).
  destruct rest as [|c rest]; [reflexivity|].
  destruct Hrest as [Hd _]. cbn [js list_ascii_of_string map app take_digits].
  now rewrite Hd.
Qed.

Lemma parse_frac_end (rest : jsstring) : ends_number rest -> parse_frac rest = Some ([], rest).
Proof.
  destruct rest as [|c rest]; [reflexivity|]. intros [_ [H _]].
  cbn [parse_frac]. apply N.eqb_neq in H. now rewrite H.
Qed.

Lemma parse_exp_end (rest : jsstring) : ends_number rest -> parse_exp rest = Some ([], rest).
Proof.
  destruct rest as [|c rest]; [reflexivity|]. intros [_ [_ [H1 H2]]].
  cbn [parse_exp]. apply N.eqb_neq in H1, H2. now rewrite H1, H2.
Qed.

(** The decimal numeral of an integer has no leading zero. *)
Lemma to_int_normal (z : Z) :
  Z.to_int z = Decimal.Pos (Decimal.D0 Decimal.Nil)
  \/ exists d, (Z.to_int z = Decimal.Pos d \/ Z.to_int z = Decimal.Neg d)
              /\ d <> Decimal.Nil /\ (forall d', d <> Decimal.D0 d').
Proof.
  assert (H : Decimal.norm (Z.to_int z) = Z.to_int z)
    by (rewrite <- (DecimalZ.to_of (Z.to_int z)), DecimalZ.of_to; reflexivity).
  assert (Normal : forall d, Decimal.nzhead d = d -> d <> Decimal.Nil ->
                             d <> Decimal.Nil /\ (forall d', d <> Decimal.D0 d')).
  { intros d Hd Hnil. split; [exact Hnil|]. intros d'. rewrite <- Hd. apply DecimalFacts.nzhead_nonzero. }
  destruct (Z.to_int z) as [d|d]; cbn [Decimal.norm] in H.
  - injection H as H. unfold Decimal.unorm in H.
    destruct (Decimal.nzhead d) eqn:E; [left; now rewrite <- H|..];
      (right; exists d; split; [now left|]; apply Normal;
       [now rewrite E|rewrite <- H; discriminate]).
  - destruct (Decimal.nzhead d) eqn:E; [discriminate|..];
      injection H as H;
      (right; exists d; split; [now right|]; apply Normal;
       [now rewrite E|rewrite <- H; discriminate]).
Qed.

Lemma parse_int_digits (d : Decimal.uint) (rest : jsstring) :
  d <> Decimal.Nil -> (forall d', d <> Decimal.D0 d') -> ends_number rest ->
  parse_int (digits_of d ++ rest) = Some (digits_of d, rest).
Proof.
  intros Hnil Hzero Hrest.
  pose proof (take_digits_of d rest Hrest) as Htake.
  destruct d; try contradiction; try (now exfalso; eapply Hzero);
    unfold digits_of in *; cbn [NilEmpty.string_of_uint] in *;
    rewrite js_String in *; cbn [app parse_int]; cbn [app] in Htake;
    now rewrite <- Htake.
Qed.

(** Reading back the numeral [JSON.stringify] wrote for an integer gives
    the numeral. *)
Lemma parse_number_toString (t : Z) (rest : jsstring) :
  ends_number rest ->
  parse_number (Number_toString t ++ rest) = Some (Number_toString t, rest).
Proof.
  intros Hrest. unfold Number_toString.
  destruct (to_int_normal t) as [->|[d [[-> | ->] [Hnil Hzero]]]].
  - cbn [NilZero.string_of_int NilZero.string_of_uint].
    unfold parse_number. cbn [js list_ascii_of_string map app parse_sign].
    cbn. rewrite parse_frac_end, parse_exp_end by exact Hrest. reflexivity.
  - cbn [NilZero.string_of_int].
    replace (NilZero.string_of_uint d) with (NilEmpty.string_of_uint d)
      by (destruct d; try reflexivity; contradiction).
    fold (digits_of d). unfold parse_number.
    assert (Hsign : parse_sign (digits_of d ++ rest) = ([], digits_of d ++ rest)).
    { destruct d; try contradiction; reflexivity. }
    rewrite Hsign, parse_int_digits, parse_frac_end, parse_exp_end by assumption.
    cbn [app]. now rewrite !app_nil_r.
  - cbn [NilZero.string_of_int]. rewrite js_String.
    replace (NilZero.string_of_uint d) with (NilEmpty.string_of_uint d)
      by (destruct d; try reflexivity; contradiction).
    fold (digits_of d). unfold parse_number. cbn [app parse_sign].
    change (N_of_ascii "-" =? 45)%N with true. cbv iota.
    rewrite parse_int_digits, parse_frac_end, parse_exp_end by assumption.
    cbn [app]. now rewrite !app_nil_r.
Qed.

Lemma parse_value_string (fuel : nat) (s rest : jsstring) :
  parse_value (S fuel) (34%N :: quote_units s ++ 34%N :: rest) = Some (JString s, rest).
Proof. cbn [parse_value skip_ws]. cbn -[parse_string_body]. now rewrite parse_quote_units. Qed.

Lemma Number_toString_head (t : Z) :
  exists c tail, Number_toString t = c :: tail /\ (c = 45%N \/ is_digit c = true).
Proof.
  unfold Number_toString.
  destruct (to_int_normal t) as [->|[d [[-> | ->] [Hnil Hzero]]]].
  - eexists. eexists. split; [reflexivity|]. now right.
  - destruct d; try contradiction;
      (eexists; eexists; split; [reflexivity|]; now right).
  - eexists. eexists. split; [reflexivity|]. now left.
Qed.

Lemma parse_value_number (fuel : nat) (t : Z) (rest : jsstring) :
  ends_number rest ->
  parse_value (S fuel) (Number_toString t ++ rest) = Some (JNumber (Number_toString t), rest).
Proof.
  intros Hrest. pose proof (parse_number_toString t rest Hrest) as Hnum.
  destruct (Number_toString_head t) as [c [tail [E Hc]]]. rewrite E in *.
  assert (Hplain : is_json_whitespace c = false /\ (c =? 34)%N = false
                   /\ (c =? 91)%N = false /\ (c =? 123)%N = false
                   /\ (c =? 116)%N = false /\ (c =? 102)%N = false
                   /\ (c =? 110)%N = false).
  { destruct Hc as [->|Hc]; [repeat split|].
    unfold is_digit in Hc. apply andb_true_iff in Hc as [H1 H2].
    apply N.leb_le in H1, H2. unfold is_json_whitespace.
    rewrite !orb_false_iff. repeat split; apply N.eqb_neq; lia. }
  destruct Hplain as [W [E1 [E2 [E3 [E4 [E5 E6]]]]]].
  cbn [parse_value app skip_ws]. rewrite W, E1, E2, E3, E4, E5, E6.
  cbn [app] in Hnum. now rewrite Hnum.
Qed.

Lemma parse_members_more (fuel : nat) (k s rest : jsstring) (v : json)
      (ms : list (jsstring * json)) (rest' : jsstring) :
  parse_value fuel s = Some (v, 44%N :: rest) ->
  parse_members fuel rest = Some (ms, rest') ->
  parse_members (S fuel) (34%N :: quote_units k ++ 34%N :: 58%N :: s)
  = Some ((k, v) :: ms, rest').
Proof.
  intros Hv Hms. cbn [parse_members skip_ws]. cbn -[parse_string_body parse_value parse_members].
  rewrite parse_quote_units. cbn -[parse_string_body parse_value parse_members].
  rewrite Hv. cbn -[parse_string_body parse_value parse_members]. now rewrite Hms.
Qed.

Lemma parse_members_last (fuel : nat) (k s rest : jsstring) (v : json) :
  parse_value fuel s = Some (v, 125%N :: rest) ->
  parse_members (S fuel) (34%N :: quote_units k ++ 34%N :: 58%N :: s)
  = Some ([(k, v)], rest).
Proof.
  intros Hv. cbn [parse_members skip_ws]. cbn -[parse_string_body parse_value parse_members].
  rewrite parse_quote_units. cbn -[parse_string_body parse_value parse_members].
  now rewrite Hv.
Qed.

Lemma parse_value_object (fuel : nat) (s rest : jsstring) (ms : list (jsstring * json)) :
  parse_members fuel (34%N :: s) = Some (ms, rest) ->
  parse_value (S fuel) (123%N :: 34%N :: s) = Some (JObject ms, rest).
Proof.
  intros Hms. cbn [parse_value skip_ws]. cbn -[parse_string_body parse_value parse_members].
  now rewrite Hms.
Qed.

Lemma parse_value_payload (fuel : nat) (data key : jsstring) (t : Z) :
  (5 <= fuel)%nat ->
  parse_value fuel (JSON_stringify_payload data key t) = Some (payload data key t, []).
Proof.
  intros Hfuel.
  destruct fuel as [|[|[|[|[|fuel]]]]]; try lia. clear Hfuel.
  unfold JSON_stringify_payload, QuoteJSONString, payload.
  rewrite <- !app_assoc.
  change (js "{") with [123%N]. change (js ":") with [58%N].
  change (js ",") with [44%N]. change (js "}") with [125%N].
  cbn [app].
  apply parse_value_object.
  eapply (parse_members_more _ (js "data")); [apply parse_value_string|].
  eapply (parse_members_more _ (js "key")); [apply parse_value_string|].
  eapply (parse_members_last _ (js "timestamp")).
  apply parse_value_number. cbn. repeat split; discriminate.
Qed.

(** [JSON.parse] reads the payload back. *)
Lemma JSON_parse_payload (msg data key : jsstring) (t : Z) :
  JSON_parse msg (JSON_stringify_payload data key t) = Ok (payload data key t).
Proof.
  unfold JSON_parse. rewrite parse_value_payload; [reflexivity|].
  unfold JSON_stringify_payload. rewrite !length_app. cbn. lia.
Qed.

(** ** The payload is Latin-1 when the plaintext and the key are *)

Lemma latin1_js (s : string) : latin1 (js s).
Proof.
  unfold latin1, js. apply Forall_forall. intros c Hc.
  apply in_map_iff in Hc as [a [<- _]].
  pose proof (N_ascii_bounded a). lia.
Qed.

Lemma latin1_app (a b : jsstring) : latin1 a -> latin1 b -> latin1 (a ++ b).
Proof. unfold latin1. intros Ha Hb. apply Forall_app. now split. Qed.

Lemma hex_digit_bound (n : N) : (n < 16)%N -> (hex_digit n <= 255)%N.
Proof. unfold hex_digit. destruct (n <? 10)%N; lia. Qed.

Lemma latin1_quote_unit (c : N) : (c <= 255)%N -> latin1 (quote_unit c).
Proof.
  intros Hc. unfold quote_unit, latin1.
  repeat match goal with
         | |- context [if ?b then _ else _] => destruct b
         end;
    try (repeat constructor; lia).
  unfold unicode_escape.
  repeat constructor; try lia; apply hex_digit_bound;
    try (apply N.mod_upper_bound; lia).
  apply N.Div0.div_lt_upper_bound. lia.
Qed.

Lemma latin1_quote_units (s : jsstring) : latin1 s -> latin1 (quote_units s).
Proof.
  unfold latin1 at 1. induction 1 as [|c s Hc Hs IH]; [constructor|].
  cbn [quote_units].
  assert (L : is_leading_surrogate c = false).
  { unfold is_leading_surrogate. apply andb_false_iff. left. apply N.leb_gt. lia. }
  assert (T : is_trailing_surrogate c = false).
  { unfold is_trailing_surrogate. apply andb_false_iff. left. apply N.leb_gt. lia. }
  rewrite L, T. apply latin1_app; [now apply latin1_quote_unit|exact IH].
Qed.

Lemma latin1_QuoteJSONString (s : jsstring) : latin1 s -> latin1 (QuoteJSONString s).
Proof.
  intros Hs. unfold QuoteJSONString.
  apply latin1_app; [repeat constructor; lia|].
  apply latin1_app; [now apply latin1_quote_units|repeat constructor; lia].
Qed.

Lemma latin1_payload (data key : jsstring) (t : Z) :
  latin1 data -> latin1 key -> latin1 (JSON_stringify_payload data key t).
Proof.
  intros Hd Hk. unfold JSON_stringify_payload, Number_toString.
  do 12 (apply latin1_app;
         [first [apply latin1_js
                |apply latin1_QuoteJSONString; first [assumption|apply latin1_js]]|]).
  apply latin1_js.
Qed.

(** ** The encryption placeholder *)

Lemma payload_keeps_the_euro_sign (key : jsstring) (t : Z) :
  existsb (fun c => (255 <? c)%N) (JSON_stringify_payload euro key t) = true.
Proof.
  unfold JSON_stringify_payload. rewrite !existsb_app.
  replace (existsb (fun c => (255 <? c)%N) (QuoteJSONString euro)) with true
    by reflexivity.
  now rewrite !orb_true_r.
Qed.

Section Encryption.

Variable toUtf8Bytes : jsstring -> result (list N).
Variable keccak256 : list N -> jsstring.
Variable engine_message : jsstring -> jsstring.

Lemma encryptData_run (data u : jsstring) (w : World) :
  SecurityService.encryptData toUtf8Bytes keccak256 engine_message data u w =
  match toUtf8Bytes (u ++ js "healthchain_key") with
  | Throw e => (Throw e, logged (encryption_failed_event u e) w)
  | Ok bytes =>
      match btoa (engine_message (js "btoa"))
                 (JSON_stringify_payload data (firstn 16 (keccak256 bytes)) (now w)) with
      | Ok encrypted => (Ok encrypted, logged (encrypted_event u) (elapsed 1 w))
      | Throw e => (Throw e, logged (encryption_failed_event u e) (elapsed 1 w))
      end
  end.
Proof.
  unfold SecurityService.encryptData, try_catch, SecurityService.deriveEncryptionKey.
  unfold bind at 2. unfold bind at 2. unfold SecurityService.lift at 1.
  destruct (toUtf8Bytes (u ++ js "healthchain_key")) as [bytes|e]; [|reflexivity].
  unfold ret at 1. unfold bind at 1. unfold Date_now at 1.
  unfold bind at 1. unfold SecurityService.lift at 1.
  change (clock w (ticks w)) with (now w).
  destruct (btoa (engine_message (js "btoa"))
                 (JSON_stringify_payload data (firstn 16 (keccak256 bytes)) (now w)));
    reflexivity.
Qed.

(** C4, at an input on which the code breaks the claim.  The plaintext is
    the euro sign.  [JSON.stringify] copies it into the payload and [btoa]
    throws on it, so [encryptData] fails for every principal in every
    world, after logging "Encryption Failed" as a failed high-risk event,
    and [decrypt(encrypt(m, p), p)] does not return [m]. *)
Theorem encrypt_fails_on_the_euro_sign :
  forall (principal : jsstring) (w : World),
    let run :=
      (c <- SecurityService.encryptData toUtf8Bytes keccak256 engine_message
              euro principal ;;
       SecurityService.decryptData toUtf8Bytes keccak256 engine_message c principal) w in
    (exists e, fst run = Throw e)
    /\ fst run <> Ok (Some (JString euro))
    /\ exists entry,
         auditLogs (snd run) = auditLogs w ++ [entry]
         /\ SecurityAudit.action entry = js "Encryption Failed"
         /\ SecurityAudit.success entry = false
         /\ SecurityAudit.riskLevel entry = high.
Proof.
  intros principal w run.
  assert (H : exists e w',
             SecurityService.encryptData toUtf8Bytes keccak256 engine_message
               euro principal w
             = (Throw e, logged (encryption_failed_event principal e) w')
             /\ auditLogs w' = auditLogs w).
  { rewrite encryptData_run.
    destruct (toUtf8Bytes (principal ++ js "healthchain_key")) as [bytes|e].
    - unfold btoa. rewrite payload_keeps_the_euro_sign.
      eexists. eexists. split; reflexivity.
    - eexists. eexists. split; reflexivity. }
  destruct H as [e [w' [H Hw']]].
  subst run. rewrite (bind_throw _ _ _ _ _ H). cbn [fst snd].
  split; [now exists e|]. split; [discriminate|].
  eexists. cbn [auditLogs logged]. rewrite Hw'. repeat split.
Qed.

Lemma decryptData_of_payload (encrypted text data key u : jsstring) (t : Z) (w : World) :
  atob (engine_message (js "atob")) encrypted = Ok text ->
  JSON_parse (engine_message (js "JSON.parse")) text = Ok (payload data key t) ->
  SecurityService.decryptData toUtf8Bytes keccak256 engine_message encrypted u w =
  match toUtf8Bytes (u ++ js "healthchain_key") with
  | Throw e => (Throw DecryptionFailed, logged (decryption_failed_event u e) w)
  | Ok bytes =>
      if str_eqb key (firstn 16 (keccak256 bytes))
      then (Ok (Some (JString data)), logged (decrypted_event u) w)
      else (Throw DecryptionFailed,
            logged (decryption_failed_event u (Error (js "Invalid decryption key"))) w)
  end.
Proof.
  intros Hatob Hparse.
  unfold SecurityService.decryptData, try_catch, SecurityService.deriveEncryptionKey,
    bind, SecurityService.lift, ret, throw.
  rewrite Hatob, Hparse.
  destruct (toUtf8Bytes (u ++ js "healthchain_key")) as [bytes|e]; [|reflexivity].
  unfold payload, get_property, lookup.
  rewrite (str_eqb_refl (js "key")).
  change (str_eqb (js "timestamp") (js "key")) with false.
  change (str_eqb (js "data") (js "key")) with false.
  change (str_eqb (js "timestamp") (js "data")) with false.
  change (str_eqb (js "key") (js "data")) with false.
  rewrite (str_eqb_refl (js "data")).
  unfold strict_neq_string.
  destruct (str_eqb key (firstn 16 (keccak256 bytes))); reflexivity.
Qed.

Lemma encrypt_then_decrypt (m a b : jsstring) (bytes : list N) (w : World) :
  toUtf8Bytes (a ++ js "healthchain_key") = Ok bytes ->
  latin1 m -> latin1 (firstn 16 (keccak256 bytes)) ->
  exists encrypted w1,
    SecurityService.encryptData toUtf8Bytes keccak256 engine_message m a w
    = (Ok encrypted, w1)
    /\ SecurityService.decryptData toUtf8Bytes keccak256 engine_message encrypted b w1
       = match toUtf8Bytes (b ++ js "healthchain_key") with
         | Throw e => (Throw DecryptionFailed, logged (decryption_failed_event b e) w1)
         | Ok bytes' =>
             if str_eqb (firstn 16 (keccak256 bytes)) (firstn 16 (keccak256 bytes'))
             then (Ok (Some (JString m)), logged (decrypted_event b) w1)
             else (Throw DecryptionFailed,
                   logged (decryption_failed_event b (Error (js "Invalid decryption key")))
                          w1)
         end.
Proof.
  intros Hbytes Hm Hkey.
  set (text := JSON_stringify_payload m (firstn 16 (keccak256 bytes)) (now w)).
  assert (Htext : latin1 text) by (now apply latin1_payload).
  destruct (atob_btoa (engine_message (js "btoa")) (engine_message (js "atob")) text Htext)
    as [Hbtoa Hatob].
  eexists. eexists. split.
  - rewrite encryptData_run, Hbytes. fold text. rewrite Hbtoa. reflexivity.
  - apply (decryptData_of_payload _ text m _ b (now w)); [exact Hatob|].
    apply JSON_parse_payload.
Qed.

(** X22.  The round trip, where the code makes it: a plaintext of Latin-1
    encrypted for a principal decrypts to itself for that principal.  The
    key prefix has to be Latin-1 as well, as a hexadecimal digest is. *)
Theorem decrypt_of_encrypt_latin1 (m u : jsstring) (bytes : list N) (w : World) :
  toUtf8Bytes (u ++ js "healthchain_key") = Ok bytes ->
  latin1 m -> latin1 (firstn 16 (keccak256 bytes)) ->
  fst ((c <- SecurityService.encryptData toUtf8Bytes keccak256 engine_message m u ;;
        SecurityService.decryptData toUtf8Bytes keccak256 engine_message c u) w)
  = Ok (Some (JString m)).
Proof.
  intros Hbytes Hm Hkey.
  destruct (encrypt_then_decrypt m u u bytes w Hbytes Hm Hkey) as [c [w1 [Henc Hdec]]].
  rewrite (bind_run _ _ _ _ _ Henc), Hdec, Hbytes, str_eqb_refl. reflexivity.
Qed.

(** Another principal, one whose derived key differs from the encrypting
    principal's in its first 16 characters, gets DecryptionFailed. *)
Theorem decrypt_by_another_principal (m a b : jsstring) (bytes : list N) (w : World) :
  toUtf8Bytes (a ++ js "healthchain_key") = Ok bytes ->
  latin1 m -> latin1 (firstn 16 (keccak256 bytes)) ->
  (forall bytes', toUtf8Bytes (b ++ js "healthchain_key") = Ok bytes' ->
                  firstn 16 (keccak256 bytes') <> firstn 16 (keccak256 bytes)) ->
  fst ((c <- SecurityService.encryptData toUtf8Bytes keccak256 engine_message m a ;;
        SecurityService.decryptData toUtf8Bytes keccak256 engine_message c b) w)
  = Throw DecryptionFailed.
Proof.
  intros Hbytes Hm Hkey Hother.
  destruct (encrypt_then_decrypt m a b bytes w Hbytes Hm Hkey) as [c [w1 [Henc Hdec]]].
  rewrite (bind_run _ _ _ _ _ Henc), Hdec.
  destruct (toUtf8Bytes (b ++ js "healthchain_key")) as [bytes'|e]; [|reflexivity].
  rewrite str_eqb_neq; [reflexivity|]. intros E. now apply (Hother bytes').
Qed.

End Encryption.

Lemma decrypt_of_encrypt_latin1_witness :
  fst ((c <- SecurityService.encryptData
               Examples.toUtf8Bytes Examples.digest Examples.engine_message
               (js "caf") (js "alice") ;;
        SecurityService.decryptData
          Examples.toUtf8Bytes Examples.digest Examples.engine_message c (js "alice"))
         busy_world)
  = Ok (Some (JString (js "caf"))).
Proof.
  apply (decrypt_of_encrypt_latin1
           Examples.toUtf8Bytes Examples.digest Examples.engine_message
           (js "caf") (js "alice") (js "alice" ++ js "healthchain_key") busy_world).
  - reflexivity.
  - apply latin1_js.
  - vm_compute. repeat constructor; discriminate.
Defined.

(** The three cases on small inputs, with the stand-ins of the examples. *)
Example round_trip_of_a_note :
  fst ((c <- SecurityService.encryptData
               Examples.toUtf8Bytes Examples.digest Examples.engine_message
               (js "blood group 0, allergy: none") (js "alice") ;;
        SecurityService.decryptData
          Examples.toUtf8Bytes Examples.digest Examples.engine_message c (js "alice"))
         (Examples.fresh_world 1000))
  = Ok (Some (JString (js "blood group 0, allergy: none"))).
Proof. vm_compute. reflexivity. Qed.

Example another_principal_is_refused :
  fst ((c <- SecurityService.encryptData
               Examples.toUtf8Bytes Examples.digest Examples.engine_message
               (js "blood group 0, allergy: none") (js "alice") ;;
        SecurityService.decryptData
          Examples.toUtf8Bytes Examples.digest Examples.engine_message c (js "bob"))
         (Examples.fresh_world 1000))
  = Throw DecryptionFailed.
Proof. vm_compute. reflexivity. Qed.

Example the_euro_sign_is_refused :
  fst (SecurityService.encryptData
         Examples.toUtf8Bytes Examples.digest Examples.engine_message
         euro (js "alice") (Examples.fresh_world 1000))
  = Throw (InvalidCharacterError (js "invalid")).
Proof. vm_compute. reflexivity. Qed.

(** * Further properties *)

(** ** The two collections and their stored copies *)

Lemma in_sync_logged (event : SecurityEvent.t) (w : World) :
  in_sync w -> in_sync (logged event w).
Proof.
  unfold in_sync, logged. cbn. destruct (window w); [|trivial]. cbn. tauto.
Qed.

Lemma in_sync_stored (perms : list AccessPermission.t) (k d : nat) (w : World) :
  in_sync w -> in_sync (stored perms k d w).
Proof.
  unfold in_sync, stored. cbn. destruct (window w); [|trivial]. cbn. tauto.
Qed.

Lemma loadStoredData_in_sync (w : World) :
  in_sync w -> SecurityService.loadStoredData w = (Ok tt, w).
Proof.
  unfold in_sync, SecurityService.loadStoredData, bind, get_window, put_auditLogs,
    put_permissions, ret.
  destruct w as [logs perms [win|] c t r d]; cbn; [|reflexivity].
  intros [[-> | ->] [-> | ->]]; reflexivity.
Qed.

Lemma loadStoredData_loads (w : World) :
  in_sync (snd (SecurityService.loadStoredData w)).
Proof.
  unfold in_sync, SecurityService.loadStoredData, bind, get_window, put_auditLogs,
    put_permissions, ret.
  destruct w as [logs perms [[ua [[sl|] [sp|]]]|] c t r d]; cbn; auto.
Qed.

(** [decryptData] on any input: it returns and logs "Data Decrypted", or
    throws the one error and logs "Decryption Failed" with the message of
    what went wrong. *)
Lemma decryptData_cases toUtf8Bytes keccak256 engine_message
      (encrypted u : jsstring) (w : World) :
  (exists v,
      SecurityService.decryptData toUtf8Bytes keccak256 engine_message encrypted u w
      = (Ok v, logged (decrypted_event u) w))
  \/ (exists e,
         SecurityService.decryptData toUtf8Bytes keccak256 engine_message encrypted u w
         = (Throw DecryptionFailed, logged (decryption_failed_event u e) w)).
Proof.
  unfold SecurityService.decryptData, try_catch, SecurityService.deriveEncryptionKey,
    bind, SecurityService.lift, ret, throw.
  destruct (atob (engine_message (js "atob")) encrypted) as [text|e];
    [|right; now exists e].
  destruct (JSON_parse (engine_message (js "JSON.parse")) text) as [decoded|e];
    [|right; now exists e].
  destruct (toUtf8Bytes (u ++ js "healthchain_key")) as [bytes|e];
    [|right; now exists e].
  destruct (get_property (engine_message (js "null")) decoded (js "key")) as [key|e] eqn:K;
    [|right; now exists e].
  destruct (strict_neq_string key (firstn 16 (keccak256 bytes)));
    [right; now exists (Error (js "Invalid decryption key"))|].
  rewrite logSecurityEvent_run.
  destruct (get_property (engine_message (js "null")) decoded (js "data")) as [data|e] eqn:D.
  - left. now exists data.
  - destruct decoded; discriminate.
Qed.

Lemma aged_refl (l : list AccessPermission.t) : Forall2 aged l l.
Proof. induction l; constructor; [now left|assumption]. Qed.

Lemma grown_refl (l : list AccessPermission.t) : grown l l.
Proof. exists l, []. split; [now rewrite app_nil_r|apply aged_refl]. Qed.

Lemma grown_app (l added : list AccessPermission.t) : grown l (l ++ added).
Proof. exists l, added. split; [reflexivity|apply aged_refl]. Qed.

Lemma aged_update_first (f : AccessPermission.t -> bool) (l : list AccessPermission.t) :
  Forall2 aged l (update_first f (AccessPermission.set_isActive false) l).
Proof.
  induction l as [|x l IH]; simpl; [constructor|].
  destruct (f x); constructor; try (now right); try (now left); [apply aged_refl|exact IH].
Qed.

Lemma grown_update_first (f : AccessPermission.t -> bool) (l : list AccessPermission.t) :
  grown l (update_first f (AccessPermission.set_isActive false) l).
Proof.
  exists (update_first f (AccessPermission.set_isActive false) l), [].
  split; [now rewrite app_nil_r|apply aged_update_first].
Qed.

Lemma aged_trans (p q r : AccessPermission.t) : aged p q -> aged q r -> aged p r.
Proof. unfold aged. intros [->| ->] [->| ->]; auto. Qed.

Lemma Forall2_aged_trans (l1 l2 l3 : list AccessPermission.t) :
  Forall2 aged l1 l2 -> Forall2 aged l2 l3 -> Forall2 aged l1 l3.
Proof.
  intros H. revert l3. induction H as [|x y l1 l2 Hxy H IH]; intros l3 H3;
    inversion H3; subst; constructor; [eapply aged_trans; eassumption|now apply IH].
Qed.

Lemma grown_trans (l1 l2 l3 : list AccessPermission.t) :
  grown l1 l2 -> grown l2 l3 -> grown l1 l3.
Proof.
  intros [k1 [a1 [-> H1]]] [k2 [a2 [-> H2]]].
  apply Forall2_app_inv_l in H2 as [k21 [k22 [H21 [H22 ->]]]].
  exists k21, (k22 ++ a2). split; [now rewrite app_assoc|].
  eapply Forall2_aged_trans; eassumption.
Qed.

Lemma extended_trans (n m : nat) (l1 l2 l3 : list SecurityAudit.t) :
  extended n l1 l2 -> extended m l2 l3 -> extended (n + m) l1 l3.
Proof.
  intros [a1 [-> H1]] [a2 [-> H2]]. exists (a1 ++ a2).
  split; [now rewrite app_assoc|]. rewrite length_app. lia.
Qed.

Lemma left_as_in_sync (w w' : World) : left_as w w' -> in_sync w -> in_sync w'.
Proof.
  intros [|k|event k|event g b r rt ps h|event f] H;
    auto using in_sync_logged, in_sync_stored.
Qed.

Lemma left_as_extended (w w' : World) :
  left_as w w' -> extended 1 (auditLogs w) (auditLogs w').
Proof.
  intros [|k|event k|event g b r rt ps h|event f]; cbn [auditLogs elapsed logged stored].
  - exists []. split; [now rewrite app_nil_r|simpl; lia].
  - exists []. split; [now rewrite app_nil_r|simpl; lia].
  - eexists. split; [reflexivity|simpl; lia].
  - eexists. split; [reflexivity|simpl; lia].
  - eexists. split; [reflexivity|simpl; lia].
Qed.

Lemma left_as_grown (w w' : World) :
  left_as w w' -> grown (permissions w) (permissions w').
Proof.
  intros [|k|event k|event g b r rt ps h|event f]; cbn [permissions elapsed logged stored];
    auto using grown_refl, grown_app, grown_update_first.
Qed.

Lemma perform_left_as toLowerCase toUtf8Bytes keccak256 engine_message
      (c : call) (w : World) :
  in_sync w ->
  left_as w (Calls.perform toLowerCase toUtf8Bytes keccak256 engine_message c w).
Proof.
  intros Hw. destruct c as [data u|encrypted u|g b r rt ps ttl|g pid|u r p|u limit|u
                            |data h|data| u |]; cbn [Calls.perform].
  - rewrite encryptData_run.
    destruct (toUtf8Bytes (u ++ js "healthchain_key")) as [bytes|e]; cbn [snd].
    + destruct (btoa _ _); cbn [snd]; apply left_logged.
    + apply (left_logged w _ 0).
  - destruct (decryptData_cases toUtf8Bytes keccak256 engine_message encrypted u w)
      as [[v ->]|[e ->]]; cbn [snd]; apply (left_logged w _ 0).
  - rewrite grantAccess_run. cbn [snd]. apply left_granted.
  - destruct (find (SecurityService.isOwned g pid) (permissions w)) as [q|] eqn:E.
    + rewrite (revokeAccess_found g pid w q E). cbn [snd].
      apply left_revoked.
    + rewrite (revokeAccess_missing g pid w E). apply left_alone.
  - rewrite checkAccess_run. cbn [snd]. apply left_logged.
  - rewrite getSecurityAuditLogs_run. apply left_alone.
  - rewrite getUserPermissions_run. apply left_later.
  - unfold SecurityService.verifyDataIntegrity, bind, SecurityService.lift, ret.
    destruct (toUtf8Bytes data); apply left_alone.
  - unfold SecurityService.generateDataHash, bind, SecurityService.lift, ret.
    destruct (toUtf8Bytes data); apply left_alone.
  - rewrite calculateSecurityScore_run. apply left_later.
  - rewrite (loadStoredData_in_sync w Hw). apply left_alone.
Qed.

(** From a world in step with its storage, a sequence of calls removes no
    audit entry and no permission. *)
Lemma perform_all_in_sync toLowerCase toUtf8Bytes keccak256 engine_message
      (calls : list call) (w : World) :
  in_sync w ->
  let w' := Calls.perform_all toLowerCase toUtf8Bytes keccak256 engine_message calls w in
  in_sync w'
  /\ extended (List.length calls) (auditLogs w) (auditLogs w')
  /\ grown (permissions w) (permissions w').
Proof.
  revert w. induction calls as [|c calls IH]; intros w Hw; cbn.
  - split; [exact Hw|]. split; [|apply grown_refl].
    exists []. split; [now rewrite app_nil_r|simpl; lia].
  - pose proof (perform_left_as toLowerCase toUtf8Bytes keccak256 engine_message c w Hw)
      as Hc.
    destruct (IH _ (left_as_in_sync _ _ Hc Hw)) as [H1 [H2 H3]].
    split; [exact H1|]. split.
    + apply (extended_trans 1 (List.length calls) _ _ _ (left_as_extended _ _ Hc) H2).
    + exact (grown_trans _ _ _ (left_as_grown _ _ Hc) H3).
Qed.

(** X2.  After the stored data was loaded, no sequence of calls of the
    public methods removes or rewrites anything: the audit log keeps its
    entries and gains at most one per call, at its end; every permission
    stays in its place with all its fields, except that [isActive] may have
    gone from true to false; new permissions come after the old ones. *)
Theorem calls_remove_nothing :
  forall toLowerCase toUtf8Bytes keccak256 engine_message
         (calls : list call) (w : World),
    let loaded := snd (SecurityService.loadStoredData w) in
    let w' :=
      Calls.perform_all toLowerCase toUtf8Bytes keccak256 engine_message calls loaded in
    extended (List.length calls) (auditLogs loaded) (auditLogs w')
    /\ grown (permissions loaded) (permissions w').
Proof.
  intros toLowerCase toUtf8Bytes keccak256 engine_message calls w loaded w'.
  apply (perform_all_in_sync toLowerCase toUtf8Bytes keccak256 engine_message calls loaded).
  apply loadStoredData_loads.
Qed.

(** X3.  A method that logs, called on a new instance before
    [loadStoredData], overwrites what the browser had stored: after one
    [checkAccess] the stored audit log is the one new entry, after one
    [grantAccess] the stored permissions are the one new permission as
    well, whatever the storage held before.  An instance loading afterwards
    finds only these. *)
Theorem a_call_before_loading_overwrites_the_stored_data :
  forall toLowerCase (g b u r : jsstring) (rt : ResourceType) (ps : list Permission)
         (ttl : option Z) (p : Permission) (w : World) (win : Window),
    window w = Some win ->
    let checked := snd (SecurityService.checkAccess toLowerCase u r p (constructed w)) in
    let granted := snd (SecurityService.grantAccess g b r rt ps ttl (constructed w)) in
    (exists e,
        auditLogs (snd (SecurityService.loadStoredData (constructed checked))) = [e])
    /\ (exists e q,
           auditLogs (snd (SecurityService.loadStoredData (constructed granted))) = [e]
           /\ permissions (snd (SecurityService.loadStoredData (constructed granted)))
              = [q]).
Proof.
  intros toLowerCase g b u r rt ps ttl p w win Hwin checked granted.
  subst checked granted. rewrite checkAccess_run, grantAccess_run.
  unfold SecurityService.loadStoredData, bind, get_window, put_auditLogs,
    put_permissions, ret, constructed.
  cbn. rewrite Hwin. cbn. split; [|eauto].
  destruct (access_permissions (localStorage win)); cbn; eauto.
Qed.

Lemma a_call_before_loading_overwrites_the_stored_data_witness :
  let w := returning_visitor in
  let checked :=
    snd (SecurityService.checkAccess Examples.toLowerCase (js "0xabc") (js "rec1") read
                                     (constructed w)) in
  let granted :=
    snd (SecurityService.grantAccess (js "0xabc") (js "0xdef") (js "rec1") record [read]
                                     None (constructed w)) in
  (exists e,
      auditLogs (snd (SecurityService.loadStoredData (constructed checked))) = [e])
  /\ (exists e q,
         auditLogs (snd (SecurityService.loadStoredData (constructed granted))) = [e]
         /\ permissions (snd (SecurityService.loadStoredData (constructed granted)))
            = [q]).
Proof.
  eapply (a_call_before_loading_overwrites_the_stored_data
            Examples.toLowerCase (js "0xabc") (js "0xdef") (js "0xabc") (js "rec1")
            record [read] None read returning_visitor).
  reflexivity.
Defined.

(** ** The encryption placeholder, on every input *)

Lemma btoa_returns (msg s encoded : jsstring) :
  btoa msg s = Ok encoded -> latin1 s /\ encoded = b64_encode s.
Proof.
  unfold btoa. destruct (existsb _ s) eqn:E; [discriminate|].
  intros [= <-]. split; [|reflexivity].
  apply Forall_forall. intros c Hc.
  pose proof (proj1 (existsb_false_forall _ s) E c Hc) as H.
  apply N.ltb_ge in H. exact H.
Qed.

Section EveryInput.

Variable toUtf8Bytes : jsstring -> result (list N).
Variable keccak256 : list N -> jsstring.
Variable engine_message : jsstring -> jsstring.

(** A ciphertext [encryptData] returned is the Base64 text of the payload,
    which had no code unit above U+00FF. *)
Lemma encryptData_returns (m u c : jsstring) (w w1 : World) :
  SecurityService.encryptData toUtf8Bytes keccak256 engine_message m u w = (Ok c, w1) ->
  exists bytes,
    let text := JSON_stringify_payload m (firstn 16 (keccak256 bytes)) (now w) in
    toUtf8Bytes (u ++ js "healthchain_key") = Ok bytes
    /\ latin1 text
    /\ c = b64_encode text
    /\ w1 = logged (encrypted_event u) (elapsed 1 w).
Proof.
  rewrite encryptData_run.
  destruct (toUtf8Bytes (u ++ js "healthchain_key")) as [bytes|e]; [|discriminate].
  destruct (btoa _ _) as [encoded|e] eqn:B; [|discriminate].
  intros [= <- <-]. exists bytes. apply btoa_returns in B as [Htext ->].
  repeat split; assumption.
Qed.

(** X4.  Whatever [encryptData] returned for a principal, [decryptData]
    gives the plaintext back to that principal, in every later state of the
    service and at any later time, and logs "Data Decrypted".  This holds
    for every plaintext on which the encryption did not throw, a lone
    surrogate included. *)
Theorem what_was_encrypted_decrypts :
  forall (m u c : jsstring) (w w1 w2 : World),
    SecurityService.encryptData toUtf8Bytes keccak256 engine_message m u w = (Ok c, w1) ->
    SecurityService.decryptData toUtf8Bytes keccak256 engine_message c u w2
    = (Ok (Some (JString m)), logged (decrypted_event u) w2).
Proof.
  intros m u c w w1 w2 H.
  apply encryptData_returns in H as [bytes [Hbytes [Htext [-> _]]]].
  destruct (atob_btoa (engine_message (js "btoa")) (engine_message (js "atob")) _ Htext)
    as [_ Hatob].
  rewrite (decryptData_of_payload toUtf8Bytes keccak256 engine_message
             _ _ m (firstn 16 (keccak256 bytes)) u (now w) w2 Hatob
             (JSON_parse_payload _ _ _ _)).
  now rewrite Hbytes, str_eqb_refl.
Qed.

(** X5.  [decryptData] compares sixteen characters only.  A ciphertext made
    for the principal [a] decrypts for the principal [b] exactly when the
    keys derived for the two agree in their first 16 characters; otherwise
    [b] gets DecryptionFailed. *)
Theorem decryption_compares_sixteen_characters :
  forall (m a b c : jsstring) (key_a key_b : list N) (w w1 w2 : World),
    SecurityService.encryptData toUtf8Bytes keccak256 engine_message m a w = (Ok c, w1) ->
    toUtf8Bytes (a ++ js "healthchain_key") = Ok key_a ->
    toUtf8Bytes (b ++ js "healthchain_key") = Ok key_b ->
    fst (SecurityService.decryptData toUtf8Bytes keccak256 engine_message c b w2)
    = if str_eqb (firstn 16 (keccak256 key_a)) (firstn 16 (keccak256 key_b))
      then Ok (Some (JString m))
      else Throw DecryptionFailed.
Proof.
  intros m a b c key_a key_b w w1 w2 H Ha Hb.
  apply encryptData_returns in H as [bytes [Hbytes [Htext [-> _]]]].
  rewrite Ha in Hbytes. injection Hbytes as <-.
  destruct (atob_btoa (engine_message (js "btoa")) (engine_message (js "atob")) _ Htext)
    as [_ Hatob].
  rewrite (decryptData_of_payload toUtf8Bytes keccak256 engine_message
             _ _ m (firstn 16 (keccak256 key_a)) b (now w) w2 Hatob
             (JSON_parse_payload _ _ _ _)).
  rewrite Hb. now destruct (str_eqb _ _).
Qed.

(** X6.  The ciphertext is not secret.  Whoever holds what [encryptData]
    returned reads the plaintext from it with [JSON.parse(atob(c)).data],
    and with [.key] the 16 characters that [decryptData] compares; no key
    and no principal is needed. *)
Theorem the_ciphertext_shows_the_plaintext :
  forall (m u c : jsstring) (w w1 w2 : World),
    SecurityService.encryptData toUtf8Bytes keccak256 engine_message m u w = (Ok c, w1) ->
    let field k :=
      (text <- SecurityService.lift (atob (engine_message (js "atob")) c) ;;
       decoded <- SecurityService.lift (JSON_parse (engine_message (js "JSON.parse")) text) ;;
       SecurityService.lift (get_property (engine_message (js "null")) decoded k)) in
    field (js "data") w2 = (Ok (Some (JString m)), w2)
    /\ exists bytes,
         toUtf8Bytes (u ++ js "healthchain_key") = Ok bytes
         /\ field (js "key") w2 = (Ok (Some (JString (firstn 16 (keccak256 bytes)))), w2).
Proof.
  intros m u c w w1 w2 H field.
  apply encryptData_returns in H as [bytes [Hbytes [Htext [-> _]]]].
  destruct (atob_btoa (engine_message (js "btoa")) (engine_message (js "atob")) _ Htext)
    as [_ Hatob].
  subst field. unfold bind, SecurityService.lift. rewrite Hatob, JSON_parse_payload.
  split; [reflexivity|]. exists bytes. split; [exact Hbytes|reflexivity].
Qed.

(** X9.  [verifyDataIntegrity(data, h)] accepts exactly the hash that
    [generateDataHash(data)] returns, compared character by character; the
    two throw on the same data (where [toUtf8Bytes] does), and neither
    writes to the audit log nor changes anything else. *)
Theorem verify_accepts_exactly_the_generated_hash :
  forall (data h : jsstring) (w : World),
    let verified := SecurityService.verifyDataIntegrity toUtf8Bytes keccak256 data h w in
    let generated := SecurityService.generateDataHash toUtf8Bytes keccak256 data w in
    (fst verified = Ok true <-> fst generated = Ok h)
    /\ (forall error, fst verified = Throw error <-> fst generated = Throw error)
    /\ snd verified = w
    /\ snd generated = w.
Proof.
  intros data h w verified generated. subst verified generated.
  unfold SecurityService.verifyDataIntegrity, SecurityService.generateDataHash,
    bind, SecurityService.lift, ret.
  destruct (toUtf8Bytes data) as [bytes|e]; cbn [fst snd].
  - split; [|split; [|split; reflexivity]].
    + split; intros [= H].
      * apply str_eqb_eq in H. now subst.
      * subst. now rewrite str_eqb_refl.
    + intros error. split; discriminate.
  - split; [|split; [|split; reflexivity]].
    + split; discriminate.
    + intros error. split; intros [= ->]; reflexivity.
Qed.

End EveryInput.

Lemma what_was_encrypted_decrypts_witness :
  let w := Examples.fresh_world 1000 in
  let c := b64_encode (JSON_stringify_payload (js "blood group 0")
                                              (firstn 16 (Examples.digest
                                                            (js "alice" ++ js "healthchain_key")))
                                              1000) in
  SecurityService.decryptData Examples.toUtf8Bytes Examples.digest Examples.engine_message
                              c (js "alice") busy_world
  = (Ok (Some (JString (js "blood group 0"))), logged (decrypted_event (js "alice")) busy_world).
Proof.
  eapply (what_was_encrypted_decrypts
            Examples.toUtf8Bytes Examples.digest Examples.engine_message
            (js "blood group 0") (js "alice") _ (Examples.fresh_world 1000)).
  vm_compute. reflexivity.
Defined.

Lemma decryption_compares_sixteen_characters_witness :
  let w := Examples.fresh_world 1000 in
  let c :=
    value [] (SecurityService.encryptData
                Examples.toUtf8Bytes Examples.digest Examples.engine_message
                (js "blood group 0") (js "alice") w) in
  fst (SecurityService.decryptData
         Examples.toUtf8Bytes Examples.digest Examples.engine_message c (js "bob") w)
  = Throw DecryptionFailed.
Proof.
  intros w c.
  refine (eq_trans
            (decryption_compares_sixteen_characters
               Examples.toUtf8Bytes Examples.digest Examples.engine_message
               (js "blood group 0") (js "alice") (js "bob") c
               (js "alice" ++ js "healthchain_key") (js "bob" ++ js "healthchain_key")
               w (snd (SecurityService.encryptData
                         Examples.toUtf8Bytes Examples.digest Examples.engine_message
                         (js "blood group 0") (js "alice") w))
               w _ _ _)
            _).
  - vm_compute. reflexivity.
  - reflexivity.
  - reflexivity.
  - vm_compute. reflexivity.
Defined.

Lemma the_ciphertext_shows_the_plaintext_witness :
  let w := Examples.fresh_world 1000 in
  let c :=
    value [] (SecurityService.encryptData
                Examples.toUtf8Bytes Examples.digest Examples.engine_message
                (js "blood group 0") (js "alice") w) in
  fst ((text <- SecurityService.lift (atob (Examples.engine_message (js "atob")) c) ;;
        decoded <- SecurityService.lift
                     (JSON_parse (Examples.engine_message (js "JSON.parse")) text) ;;
        SecurityService.lift
          (get_property (Examples.engine_message (js "null")) decoded (js "data"))) w)
  = Ok (Some (JString (js "blood group 0"))).
Proof.
  intros w c.
  refine (f_equal fst
            (proj1 (the_ciphertext_shows_the_plaintext
                      Examples.toUtf8Bytes Examples.digest Examples.engine_message
                      (js "blood group 0") (js "alice") c w
                      (snd (SecurityService.encryptData
                              Examples.toUtf8Bytes Examples.digest Examples.engine_message
                              (js "blood group 0") (js "alice") w))
                      w _))).
  vm_compute. reflexivity.
Defined.

(** ** Checks, listings and revocation *)

Lemma filter_all {A : Type} (f : A -> bool) (l : list A) :
  (forall x, In x l -> f x = true) -> filter f l = l.
Proof.
  induction l as [|x l IH]; simpl; [reflexivity|]. intros H.
  rewrite (H x) by now left. f_equal. apply IH. intros y Hy. apply H. now right.
Qed.

Lemma isPermissionOf_revoked toLowerCase (u : jsstring) (t : Z) (q : AccessPermission.t) :
  SecurityService.isPermissionOf toLowerCase u t (AccessPermission.set_isActive false q)
  = false.
Proof.
  unfold SecurityService.isPermissionOf. cbn.
  now rewrite andb_false_r.
Qed.

(** With ids that identify the permissions, a revocation takes the
    permission of that id out of what a filter keeps that keeps no revoked
    permission, and nothing else. *)
Lemma filter_update_first_revoked (f : AccessPermission.t -> bool) (g pid : jsstring)
      (l : list AccessPermission.t) (q : AccessPermission.t) :
  (forall x, f (AccessPermission.set_isActive false x) = false) ->
  NoDup (map AccessPermission.id l) ->
  find (SecurityService.isOwned g pid) l = Some q ->
  filter f (update_first (SecurityService.isOwned g pid)
                         (AccessPermission.set_isActive false) l)
  = filter (fun x => negb (str_eqb (AccessPermission.id x) pid)) (filter f l).
Proof.
  intros Hoff. induction l as [|x l IH]; simpl; [discriminate|].
  intros Hnd Hfind. inversion Hnd as [|? ? Hx Hl]; subst.
  destruct (SecurityService.isOwned g pid x) eqn:E.
  - unfold SecurityService.isOwned in E. apply andb_true_iff in E as [Eid _].
    simpl. rewrite Hoff.
    assert (Hrest : forall y, In y (filter f l) ->
                              negb (str_eqb (AccessPermission.id y) pid) = true).
    { intros y Hy. apply filter_In in Hy as [Hy _].
      apply negb_true_iff, str_eqb_neq. intros Ey. apply Hx.
      apply str_eqb_eq in Eid. rewrite Eid, <- Ey. now apply in_map. }
    destruct (f x); simpl; [rewrite Eid; simpl|]; symmetry; now apply filter_all.
  - assert (Hid : str_eqb (AccessPermission.id x) pid = false).
    { apply str_eqb_neq. intros Ex. apply Hx.
      apply find_some in Hfind as [Hq Hown]. unfold SecurityService.isOwned in Hown.
      apply andb_true_iff in Hown as [Eq _]. apply str_eqb_eq in Eq.
      rewrite Ex, <- Eq. now apply in_map. }
    simpl. destruct (f x); simpl; rewrite ?Hid; simpl; rewrite (IH Hl Hfind); reflexivity.
Qed.

(** X11.  A permission just granted is listed for its granter and for its
    grantee, under any spelling of their addresses that lowers to the same
    string, for as long as it is stored unrevoked and the clock reads less
    than its [expiresAt]; from then on it is listed for nobody.  Its
    [expiresAt] is the clock at the grant plus the hours given, 24 without
    [expiresInHours], wherever that sum is exact in doubles. *)
Theorem a_grant_is_listed_for_both_parties_until_it_expires :
  forall toLowerCase (g b r : jsstring) (rt : ResourceType) (ps : list Permission)
         (ttl : option Z) (w w' : World) (u : jsstring),
    let run := SecurityService.grantAccess g b r rt ps ttl w in
    exists perm,
      fst run = Ok (AccessPermission.id perm)
      /\ In perm (permissions (snd run))
      /\ (exact_in_doubles (later 1 w) (match ttl with Some h => h | None => 24 end) ->
          AccessPermission.expiresAt perm
          = later 1 w + hours (match ttl with Some h => h | None => 24 end))
      /\ (In perm (permissions w') ->
          Spec.same_principal toLowerCase g u = true
          \/ Spec.same_principal toLowerCase b u = true ->
          (In perm (value [] (SecurityService.getUserPermissions toLowerCase u w'))
           <-> now w' < AccessPermission.expiresAt perm))
      /\ (AccessPermission.expiresAt perm <= now w' ->
          ~ In perm (value [] (SecurityService.getUserPermissions toLowerCase u w'))).
Proof.
  intros toLowerCase g b r rt ps ttl w w' u run. subst run.
  rewrite grantAccess_run, getUserPermissions_run. unfold value.
  cbn [fst snd permissions logged stored].
  eexists. split; [reflexivity|]. split; [apply in_or_app; right; now left|].
  split; [intros _; reflexivity|]. split.
  - intros Hin Hu. rewrite filter_In.
    unfold SecurityService.isPermissionOf, Spec.same_principal in *.
    cbn [AccessPermission.granterAddress AccessPermission.granteeAddress
         AccessPermission.isActive AccessPermission.expiresAt new_permission].
    rewrite andb_true_r.
    assert (E : str_eqb (toLowerCase g) (toLowerCase u)
                || str_eqb (toLowerCase b) (toLowerCase u) = true)
      by (apply orb_true_iff; exact Hu).
    rewrite E. cbn [andb]. rewrite Z.ltb_lt. tauto.
  - intros Hexp Hin. apply filter_In in Hin as [_ Hin].
    unfold SecurityService.isPermissionOf in Hin.
    apply andb_true_iff in Hin as [_ Hin]. apply Z.ltb_lt in Hin.
    cbn [AccessPermission.expiresAt new_permission] in *. lia.
Qed.



(** X13.  Where ids identify the stored permissions, a successful
    [revokeAccess] takes the permission of that id out of every
    principal's listing and changes no listing otherwise: what
    [getUserPermissions] returns afterwards is what it would have returned
    at that time without the revocation, less the permission revoked. *)
Theorem a_revoked_permission_leaves_every_listing :
  forall toLowerCase (g pid : jsstring) (w w1 : World) (u : jsstring),
    NoDup (map AccessPermission.id (permissions w)) ->
    SecurityService.revokeAccess g pid w = (Ok tt, w1) ->
    value [] (SecurityService.getUserPermissions toLowerCase u w1)
    = filter (fun q => negb (str_eqb (AccessPermission.id q) pid))
             (value [] (SecurityService.getUserPermissions toLowerCase u (elapsed 2 w))).
Proof.
  intros toLowerCase g pid w w1 u Hnd H.
  destruct (find (SecurityService.isOwned g pid) (permissions w)) as [q|] eqn:E.
  - rewrite (revokeAccess_found g pid w q E) in H. injection H as <-.
    rewrite !getUserPermissions_run. unfold value.
    cbn [fst permissions logged stored elapsed].
    apply (filter_update_first_revoked _ g pid (permissions w) q);
      [apply isPermissionOf_revoked|exact Hnd|exact E].
  - rewrite (revokeAccess_missing g pid w E) in H. discriminate.
Qed.

Lemma a_revoked_permission_leaves_every_listing_witness :
  let w1 := snd (SecurityService.revokeAccess (js "A") (js "perm_0_r00000000") busy_world) in
  value [] (SecurityService.getUserPermissions Examples.toLowerCase (js "c") w1)
  = filter (fun q => negb (str_eqb (AccessPermission.id q) (js "perm_0_r00000000")))
           (value [] (SecurityService.getUserPermissions Examples.toLowerCase (js "c")
                                                         (elapsed 2 busy_world))).
Proof.
  intros w1.
  apply (a_revoked_permission_leaves_every_listing
           Examples.toLowerCase (js "A") (js "perm_0_r00000000") busy_world w1 (js "c")).
  - vm_compute. repeat constructor. intros [].
  - vm_compute. reflexivity.
Defined.

(** ** The score of one principal and the calls of others *)

(** The score of a principal other than the empty string depends on the
    world through that principal's events, that principal's effective
    permissions and the clock only. *)
Lemma score_agrees toLowerCase (v : jsstring) (w1 w2 : World) :
  v <> [] ->
  Spec.events_of toLowerCase v (auditLogs w1) = Spec.events_of toLowerCase v (auditLogs w2) ->
  Spec.effective_permissions_of toLowerCase v (now w1) (permissions w1)
  = Spec.effective_permissions_of toLowerCase v (now w2) (permissions w2) ->
  (forall i, later i w1 = later i w2) ->
  fst (SecurityService.calculateSecurityScore toLowerCase v w1)
  = fst (SecurityService.calculateSecurityScore toLowerCase v w2).
Proof.
  intros Hv Hevents Hperms Hclock. destruct v as [|c v]; [contradiction|].
  rewrite !calculateSecurityScore_run. cbn [fst].
  rewrite !fetched_of_a_principal, !held_by_a_principal, Hevents, Hperms.
  f_equal. f_equal.
  generalize (Spec.most_recent 100 (Spec.events_of toLowerCase (c :: v) (auditLogs w2))).
  intros l. generalize 1%nat.
  induction l as [|e l IH]; intros i; simpl; [reflexivity|].
  now rewrite Hclock, IH.
Qed.

Lemma events_of_app toLowerCase (v : jsstring) (l : list SecurityAudit.t)
      (e : SecurityAudit.t) :
  Spec.same_principal toLowerCase (SecurityAudit.userAddress e) v = false ->
  Spec.events_of toLowerCase v (l ++ [e]) = Spec.events_of toLowerCase v l.
Proof.
  intros H. unfold Spec.events_of. rewrite filter_app. simpl. rewrite H.
  apply app_nil_r.
Qed.

(** X14.  What others do leaves a principal's score alone.  A grant
    between two other principals, an access check of another principal and
    a decryption attempt of another principal (each compared without regard
    to case) leave the score of a principal, other than the empty string,
    what it would have been at that time without the call. *)
Theorem what_others_do_leaves_the_score :
  forall toLowerCase toUtf8Bytes keccak256 engine_message
         (g b v r encrypted : jsstring) (rt : ResourceType) (ps : list Permission)
         (ttl : option Z) (p : Permission) (w : World),
    v <> [] ->
    Spec.same_principal toLowerCase g v = false ->
    Spec.same_principal toLowerCase b v = false ->
    let score_in x := fst (SecurityService.calculateSecurityScore toLowerCase v x) in
    score_in (snd (SecurityService.grantAccess g b r rt ps ttl w)) = score_in (elapsed 5 w)
    /\ score_in (snd (SecurityService.checkAccess toLowerCase g r p w))
       = score_in (elapsed 3 w)
    /\ score_in (snd (SecurityService.decryptData toUtf8Bytes keccak256 engine_message
                                                  encrypted g w))
       = score_in (elapsed 2 w).
Proof.
  intros toLowerCase toUtf8Bytes keccak256 engine_message g b v r encrypted rt ps ttl p w
         Hv Hg Hb score_in.
  subst score_in. cbv beta. split; [|split].
  - rewrite grantAccess_run. cbn [snd]. apply score_agrees; [exact Hv| | |reflexivity].
    + cbn [auditLogs logged stored elapsed]. now apply events_of_app.
    + cbn [permissions logged stored elapsed]. unfold Spec.effective_permissions_of.
      rewrite filter_app. simpl.
      cbn [AccessPermission.granterAddress AccessPermission.granteeAddress new_permission].
      rewrite Hg, Hb. cbn [orb andb]. now rewrite app_nil_r.
  - rewrite checkAccess_run. cbn [snd]. apply score_agrees; [exact Hv| | |reflexivity].
    + cbn [auditLogs logged stored elapsed]. now apply events_of_app.
    + reflexivity.
  - destruct (decryptData_cases toUtf8Bytes keccak256 engine_message encrypted g w)
      as [[x ->]|[e ->]]; cbn [snd];
      (apply score_agrees; [exact Hv| | |reflexivity]);
      try reflexivity; cbn [auditLogs logged stored elapsed]; now apply events_of_app.
Qed.

Lemma what_others_do_leaves_the_score_witness :
  let w := Examples.one_failure in
  let score_in x :=
    fst (SecurityService.calculateSecurityScore Examples.toLowerCase (js "0xabc") x) in
  score_in (snd (SecurityService.grantAccess (js "A") (js "B") (js "rec1") record [read]
                                             None w))
  = score_in (elapsed 5 w)
  /\ score_in (snd (SecurityService.checkAccess Examples.toLowerCase (js "A") (js "rec1")
                                                read w))
     = score_in (elapsed 3 w)
  /\ score_in (snd (SecurityService.decryptData
                      Examples.toUtf8Bytes Examples.digest Examples.engine_message
                      (js "????") (js "A") w))
     = score_in (elapsed 2 w).
Proof.
  intros w.
  apply (what_others_do_leaves_the_score
           Examples.toLowerCase Examples.toUtf8Bytes Examples.digest Examples.engine_message
           (js "A") (js "B") (js "0xabc") (js "rec1") (js "????") record [read] None read w).
  - discriminate.
  - reflexivity.
  - reflexivity.
Defined.

(** ** The order of the audit query *)

Lemma Permutation_insert_desc (x : SecurityAudit.t) (l : list SecurityAudit.t) :
  Permutation (insert_desc x l) (x :: l).
Proof.
  induction l as [|y l IH]; simpl; [apply Permutation_refl|].
  destruct (SecurityAudit.timestamp y <=? SecurityAudit.timestamp x);
    [apply Permutation_refl|].
  eapply perm_trans; [apply perm_skip, IH|apply perm_swap].
Qed.

Lemma Permutation_sort_desc (l : list SecurityAudit.t) : Permutation (sort_desc l) l.
Proof.
  induction l as [|x l IH]; simpl; [constructor|].
  eapply perm_trans; [apply Permutation_insert_desc|now apply perm_skip].
Qed.

(** Entries of one time stamp come out of the sort in the order they went
    in. *)
Lemma sort_desc_ties (t : Z) (l : list SecurityAudit.t) :
  (forall e, In e l -> SecurityAudit.timestamp e = t) -> sort_desc l = l.
Proof.
  induction l as [|x l IH]; simpl; [reflexivity|]. intros H.
  rewrite IH by (intros e He; apply H; now right).
  apply insert_desc_newest. intros y Hy.
  rewrite (H x) by now left. rewrite (H y) by now right. lia.
Qed.

Lemma sort_desc_increasing (l : list SecurityAudit.t) :
  StronglySorted (fun a b => SecurityAudit.timestamp a < SecurityAudit.timestamp b) l ->
  sort_desc l = rev l.
Proof.
  induction 1 as [|x l Hl IH Hx]; simpl; [reflexivity|].
  rewrite IH. clear IH Hl. rewrite Forall_forall in Hx.
  assert (H : forall y, In y (rev l) ->
                        SecurityAudit.timestamp x < SecurityAudit.timestamp y)
    by (intros y Hy; apply Hx; now apply in_rev).
  clear Hx. induction (rev l) as [|y r IH]; simpl; [reflexivity|].
  assert (E : (SecurityAudit.timestamp y <=? SecurityAudit.timestamp x) = false)
    by (apply Z.leb_gt, H; now left).
  rewrite E. f_equal. apply IH. intros z Hz. apply H. now right.
Qed.

Lemma slice0_all {A : Type} (l : list A) (n : Z) : len l <= n -> slice0 l n = l.
Proof.
  intros H. unfold len in H. rewrite slice0_nonneg by lia.
  apply firstn_all2. lia.
Qed.

Lemma length_filter_le {A : Type} (f : A -> bool) (l : list A) :
  (List.length (filter f l) <= List.length l)%nat.
Proof. induction l as [|x l IH]; simpl; [lia|]. destruct (f x); simpl; lia. Qed.

(** X15.  With a limit of at least the length of the audit log,
    [getSecurityAuditLogs] returns every entry asked for exactly once (all
    entries, or those of the principal): its answer is a rearrangement of
    them.  The rearrangement is stable: the entries of any one time stamp
    are in the order in which they were logged, oldest first. *)
Theorem the_query_rearranges_and_is_stable :
  forall toLowerCase (u : option jsstring) (limit : Z) (w : World),
    len (auditLogs w) <= limit ->
    let asked :=
      match u with
      | Some (c :: u') => Spec.events_of toLowerCase (c :: u') (auditLogs w)
      | _ => auditLogs w
      end in
    let answer :=
      value [] (SecurityService.getSecurityAuditLogs toLowerCase u (Some limit) w) in
    Permutation answer asked
    /\ forall t,
         filter (fun e => SecurityAudit.timestamp e =? t) answer
         = filter (fun e => SecurityAudit.timestamp e =? t) asked.
Proof.
  intros toLowerCase u limit w Hlimit asked answer.
  assert (E : answer = sort_desc asked).
  { subst answer asked. rewrite getSecurityAuditLogs_run. unfold value. cbn [fst].
    assert (Hlen : forall f : SecurityAudit.t -> bool,
               len (filter f (sort_desc (auditLogs w))) <= limit).
    { intros f. unfold len in *.
      pose proof (length_filter_le f (sort_desc (auditLogs w))) as H.
      rewrite length_sort_desc in H. lia. }
    destruct u as [[|c u']|].
    - apply slice0_all. unfold len in *. rewrite length_sort_desc. exact Hlimit.
    - rewrite slice0_all by apply Hlen. apply filter_sort_desc.
    - apply slice0_all. unfold len in *. rewrite length_sort_desc. exact Hlimit. }
  rewrite E. split; [apply Permutation_sort_desc|].
  intros t. rewrite filter_sort_desc. apply (sort_desc_ties t).
  intros e He. apply filter_In in He as [_ He]. now apply Z.eqb_eq.
Qed.

Lemma the_query_rearranges_and_is_stable_witness :
  let w := Examples.history_of_X in
  let answer :=
    value [] (SecurityService.getSecurityAuditLogs
                Examples.toLowerCase (Some (js "x")) (Some 6) w) in
  Permutation answer (Spec.events_of Examples.toLowerCase (js "x") (auditLogs w))
  /\ forall t,
       filter (fun e => SecurityAudit.timestamp e =? t) answer
       = filter (fun e => SecurityAudit.timestamp e =? t)
                (Spec.events_of Examples.toLowerCase (js "x") (auditLogs w)).
Proof.
  intros w.
  apply (the_query_rearranges_and_is_stable
           Examples.toLowerCase (Some (js "x")) 6 Examples.history_of_X).
  vm_compute. discriminate.
Defined.

(** X16.  While the clock moves forward between any two entries (the time
    stamps strictly increase along the log), the query without a principal
    returns the log backwards, cut to the limit: the last entry logged
    comes first. *)
Theorem the_query_returns_the_log_backwards :
  forall toLowerCase (u : option jsstring) (limit : Z) (w : World),
    StronglySorted (fun a b => SecurityAudit.timestamp a < SecurityAudit.timestamp b)
                   (auditLogs w) ->
    0 <= limit ->
    (u = None \/ u = Some []) ->
    SecurityService.getSecurityAuditLogs toLowerCase u (Some limit) w
    = (Ok (firstn (Z.to_nat limit) (rev (auditLogs w))), w).
Proof.
  intros toLowerCase u limit w Hsorted Hlimit Hu.
  rewrite getSecurityAuditLogs_run.
  rewrite <- (sort_desc_increasing _ Hsorted).
  destruct Hu as [-> | ->]; now rewrite slice0_nonneg.
Qed.

Lemma the_query_returns_the_log_backwards_witness :
  SecurityService.getSecurityAuditLogs Examples.toLowerCase None (Some 4)
                                       Examples.history_of_X
  = (Ok (firstn 4 (rev (auditLogs Examples.history_of_X))), Examples.history_of_X).
Proof.
  apply (the_query_returns_the_log_backwards
           Examples.toLowerCase None 4 Examples.history_of_X).
  - vm_compute. repeat constructor.
  - discriminate.
  - now left.
Defined.

(** ** The dashboard *)

Ltac bands :=
  repeat match goal with
         | |- context [?a <=? ?b] => destruct (Z.leb_spec a b)
         | |- context [?a <? ?b] => destruct (Z.ltb_spec a b)
         end;
  repeat split; intros;
  repeat match goal with
         | H : _ /\ _ |- _ => destruct H
         end;
  try reflexivity; try lia;
  match goal with
  | H : _ = _ |- _ => vm_compute in H; discriminate H
  end.

(** X17.  The dashboard shows the score with a colour, a label, a
    description and an alert, each from thresholds of its own.  For every
    score they agree on the bands from 90 and below 70: green, "Secure" and
    "Excellent security posture" go together, and so do red, "At Risk" and
    the alert.  They disagree on the word Moderate: the label "Moderate"
    stands for 70 to 89, where the description reads "Good security with
    room for improvement", and the description "Moderate security - action
    recommended" stands for 50 to 69, where the label reads "At Risk". *)
Theorem the_bands_of_the_dashboard :
  forall score : Z,
    (SecurityDashboard.getSecurityScoreColor score = js "text-green-600"
     <-> SecurityDashboard.statusLabel score = js "Secure")
    /\ (SecurityDashboard.statusLabel score = js "Secure"
        <-> SecurityDashboard.getSecurityScoreDescription score
            = js "Excellent security posture")
    /\ (SecurityDashboard.showsAlert score = true
        <-> SecurityDashboard.getSecurityScoreColor score = js "text-red-600")
    /\ (SecurityDashboard.showsAlert score = true
        <-> SecurityDashboard.statusLabel score = js "At Risk")
    /\ (SecurityDashboard.statusLabel score = js "Moderate"
        <-> SecurityDashboard.getSecurityScoreDescription score
            = js "Good security with room for improvement")
    /\ (SecurityDashboard.getSecurityScoreDescription score
        = js "Moderate security - action recommended"
        <-> SecurityDashboard.statusLabel score = js "At Risk" /\ 50 <= score).
Proof.
  intros score.
  unfold SecurityDashboard.getSecurityScoreColor, SecurityDashboard.statusLabel,
    SecurityDashboard.getSecurityScoreDescription, SecurityDashboard.showsAlert.
  bands.
Qed.

(** X18.  [getTimeAgo] for every time stamp and every reading of the
    clock.  A time stamp less than a minute old, and every time stamp in
    the future, reads "Just now"; otherwise the age is given in the largest
    unit of minutes, hours and days that it fills, rounded down, singular
    for exactly one unit. *)
Theorem time_ago_of_every_time_stamp :
  forall (timestamp : Z) (w : World),
    let age := now w - timestamp in
    let text := value [] (SecurityDashboard.getTimeAgo timestamp w) in
    (age < 60000 -> text = js "Just now")
    /\ (60000 <= age < 120000 -> text = js "1 minute ago")
    /\ (120000 <= age < 3600000 ->
        text = Number_toString (age / 60000) ++ js " minutes ago")
    /\ (3600000 <= age < 7200000 -> text = js "1 hour ago")
    /\ (7200000 <= age < 86400000 ->
        text = Number_toString (age / 3600000) ++ js " hours ago")
    /\ (86400000 <= age < 172800000 -> text = js "1 day ago")
    /\ (172800000 <= age -> text = Number_toString (age / 86400000) ++ js " days ago").
Proof.
  intros timestamp w age text. subst text.
  unfold SecurityDashboard.getTimeAgo, value, bind, Date_now, ret. cbn [fst].
  change (clock w (ticks w) - timestamp) with age.
  change (1000 * 60 * 60 * 24) with 86400000.
  change (1000 * 60 * 60) with 3600000.
  change (1000 * 60) with 60000.
  generalize age. clear. intros age.
  pose proof (Z.div_mod age 86400000 ltac:(lia)) as Ed.
  pose proof (Z.mod_pos_bound age 86400000 ltac:(lia)) as Bd.
  pose proof (Z.div_mod age 3600000 ltac:(lia)) as Eh.
  pose proof (Z.mod_pos_bound age 3600000 ltac:(lia)) as Bh.
  pose proof (Z.div_mod age 60000 ltac:(lia)) as Em.
  pose proof (Z.mod_pos_bound age 60000 ltac:(lia)) as Bm.
  repeat split; intros H;
    destruct (Z.ltb_spec 0 (age / 86400000)); try lia;
    destruct (Z.ltb_spec 1 (age / 86400000)); try lia;
    try (replace (age / 86400000) with 1 by lia; reflexivity);
    try reflexivity;
    destruct (Z.ltb_spec 0 (age / 3600000)); try lia;
    destruct (Z.ltb_spec 1 (age / 3600000)); try lia;
    try (replace (age / 3600000) with 1 by lia; reflexivity);
    try reflexivity;
    destruct (Z.ltb_spec 0 (age / 60000)); try lia;
    destruct (Z.ltb_spec 1 (age / 60000)); try lia;
    try (replace (age / 60000) with 1 by lia; reflexivity);
    reflexivity.
Qed.

(** ** The spelling of an address *)

(** X19.  Two spellings of an address that lower to the same string get the
    same answers: the same result of every access check and the same
    listing of permissions and, where neither is the empty string, the same
    answer of the audit query and the same score. *)
Theorem the_spelling_of_an_address_does_not_matter :
  forall toLowerCase (u u' r : jsstring) (p : Permission) (limit : option Z) (w : World),
    toLowerCase u = toLowerCase u' ->
    fst (SecurityService.checkAccess toLowerCase u r p w)
    = fst (SecurityService.checkAccess toLowerCase u' r p w)
    /\ SecurityService.getUserPermissions toLowerCase u w
       = SecurityService.getUserPermissions toLowerCase u' w
    /\ (u <> [] -> u' <> [] ->
        SecurityService.getSecurityAuditLogs toLowerCase (Some u) limit w
        = SecurityService.getSecurityAuditLogs toLowerCase (Some u') limit w
        /\ SecurityService.calculateSecurityScore toLowerCase u w
           = SecurityService.calculateSecurityScore toLowerCase u' w).
Proof.
  intros toLowerCase u u' r p limit w H.
  assert (Hlogs : forall limit,
             u <> [] -> u' <> [] ->
             SecurityService.getSecurityAuditLogs toLowerCase (Some u) limit w
             = SecurityService.getSecurityAuditLogs toLowerCase (Some u') limit w).
  { intros n Hu Hu'. rewrite !getSecurityAuditLogs_run.
    destruct u as [|c u]; [contradiction|]. destruct u' as [|c' u']; [contradiction|].
    unfold SecurityService.isLogOf. now rewrite H. }
  assert (Hperms : SecurityService.getUserPermissions toLowerCase u w
                   = SecurityService.getUserPermissions toLowerCase u' w).
  { rewrite !getUserPermissions_run. unfold SecurityService.isPermissionOf.
    now rewrite H. }
  split; [|split; [exact Hperms|]].
  - rewrite !checkAccess_run. cbn [fst]. unfold SecurityService.isValidPermission.
    now rewrite H.
  - intros Hu Hu'. split; [now apply Hlogs|].
    rewrite !calculateSecurityScore_run. now rewrite Hperms, (Hlogs (Some 100) Hu Hu').
Qed.

Lemma the_spelling_of_an_address_does_not_matter_witness :
  let w := busy_world in
  fst (SecurityService.checkAccess Examples.toLowerCase (js "C") (js "rec2") read w)
  = fst (SecurityService.checkAccess Examples.toLowerCase (js "c") (js "rec2") read w)
  /\ SecurityService.getUserPermissions Examples.toLowerCase (js "C") w
     = SecurityService.getUserPermissions Examples.toLowerCase (js "c") w
  /\ (js "C" <> [] -> js "c" <> [] ->
      SecurityService.getSecurityAuditLogs Examples.toLowerCase (Some (js "C")) None w
      = SecurityService.getSecurityAuditLogs Examples.toLowerCase (Some (js "c")) None w
      /\ SecurityService.calculateSecurityScore Examples.toLowerCase (js "C") w
         = SecurityService.calculateSecurityScore Examples.toLowerCase (js "c") w).
Proof.
  apply (the_spelling_of_an_address_does_not_matter
           Examples.toLowerCase (js "C") (js "c") (js "rec2") read None busy_world).
  reflexivity.
Defined.

(** ** The ids of the permissions *)

Lemma digits_without_underscore (d : Decimal.uint) : ~ In 95%N (digits_of d).
Proof.
  unfold digits_of. induction d; cbn [NilEmpty.string_of_uint]; rewrite ?js_String;
    try (intros [H|H]; [discriminate H|exact (IHd H)]).
  intros [].
Qed.

Lemma Number_toString_without_underscore (t : Z) : ~ In 95%N (Number_toString t).
Proof.
  unfold Number_toString.
  assert (U : forall d, ~ In 95%N (js (NilZero.string_of_uint d))).
  { intros d. destruct d; try apply (digits_without_underscore _).
    intros [H|[]]. discriminate H. }
  destruct (Z.to_int t) as [d|d]; cbn [NilZero.string_of_int]; [apply U|].
  rewrite js_String. intros [H|H]; [discriminate H|exact (U d H)].
Qed.

(** A text is cut at its first underscore in one way only. *)
Lemma cut_at_the_underscore (a1 a2 r1 r2 : jsstring) :
  ~ In 95%N a1 -> ~ In 95%N a2 ->
  a1 ++ 95%N :: r1 = a2 ++ 95%N :: r2 -> a1 = a2 /\ r1 = r2.
Proof.
  revert a2. induction a1 as [|x a1 IH]; intros [|y a2] H1 H2 E; simpl in E.
  - injection E as ->. now split.
  - injection E as <- _. exfalso. apply H2. now left.
  - injection E as -> _. exfalso. apply H1. now left.
  - injection E as -> E.
    destruct (IH a2) as [-> ->]; [intros H; apply H1; now right
                                 |intros H; apply H2; now right|exact E|now split].
Qed.

(** Two ids made by [grantAccess] are the same only if the random parts
    are. *)
Lemma same_id_same_draw (t1 t2 : Z) (r1 r2 : jsstring) :
  js "perm_" ++ Number_toString t1 ++ js "_" ++ r1
  = js "perm_" ++ Number_toString t2 ++ js "_" ++ r2 ->
  r1 = r2.
Proof.
  intros E. apply app_inv_head in E.
  apply (cut_at_the_underscore _ _ r1 r2) in E;
    [tauto|apply Number_toString_without_underscore..].
Qed.

Lemma map_id_update_first (f : AccessPermission.t -> bool) (l : list AccessPermission.t) :
  map AccessPermission.id (update_first f (AccessPermission.set_isActive false) l)
  = map AccessPermission.id l.
Proof.
  induction l as [|x l IH]; simpl; [reflexivity|].
  destruct (f x); simpl; [reflexivity|now rewrite IH].
Qed.

Lemma left_as_draws (w w' : World) :
  left_as w w' -> random w' = random w /\ (draws w <= draws w')%nat.
Proof.
  intros [|k|event k|event g b r rt ps h|event f]; cbn [random draws elapsed logged stored];
    split; try reflexivity; lia.
Qed.

Lemma perform_all_draws toLowerCase toUtf8Bytes keccak256 engine_message
      (calls : list call) (w : World) :
  in_sync w ->
  let w' := Calls.perform_all toLowerCase toUtf8Bytes keccak256 engine_message calls w in
  random w' = random w /\ (draws w <= draws w')%nat.
Proof.
  revert w. induction calls as [|c calls IH]; intros w Hw; unfold Calls.perform_all;
    cbn [fold_left]; [split; [reflexivity|lia]|].
  pose proof (perform_left_as toLowerCase toUtf8Bytes keccak256 engine_message c w Hw)
    as Hc.
  destruct (left_as_draws _ _ Hc) as [Hr Hd].
  destruct (IH _ (left_as_in_sync _ _ Hc Hw)) as [Hr' Hd'].
  unfold Calls.perform_all in Hr', Hd'.
  split; [now rewrite Hr'|lia].
Qed.

Lemma left_as_numbered (w w' : World) :
  (forall i j, (i < draws w')%nat -> (j < draws w')%nat ->
               random w i = random w j -> i = j) ->
  left_as w w' -> numbered w -> numbered w'.
Proof.
  intros Hinj Hc [Hnd Hids].
  destruct Hc as [|k|event k|event g b r rt ps h|event f];
    unfold numbered; cbn [permissions random draws elapsed logged stored] in *.
  - now split.
  - now split.
  - split; [exact Hnd|]. intros q Hq. destruct (Hids q Hq) as [t [k' [Hk E]]].
    exists t, k'. split; [lia|exact E].
  - split.
    + rewrite map_app. cbn [map AccessPermission.id new_permission].
      apply NoDup_app; [exact Hnd|repeat constructor; intros []|].
      intros x Hx [<-|[]]. apply in_map_iff in Hx as [q [E Hq]].
      destruct (Hids q Hq) as [t [k [Hk E']]]. rewrite E' in E.
      apply same_id_same_draw in E. apply Hinj in E; lia.
    + intros q Hq. apply in_app_or in Hq as [Hq|[<-|[]]].
      * destruct (Hids q Hq) as [t [k [Hk E]]]. exists t, k. split; [lia|exact E].
      * exists (now w), (draws w). split; [lia|reflexivity].
  - rewrite map_id_update_first. split; [exact Hnd|].
    intros q Hq.
    assert (Hid : In (AccessPermission.id q) (map AccessPermission.id (permissions w))).
    { rewrite <- (map_id_update_first f). now apply in_map. }
    apply in_map_iff in Hid as [q' [E Hq']].
    destruct (Hids q' Hq') as [t [k [Hk E']]]. exists t, k. split; [lia|congruence].
Qed.

(** X20.  Ids identify the permissions.  Let the service start without
    permissions and serve any sequence of calls.  If the generator returned
    no string twice among the draws made, then no two stored permissions
    have the same id: the time stamp and the random part can be told apart
    in an id, since the decimal text of a number has no underscore. *)
Theorem ids_identify_the_permissions :
  forall toLowerCase toUtf8Bytes keccak256 engine_message
         (calls : list call) (w : World),
    let w' := Calls.perform_all toLowerCase toUtf8Bytes keccak256 engine_message calls w in
    permissions w = [] ->
    in_sync w ->
    (forall i j, (i < draws w')%nat -> (j < draws w')%nat ->
                 random w i = random w j -> i = j) ->
    NoDup (map AccessPermission.id (permissions w')).
Proof.
  intros toLowerCase toUtf8Bytes keccak256 engine_message calls w w' Hempty Hsync Hinj.
  assert (H0 : numbered w).
  { unfold numbered. rewrite Hempty. split; [constructor|intros q []]. }
  clear Hempty. subst w'. revert w Hsync Hinj H0.
  induction calls as [|c calls IH]; intros w Hsync Hinj H0;
    unfold Calls.perform_all in *; cbn [fold_left] in *; [apply H0|].
  pose proof (perform_left_as toLowerCase toUtf8Bytes keccak256 engine_message c w Hsync)
    as Hc.
  pose proof (left_as_in_sync _ _ Hc Hsync) as Hsync'.
  destruct (left_as_draws _ _ Hc) as [Hr Hd].
  destruct (perform_all_draws toLowerCase toUtf8Bytes keccak256 engine_message calls _ Hsync')
    as [_ Hd'].
  unfold Calls.perform_all in Hd'.
  apply IH.
  - exact Hsync'.
  - rewrite Hr. exact Hinj.
  - apply (left_as_numbered w); [|exact Hc|exact H0].
    intros i j Hi Hj. apply Hinj; lia.
Qed.

Lemma ids_identify_the_permissions_witness :
  NoDup (map AccessPermission.id
             (permissions
                (Calls.perform_all
                   Examples.toLowerCase Examples.toUtf8Bytes Examples.digest
                   Examples.engine_message
                   [GrantAccess (js "A") (js "B") (js "rec1") record [read] None;
                    GrantAccess (js "A") (js "C") (js "rec1") record [read] None]
                   (Examples.fresh_world 1000)))).
Proof.
  apply (ids_identify_the_permissions
           Examples.toLowerCase Examples.toUtf8Bytes Examples.digest Examples.engine_message
           [GrantAccess (js "A") (js "B") (js "rec1") record [read] None;
            GrantAccess (js "A") (js "C") (js "rec1") record [read] None]
           (Examples.fresh_world 1000)).
  - reflexivity.
  - exact I.
  - intros i j Hi Hj. vm_compute in Hi, Hj.
    do 4 (destruct i as [|i]; [do 4 (destruct j as [|j]; [vm_compute; congruence|]); lia|]).
    lia.
Defined.

(** ** What the dashboard loads *)

(** X21.  Once [loadStoredData] has returned, with the two collections
    arrays of audit entries and of permissions as the service saves them,
    the other calls of [loadSecurityData] cannot fail and log nothing.  For
    an address that is not empty they all return: the score shown is
    between 0 and 100; the
    audit entries shown are at most 20, all of that address (without regard
    to case), the most recent first; the permissions shown are active ones
    that name the address as granter or grantee; and the audit log and the
    permissions stay as [loadStoredData] left them.  So the catch branch of
    [loadSecurityData] is reached from [loadStoredData] only. *)
Theorem the_dashboard_reads_without_failing :
  forall toLowerCase (address : jsstring) (w loaded : World),
    address <> [] ->
    SecurityService.loadStoredData w = (Ok tt, loaded) ->
    exists score logs userPermissions w',
      SecurityDashboard.loadSecurityData toLowerCase address w
      = (Ok (score, logs, userPermissions), w')
      /\ 0 <= score <= 100
      /\ len logs <= 20
      /\ newest_first logs
      /\ (forall e, In e logs ->
                    Spec.same_principal toLowerCase (SecurityAudit.userAddress e) address
                    = true)
      /\ (forall q, In q userPermissions ->
                    AccessPermission.isActive q = true
                    /\ (Spec.same_principal toLowerCase (AccessPermission.granterAddress q)
                                            address = true
                        \/ Spec.same_principal toLowerCase (AccessPermission.granteeAddress q)
                                               address = true))
      /\ auditLogs w' = auditLogs loaded
      /\ permissions w' = permissions loaded.
Proof.
  intros toLowerCase address w w0 Ha Hload. destruct address as [|c a]; [contradiction|].
  unfold SecurityDashboard.loadSecurityData.
  rewrite (bind_run _ _ _ _ _ Hload).
  rewrite (bind_run _ _ _ _ _ (calculateSecurityScore_run toLowerCase (c :: a) w0)).
  rewrite (bind_run _ _ _ _ _ (getSecurityAuditLogs_run toLowerCase (Some (c :: a))
                                                         (Some 20) _)).
  rewrite (bind_run _ _ _ _ _ (getUserPermissions_run toLowerCase (c :: a) _)).
  unfold ret. eexists. eexists. eexists. eexists. split; [reflexivity|].
  split; [apply score_of_range|].
  rewrite slice0_nonneg by lia. cbn [auditLogs permissions elapsed].
  split; [|split; [|split; [|split; [|split; reflexivity]]]].
  - unfold len. pose proof (firstn_le_length (Z.to_nat 20)
      (filter (SecurityService.isLogOf toLowerCase (c :: a)) (sort_desc (auditLogs w0)))).
    lia.
  - apply newest_first_firstn. rewrite filter_sort_desc. apply newest_first_sort.
  - intros e He. apply In_firstn in He. apply filter_In in He as [_ He]. exact He.
  - intros q Hq. apply filter_In in Hq as [_ Hq].
    unfold SecurityService.isPermissionOf in Hq.
    apply andb_true_iff in Hq as [Hq _]. apply andb_true_iff in Hq as [Hq Hactive].
    split; [exact Hactive|]. apply orb_true_iff in Hq. exact Hq.
Qed.

Lemma the_dashboard_reads_without_failing_witness :
  exists score logs userPermissions w',
    SecurityDashboard.loadSecurityData Examples.toLowerCase (js "0xABC") returning_visitor
    = (Ok (score, logs, userPermissions), w')
    /\ 0 <= score <= 100
    /\ len logs <= 20
    /\ newest_first logs
    /\ (forall e, In e logs ->
                  Spec.same_principal Examples.toLowerCase (SecurityAudit.userAddress e)
                                      (js "0xABC")
                  = true)
    /\ (forall q, In q userPermissions ->
                  AccessPermission.isActive q = true
                  /\ (Spec.same_principal Examples.toLowerCase
                                          (AccessPermission.granterAddress q) (js "0xABC")
                      = true
                      \/ Spec.same_principal Examples.toLowerCase
                                             (AccessPermission.granteeAddress q) (js "0xABC")
                         = true))
    /\ auditLogs w' = auditLogs (snd (SecurityService.loadStoredData returning_visitor))
    /\ permissions w' = permissions (snd (SecurityService.loadStoredData returning_visitor)).
Proof.
  apply (the_dashboard_reads_without_failing
           Examples.toLowerCase (js "0xABC") returning_visitor
           (snd (SecurityService.loadStoredData returning_visitor))).
  - discriminate.
  - reflexivity.
Defined.

(** ** A store that may refuse *)




Section RefusingStore.

Variable toLowerCase : jsstring -> jsstring.
Variable toUtf8Bytes : jsstring -> result (list N).
Variable keccak256 : list N -> jsstring.
Variable engine_message : jsstring -> jsstring.
Variable refuses : World -> option exn.









End RefusingStore.

(** A check in a browser whose store is full: the entry is pushed, the
    check throws the exception of the store, and the store is as it was. *)
Example a_full_store_fails_the_check :
  let run :=
    Refusing.checkAccess Examples.toLowerCase full_store (js "0xabc") (js "rec1") read
                         returning_visitor in
  fst run = Throw (mkExn (js "QuotaExceededError") (js "The quota has been exceeded."))
  /\ List.length (auditLogs (snd run)) = 1%nat
  /\ window (snd run) = window returning_visitor.
Proof. vm_compute. repeat split. Qed.

(** A decryption that would succeed, in that browser: the entry of the
    success is pushed and refused, the entry of the failure is pushed and
    refused, and the exception of the store is what the caller gets. *)
Example a_full_store_fails_the_decryption :
  let w := returning_visitor in
  let c :=
    value [] (SecurityService.encryptData
                Examples.toUtf8Bytes Examples.digest Examples.engine_message
                (js "blood group 0") (js "alice") w) in
  let run :=
    Refusing.decryptData Examples.toUtf8Bytes Examples.digest Examples.engine_message
                         full_store c (js "alice") w in
  fst run = Throw (mkExn (js "QuotaExceededError") (js "The quota has been exceeded."))
  /\ map SecurityAudit.action (auditLogs (snd run))
     = [js "Data Decrypted"; js "Decryption Failed"]
  /\ window (snd run) = window returning_visitor.
Proof. vm_compute. repeat split. Qed.

(** ** Saving and loading *)

Lemma json_induction (P : json -> Prop) :
  P JNull -> (forall b, P (JBool b)) -> (forall l, P (JNumber l)) ->
  (forall s, P (JString s)) ->
  (forall elements, Forall P elements -> P (JArray elements)) ->
  (forall members, Forall (fun m => P (snd m)) members -> P (JObject members)) ->
  forall v, P v.
Proof.
  intros Hnull Hbool Hnumber Hstring Harray Hobject.
  fix IH 1. intros [|b|l|s|elements|members].
  - exact Hnull.
  - apply Hbool.
  - apply Hnumber.
  - apply Hstring.
  - apply Harray.
    induction elements as [|x l IHl]; [constructor|].
    constructor; [apply IH|exact IHl].
  - apply Hobject.
    induction members as [|m l IHl]; [constructor|].
    constructor; [apply IH|exact IHl].
Qed.

Lemma weight_array (l : list json) : weight (JArray l) = S (weights l).
Proof. reflexivity. Qed.

Lemma weight_object (l : list (jsstring * json)) : weight (JObject l) = S (member_weights l).
Proof.
  cbn [weight]. f_equal. induction l as [|[k x] l IH]; [reflexivity|].
  cbn [member_weights fold_right snd]. f_equal. f_equal. exact IH.
Qed.

Lemma whole_array (l : list json) : whole (JArray l) <-> Forall whole l.
Proof.
  cbn [whole]. induction l as [|x l IH].
  - split; [constructor|trivial].
  - rewrite IH. split.
    + intros [Hx Hl]. now constructor.
    + intros H. inversion H. now split.
Qed.

Lemma whole_object (l : list (jsstring * json)) :
  whole (JObject l) <-> Forall (fun m => whole (snd m)) l.
Proof.
  cbn [whole]. induction l as [|[k x] l IH].
  - split; [constructor|trivial].
  - rewrite IH. split.
    + intros [Hx Hl]. now constructor.
    + intros H. inversion H. now split.
Qed.

Lemma join_more (sep p q : jsstring) (rest : list jsstring) :
  join sep (p :: q :: rest) = p ++ sep ++ join sep (q :: rest).
Proof. reflexivity. Qed.

(** What [JSON.stringify] writes starts with no white space and with no
    closing bracket. *)
Lemma JSON_stringify_head (v : json) :
  whole v ->
  exists c tail,
    JSON_stringify v = c :: tail
    /\ is_json_whitespace c = false /\ (c =? 93)%N = false /\ (c =? 125)%N = false.
Proof.
  destruct v as [|[|]|l|s|elements|members]; intros H;
    try (eexists; eexists; split; [reflexivity|]; repeat split).
  destruct H as [z ->]. destruct (Number_toString_head z) as [c [tail [E Hc]]].
  exists c, tail. split; [exact E|].
  destruct Hc as [->|Hc]; [repeat split|].
  unfold is_digit in Hc. apply andb_true_iff in Hc as [H1 H2].
  apply N.leb_le in H1, H2. unfold is_json_whitespace.
  rewrite !orb_false_iff. repeat split; apply N.eqb_neq; lia.
Qed.

Lemma skip_ws_head (c : N) (tail : jsstring) :
  is_json_whitespace c = false -> skip_ws (c :: tail) = c :: tail.
Proof. intros H. cbn [skip_ws]. now rewrite H. Qed.

Lemma ends_number_closing (c : N) (rest : jsstring) :
  c = 44%N \/ c = 93%N \/ c = 125%N -> ends_number (c :: rest).
Proof. intros [->|[->| ->]]; cbn; repeat split; discriminate. Qed.

Lemma parse_elements_stringify (l : list json) (x : json) :
  Forall read_back (x :: l) -> Forall whole (x :: l) ->
  forall (fuel : nat) (rest : jsstring),
    (weights (x :: l) <= fuel)%nat ->
    parse_elements fuel (join (js ",") (map JSON_stringify (x :: l)) ++ 93%N :: rest)
    = Some (x :: l, rest).
Proof.
  revert x. induction l as [|y l IH]; intros x Hread Hwhole fuel rest Hfuel;
    inversion Hread as [|? ? Hx Hl]; inversion Hwhole as [|? ? Wx Wl]; subst;
    cbn [weights fold_right] in Hfuel; destruct fuel as [|fuel]; try lia.
  - cbn [map join parse_elements].
    rewrite (Hx Wx fuel (93%N :: rest)); [|lia|apply ends_number_closing; tauto].
    reflexivity.
  - cbn [map]. rewrite join_more, <- !app_assoc. cbn [parse_elements].
    change (js "," ++ ?t) with (44%N :: t).
    rewrite (Hx Wx fuel); [|lia|apply ends_number_closing; tauto].
    cbn [skip_ws is_json_whitespace]. cbn -[parse_elements join map].
    change (JSON_stringify y :: map JSON_stringify l) with (map JSON_stringify (y :: l)).
    rewrite (IH y Hl Wl fuel rest); [reflexivity|].
    unfold weights. cbn [fold_right] in *. lia.
Qed.

Lemma parse_members_stringify (l : list (jsstring * json)) (m : jsstring * json) :
  Forall (fun m => read_back (snd m)) (m :: l) ->
  Forall (fun m => whole (snd m)) (m :: l) ->
  forall (fuel : nat) (rest : jsstring),
    (member_weights (m :: l) <= fuel)%nat ->
    parse_members
      fuel
      (join (js ",")
            (map (fun member : jsstring * json =>
                    let (k, x) := member in
                    QuoteJSONString k ++ js ":" ++ JSON_stringify x)
                 (m :: l))
       ++ 125%N :: rest)
    = Some (m :: l, rest).
Proof.
  revert m. induction l as [|n l IH]; intros [k x] Hread Hwhole fuel rest Hfuel;
    inversion Hread as [|? ? Hx Hl]; inversion Hwhole as [|? ? Wx Wl]; subst;
    cbn [snd] in Hx, Wx;
    unfold member_weights in Hfuel; cbn [fold_right snd] in Hfuel;
    destruct fuel as [|fuel]; try lia.
  - cbn [map join]. unfold QuoteJSONString. rewrite <- !app_assoc.
    change (js ":" ++ ?t) with (58%N :: t). cbn [app].
    apply parse_members_last.
    apply (Hx Wx); [lia|apply ends_number_closing; tauto].
  - cbn [map]. rewrite join_more. unfold QuoteJSONString at 1. rewrite <- !app_assoc.
    change (js ":" ++ ?t) with (58%N :: t). change (js "," ++ ?t) with (44%N :: t).
    cbn [app].
    eapply parse_members_more.
    + apply (Hx Wx); [lia|apply ends_number_closing; tauto].
    + apply (IH n Hl Wl). unfold member_weights. cbn [fold_right]. lia.
Qed.

Lemma parse_value_array (fuel : nat) (c : N) (s rest : jsstring) (vs : list json) :
  parse_elements fuel (c :: s) = Some (vs, rest) ->
  is_json_whitespace c = false -> (c =? 93)%N = false ->
  parse_value (S fuel) (91%N :: c :: s) = Some (JArray vs, rest).
Proof.
  intros H W B. cbn [parse_value]. rewrite skip_ws_head by reflexivity.
  cbv iota. simpl (91 =? _)%N. cbv iota.
  rewrite (skip_ws_head c) by exact W. cbv iota. rewrite B. now rewrite H.
Qed.

(** [JSON.parse] reads back what [JSON.stringify] wrote. *)
Lemma parse_value_stringify (v : json) : read_back v.
Proof.
  induction v as [|b|l|s|elements IH|members IH] using json_induction;
    intros Hwhole fuel rest Hfuel Hrest.
  - destruct fuel as [|fuel]; [cbn in Hfuel; lia|]. reflexivity.
  - destruct fuel as [|fuel]; [cbn in Hfuel; lia|]. destruct b; reflexivity.
  - destruct fuel as [|fuel]; [cbn in Hfuel; lia|]. destruct Hwhole as [z ->].
    now apply parse_value_number.
  - destruct fuel as [|fuel]; [cbn in Hfuel; lia|].
    cbn [JSON_stringify]. unfold QuoteJSONString. rewrite <- !app_assoc.
    apply parse_value_string.
  - rewrite weight_array in Hfuel. destruct fuel as [|fuel]; [lia|].
    apply whole_array in Hwhole.
    destruct elements as [|x l]; [reflexivity|].
    cbn [JSON_stringify]. rewrite <- !app_assoc.
    change (js "[" ++ ?t) with (91%N :: t). change (js "]" ++ ?t) with (93%N :: t).
    assert (Hhead : whole x) by (now inversion Hwhole).
    destruct (JSON_stringify_head x Hhead) as [c [tail [E [W [B1 B2]]]]].
    pose proof (parse_elements_stringify l x IH Hwhole fuel rest ltac:(lia)) as Hparse.
    destruct l as [|y l].
    + cbn [map join] in *. rewrite E in *. cbn [app] in *.
      now apply parse_value_array.
    + cbn [map] in *. rewrite join_more in *. rewrite E in *.
      rewrite <- !app_assoc in *. cbn [app] in *.
      now apply parse_value_array.
  - rewrite weight_object in Hfuel. destruct fuel as [|fuel]; [lia|].
    apply whole_object in Hwhole.
    destruct members as [|[k x] l]; [reflexivity|].
    cbn [JSON_stringify]. rewrite <- !app_assoc.
    change (js "{" ++ ?t) with (123%N :: t). change (js "}" ++ ?t) with (125%N :: t).
    pose proof (parse_members_stringify l (k, x) IH Hwhole fuel rest ltac:(lia)) as Hparse.
    destruct l as [|n l].
    + cbn [map join] in *. unfold QuoteJSONString in *. rewrite <- !app_assoc in *.
      cbn [app] in *. apply parse_value_object. exact Hparse.
    + cbn [map] in *. rewrite join_more in *. unfold QuoteJSONString in Hparse at 1.
      unfold QuoteJSONString at 1. rewrite <- !app_assoc in *.
      cbn [app] in *. apply parse_value_object. exact Hparse.
Qed.

Lemma length_join_weights (l : list json) :
  Forall (fun x => (weight x <= List.length (JSON_stringify x))%nat) l ->
  (weights l <= List.length (join (js ",") (map JSON_stringify l)) + 1)%nat.
Proof.
  induction 1 as [|x l Hx Hl IH]; [cbn; lia|].
  unfold weights in *. cbn [fold_right].
  destruct l as [|y l].
  - cbn [map join fold_right]. lia.
  - cbn [map]. rewrite join_more, !length_app. cbn [map] in IH.
    change (List.length (js ",")) with 1%nat. lia.
Qed.

Lemma length_join_member_weights (l : list (jsstring * json)) :
  Forall (fun m => (weight (snd m) <= List.length (JSON_stringify (snd m)))%nat) l ->
  (member_weights l
   <= List.length
        (join (js ",")
              (map (fun member : jsstring * json =>
                      let (k, x) := member in
                      QuoteJSONString k ++ js ":" ++ JSON_stringify x)
                   l)) + 1)%nat.
Proof.
  induction 1 as [|[k x] l Hx Hl IH]; [cbn; lia|].
  unfold member_weights in *. cbn [fold_right snd] in *.
  destruct l as [|n l].
  - cbn [map join fold_right]. cbv beta iota. rewrite !length_app. clear IH Hl. lia.
  - cbn [map] in *. cbv beta iota in *. rewrite join_more, !length_app.
    change (List.length (js ",")) with 1%nat. clear Hl.
    set (F := fold_right _ O (n :: l)) in *.
    set (J := List.length (join _ _)) in *. clearbody F J. lia.
Qed.

Lemma weight_length (v : json) :
  whole v -> (weight v <= List.length (JSON_stringify v))%nat.
Proof.
  induction v as [|b|l|s|elements IH|members IH] using json_induction; intros Hwhole.
  - cbn. lia.
  - destruct b; cbn; lia.
  - destruct Hwhole as [z ->]. destruct (Number_toString_head z) as [c [tail [E _]]].
    cbn [weight JSON_stringify]. rewrite E. cbn. lia.
  - cbn [weight JSON_stringify]. unfold QuoteJSONString. rewrite !length_app. cbn. lia.
  - rewrite weight_array. apply whole_array in Hwhole.
    cbn [JSON_stringify]. rewrite !length_app.
    change (List.length (js "[")) with 1%nat. change (List.length (js "]")) with 1%nat.
    assert (H : Forall (fun x => (weight x <= List.length (JSON_stringify x))%nat) elements).
    { rewrite Forall_forall in *. intros x Hx. apply IH; [exact Hx|now apply Hwhole]. }
    pose proof (length_join_weights elements H). lia.
  - rewrite weight_object. apply whole_object in Hwhole.
    cbn [JSON_stringify]. rewrite !length_app.
    change (List.length (js "{")) with 1%nat. change (List.length (js "}")) with 1%nat.
    assert (H : Forall (fun m => (weight (snd m) <= List.length (JSON_stringify (snd m)))%nat)
                       members).
    { rewrite Forall_forall in *. intros m Hm. apply IH; [exact Hm|now apply Hwhole]. }
    pose proof (length_join_member_weights members H). lia.
Qed.

Lemma JSON_parse_stringify (msg : jsstring) (v : json) :
  whole v -> JSON_parse msg (JSON_stringify v) = Ok v.
Proof.
  intros Hwhole. unfold JSON_parse.
  pose proof (parse_value_stringify v Hwhole
                (2 * List.length (JSON_stringify v) + 2)%nat []) as H.
  rewrite app_nil_r in H. rewrite H; [reflexivity| |exact I].
  pose proof (weight_length v Hwhole). lia.
Qed.

Lemma whole_audits (logs : list SecurityAudit.t) : whole (JArray (map JSON_of_audit logs)).
Proof.
  apply whole_array, Forall_forall. intros v Hv. apply in_map_iff in Hv as [a [<- _]].
  apply whole_object. unfold JSON_of_audit, optional.
  destruct (SecurityAudit.resourceId a), (SecurityAudit.details a); cbn [app];
    repeat constructor; cbn; eauto.
Qed.

Lemma whole_permissions (perms : list AccessPermission.t) :
  whole (JArray (map JSON_of_permission perms)).
Proof.
  apply whole_array, Forall_forall. intros v Hv. apply in_map_iff in Hv as [p [<- _]].
  apply whole_object. unfold JSON_of_permission.
  repeat constructor; cbn [snd]; try (cbn; eauto; fail).
  apply whole_array, Forall_forall. intros x Hx. apply in_map_iff in Hx as [y [<- _]].
  exact I.
Qed.

Lemma js_inj (a b : string) : js a = js b -> a = b.
Proof.
  unfold js. intros H.
  rewrite <- (string_of_list_ascii_of_string a), <- (string_of_list_ascii_of_string b).
  f_equal. revert H. generalize (list_ascii_of_string a) (list_ascii_of_string b).
  induction l as [|x l IH]; intros [|y l'] H; try discriminate; [reflexivity|].
  injection H as Hxy Hl. f_equal; [|now apply IH].
  rewrite <- (ascii_N_embedding x), <- (ascii_N_embedding y). now rewrite Hxy.
Qed.

Lemma Number_toString_inj (a b : Z) : Number_toString a = Number_toString b -> a = b.
Proof.
  unfold Number_toString. intros H. apply js_inj in H.
  assert (Back : forall z, NilZero.int_of_string (NilZero.string_of_int (Z.to_int z))
                           = Some (Z.to_int z)).
  { intros z. apply NilZero.isi.
    - destruct (to_int_normal z) as [E|[d [[E|E] [Hd _]]]]; rewrite E; congruence.
    - destruct (to_int_normal z) as [E|[d [[E|E] [Hd _]]]]; rewrite E; congruence. }
  pose proof (Back a) as Ha. rewrite H, Back in Ha. injection Ha as Ha.
  rewrite <- (DecimalZ.of_to a), <- (DecimalZ.of_to b). now rewrite Ha.
Qed.

Lemma RiskLevel_name_inj (a b : RiskLevel) : RiskLevel_name a = RiskLevel_name b -> a = b.
Proof. destruct a, b; intros H; try reflexivity; vm_compute in H; discriminate H. Qed.

Lemma ResourceType_name_inj (a b : ResourceType) :
  ResourceType_name a = ResourceType_name b -> a = b.
Proof. destruct a, b; intros H; try reflexivity; vm_compute in H; discriminate H. Qed.

Lemma Permission_name_inj (a b : Permission) : Permission_name a = Permission_name b -> a = b.
Proof. destruct a, b; intros H; try reflexivity; vm_compute in H; discriminate H. Qed.

Lemma Permission_names_inj (l l' : list Permission) :
  map (fun x => JString (Permission_name x)) l = map (fun x => JString (Permission_name x)) l' ->
  l = l'.
Proof.
  revert l'. induction l as [|x l IH]; intros [|y l'] H; try discriminate; [reflexivity|].
  cbn [map] in H. injection H as Hx Hl. f_equal; [now apply Permission_name_inj|now apply IH].
Qed.

Lemma optional_inj (k : string) (a b : option jsstring)
      (rest rest' : list (jsstring * json)) :
  (forall s, In (js k, JString s) rest' -> False) ->
  (forall s, In (js k, JString s) rest -> False) ->
  optional k a ++ rest = optional k b ++ rest' -> a = b /\ rest = rest'.
Proof.
  intros Hrest' Hrest H. destruct a as [s|], b as [s'|]; cbn [optional app] in H.
  - injection H as -> ->. now split.
  - exfalso. apply (Hrest' s). rewrite <- H. now left.
  - exfalso. apply (Hrest s'). rewrite H. now left.
  - now split.
Qed.

Lemma JSON_of_audit_inj (a b : SecurityAudit.t) : JSON_of_audit a = JSON_of_audit b -> a = b.
Proof.
  destruct a as [i t ac u r ip ua ok risk d], b as [i' t' ac' u' r' ip' ua' ok' risk' d'].
  unfold JSON_of_audit.
  cbn [SecurityAudit.id SecurityAudit.timestamp SecurityAudit.action
       SecurityAudit.userAddress SecurityAudit.resourceId SecurityAudit.ipAddress
       SecurityAudit.userAgent SecurityAudit.success SecurityAudit.riskLevel
       SecurityAudit.details app].
  intros H. injection H as Hi Ht Hip Hua Hac Hu Hrest.
  apply Number_toString_inj in Ht.
  apply optional_inj in Hrest as [Hr Hrest].
  - injection Hrest as Hok Hrisk Hd. apply RiskLevel_name_inj in Hrisk.
    assert (Hd' : d = d').
    { destruct d, d'; cbn [optional] in Hd; congruence. }
    now subst.
  - intros s H. cbn [In app] in H.
    destruct H as [H|[H|H]]; [vm_compute in H; discriminate H..|].
    destruct d'; cbn [optional In] in H; [|exact H].
    destruct H as [H|[]]. vm_compute in H. discriminate H.
  - intros s H. cbn [In app] in H.
    destruct H as [H|[H|H]]; [vm_compute in H; discriminate H..|].
    destruct d; cbn [optional In] in H; [|exact H].
    destruct H as [H|[]]. vm_compute in H. discriminate H.
Qed.

Lemma JSON_of_permission_inj (a b : AccessPermission.t) :
  JSON_of_permission a = JSON_of_permission b -> a = b.
Proof.
  destruct a as [i g e r rt ps ex cr act], b as [i' g' e' r' rt' ps' ex' cr' act'].
  unfold JSON_of_permission.
  cbn [AccessPermission.id AccessPermission.granterAddress AccessPermission.granteeAddress
       AccessPermission.resourceId AccessPermission.resourceType
       AccessPermission.permissions AccessPermission.expiresAt AccessPermission.createdAt
       AccessPermission.isActive].
  intros H. injection H as Hi Hg He Hr Hrt Hps Hex Hcr Hact.
  apply ResourceType_name_inj in Hrt. apply Permission_names_inj in Hps.
  apply Number_toString_inj in Hex, Hcr. now subst.
Qed.

Lemma map_inj {A B : Type} (f : A -> B) (l l' : list A) :
  (forall a b, f a = f b -> a = b) -> map f l = map f l' -> l = l'.
Proof.
  intros Hf. revert l'. induction l as [|x l IH]; intros [|y l'] H; try discriminate;
    [reflexivity|].
  cbn [map] in H. injection H as Hx Hl. f_equal; [now apply Hf|now apply IH].
Qed.

(** X1.  What the service saves is what it loads.  Take an audit log and
    permissions whose time stamps are integers a double holds exactly.  The
    text [JSON.stringify] writes for each of the two arrays is read by
    [JSON.parse] as a value equal to the array saved, with every entry,
    every property and the order of both; and two arrays with the same text
    are the same.  So [loadStoredData] after [saveAuditLogs] and
    [savePermissions] finds in the store the collections that were in
    memory. *)
Theorem what_is_saved_is_read_back :
  forall (msg : jsstring) (logs : list SecurityAudit.t) (perms : list AccessPermission.t),
    let saved_logs := JSON_stringify (JArray (map JSON_of_audit logs)) in
    let saved_permissions := JSON_stringify (JArray (map JSON_of_permission perms)) in
    Forall (fun a => safe_integer (SecurityAudit.timestamp a)) logs ->
    Forall (fun p => safe_integer (AccessPermission.expiresAt p)
                     /\ safe_integer (AccessPermission.createdAt p)) perms ->
    JSON_parse msg saved_logs = Ok (JArray (map JSON_of_audit logs))
    /\ JSON_parse msg saved_permissions = Ok (JArray (map JSON_of_permission perms))
    /\ (forall logs',
           JSON_stringify (JArray (map JSON_of_audit logs')) = saved_logs -> logs' = logs)
    /\ (forall perms',
           JSON_stringify (JArray (map JSON_of_permission perms')) = saved_permissions ->
           perms' = perms).
Proof.
  intros msg logs perms saved_logs saved_permissions _ _.
  subst saved_logs saved_permissions.
  split; [apply JSON_parse_stringify, whole_audits|].
  split; [apply JSON_parse_stringify, whole_permissions|].
  split.
  - intros logs' H.
    pose proof (JSON_parse_stringify msg _ (whole_audits logs')) as H'.
    rewrite H, (JSON_parse_stringify msg _ (whole_audits logs)) in H'.
    injection H' as H'. symmetry. exact (map_inj _ _ _ JSON_of_audit_inj H').
  - intros perms' H.
    pose proof (JSON_parse_stringify msg _ (whole_permissions perms')) as H'.
    rewrite H, (JSON_parse_stringify msg _ (whole_permissions perms)) in H'.
    injection H' as H'. symmetry. exact (map_inj _ _ _ JSON_of_permission_inj H').
Qed.

Lemma busy_world_safe :
  Forall (fun a => safe_integer (SecurityAudit.timestamp a)) (auditLogs busy_world)
  /\ Forall (fun p => safe_integer (AccessPermission.expiresAt p)
                      /\ safe_integer (AccessPermission.createdAt p))
            (permissions busy_world).
Proof.
  pose (safe := fun z => (- 2 ^ 53 <=? z) && (z <=? 2 ^ 53)).
  assert (Hsafe : forall z, safe z = true -> safe_integer z).
  { intros z H. apply andb_true_iff in H. destruct H as [H1 H2].
    split; [apply Z.leb_le, H1 | apply Z.leb_le, H2]. }
  split; apply Forall_forall; intros x Hx.
  - apply Hsafe.
    assert (H : forallb (fun a => safe (SecurityAudit.timestamp a)) (auditLogs busy_world)
                = true) by (vm_compute; reflexivity).
    exact (proj1 (forallb_forall _ _) H x Hx).
  - assert (H : forallb (fun p => safe (AccessPermission.expiresAt p)
                                  && safe (AccessPermission.createdAt p))
                        (permissions busy_world) = true) by (vm_compute; reflexivity).
    pose proof (proj1 (forallb_forall _ _) H x Hx) as H'. cbv beta in H'.
    apply andb_true_iff in H'. split; apply Hsafe; tauto.
Qed.

Lemma what_is_saved_is_read_back_witness :
  let saved_logs := JSON_stringify (JArray (map JSON_of_audit (auditLogs busy_world))) in
  let saved_permissions :=
    JSON_stringify (JArray (map JSON_of_permission (permissions busy_world))) in
  JSON_parse (js "invalid") saved_logs = Ok (JArray (map JSON_of_audit (auditLogs busy_world)))
  /\ JSON_parse (js "invalid") saved_permissions
     = Ok (JArray (map JSON_of_permission (permissions busy_world)))
  /\ (forall logs',
         JSON_stringify (JArray (map JSON_of_audit logs')) = saved_logs ->
         logs' = auditLogs busy_world)
  /\ (forall perms',
         JSON_stringify (JArray (map JSON_of_permission perms')) = saved_permissions ->
         perms' = permissions busy_world).
Proof.
  apply (what_is_saved_is_read_back
           (js "invalid") (auditLogs busy_world) (permissions busy_world));
    apply busy_world_safe.
Defined.
